(** * weave-chunker: chunking, indexing and retrieval pipeline

    A shallow embedding of [chunker.ts], [bake.ts], [store.ts] and
    [search.ts] together with the properties of the pipeline that the
    design document states about them.

    Conventions of the embedding.
    - A JavaScript string is a sequence of UTF-16 code units.  The model
      keeps the code units below 256 and writes a string as [list ascii];
      the character classes of the regular expressions ([\s], [.], [\p{L}],
      [\p{N}]) and [toLowerCase] are the restrictions of the JavaScript
      ones to that range.  The bullet U+2022 of one character class lies
      outside the range and has no counterpart here.
    - A JavaScript number that holds a count, a length or a row id is a
      [nat] or a [Z]; a number that holds a ratio or a score is an exact
      rational [Q], so the arithmetic of the scores is the arithmetic of
      the source without binary rounding.  A binary64 sum can differ from
      the rational one in its last place; the theorems use a score as a
      key to compare and as a value inside the bounds of its final clamp.
    - A store is taken with its vector table present from the moment its
      dimension is recorded, as it is whenever [setDim] returned.
    - Every regular expression is written out as the deterministic scanner
      that the backtracking matcher amounts to for that pattern.
    - An exception is a result in a sum type; the external collaborators
      (SHA-1, JSON, the embedding service, the nearest-neighbour index)
      are parameters. *)

From Stdlib Require Import QArith Qround Qminmax Lqa.
From Stdlib Require Import Ascii String List ZArith Lia Bool DecimalString Sorted.
From stdpp Require Import gmap strings list.
Close Scope Q_scope.
Import ListNotations.

(** ** JavaScript strings and the regular expressions of the sources *)
Module JS.

Abbreviation jstring := (list ascii).

Definition lit (s : string) : jstring := list_ascii_of_string s.

Definition code (c : ascii) : nat := nat_of_ascii c.

Definition between (lo hi : nat) (c : ascii) : bool :=
  (lo <=? code c) && (code c <=? hi).

Definition isChar (n : nat) (c : ascii) : bool := code c =? n.

Definition isC (x c : ascii) : bool := Ascii.eqb c x.

Definition LF : ascii := ascii_of_nat 10.
Definition CR : ascii := ascii_of_nat 13.

(** [\s]: TAB, LF, VT, FF, CR, space and the no-break space. *)
Definition isWs (c : ascii) : bool :=
  between 9 13 c || isChar 32 c || isChar 160 c.

(** The characters that [.] refuses and after which [^] holds under [/m]. *)
Definition isLineTerminator (c : ascii) : bool :=
  isChar 10 c || isChar 13 c.

Definition isLF (c : ascii) : bool := isChar 10 c.
Definition isUpper (c : ascii) : bool := between 65 90 c.
Definition isLower (c : ascii) : bool := between 97 122 c.
Definition isDigit (c : ascii) : bool := between 48 57 c.

(** [\p{L}] and [\p{N}] below 256. *)
Definition isLetter (c : ascii) : bool :=
  isUpper c || isLower c || isChar 170 c || isChar 181 c || isChar 186 c
  || between 192 214 c || between 216 246 c || between 248 255 c.

Definition isNumber (c : ascii) : bool :=
  isDigit c || isChar 178 c || isChar 179 c || isChar 185 c || between 188 190 c.

Definition lowerChar (c : ascii) : ascii :=
  if isUpper c || between 192 214 c || between 216 222 c
  then ascii_of_nat (code c + 32) else c.

Definition toLowerCase (s : jstring) : jstring := List.map lowerChar s.

Fixpoint takeWhile (p : ascii -> bool) (s : jstring) : jstring :=
  match s with
  | c :: t => if p c then c :: takeWhile p t else []
  | [] => []
  end.

Fixpoint dropWhile (p : ascii -> bool) (s : jstring) : jstring :=
  match s with
  | c :: t => if p c then dropWhile p t else s
  | [] => []
  end.

(** The string without its longest suffix of characters of the class. *)
Fixpoint dropWhileEnd (p : ascii -> bool) (s : jstring) : jstring :=
  match s with
  | [] => []
  | c :: t =>
      match dropWhileEnd p t with
      | [] => if p c then [] else [c]
      | t' => c :: t'
      end
  end.

Definition reverse (s : jstring) : jstring := rev_append s [].

Definition trimStart (s : jstring) : jstring := dropWhile isWs s.
Definition trimEnd (s : jstring) : jstring := dropWhileEnd isWs s.
Definition trim (s : jstring) : jstring := trimEnd (trimStart s).

Fixpoint startsWith (p s : jstring) : bool :=
  match p, s with
  | [], _ => true
  | a :: p', b :: s' => Ascii.eqb a b && startsWith p' s'
  | _ :: _, [] => false
  end.

(** [hay.includes(needle)]. *)
Fixpoint includes (hay needle : jstring) : bool :=
  startsWith needle hay ||
  match hay with
  | _ :: t => includes t needle
  | [] => false
  end.

Definition jeqb (a b : jstring) : bool := bool_decide (a = b).

(** [parts.join(sep)]. *)
Fixpoint join (sep : jstring) (parts : list jstring) : jstring :=
  match parts with
  | [] => []
  | [p] => p
  | p :: rest => p ++ sep ++ join sep rest
  end.

(** [s.split(c)] for a one-character separator; the result is never empty. *)
Fixpoint splitChar (sep : ascii) (s : jstring) : list jstring :=
  match s with
  | [] => [[]]
  | c :: t =>
      if Ascii.eqb c sep then [] :: splitChar sep t
      else match splitChar sep t with
           | cur :: rest => (c :: cur) :: rest
           | [] => [[c]]
           end
  end.

(** [s.replace(/\r\n/g, "\n")]. *)
Fixpoint replaceCRLF (s : jstring) : jstring :=
  match s with
  | c :: ((d :: _) as t) =>
      if isChar 13 c && isChar 10 d then replaceCRLF t else c :: replaceCRLF t
  | _ => s
  end.

(** [s.slice(from)] for [0 <= from]. *)
Definition sliceFrom (from : nat) (s : jstring) : jstring := skipn from s.

(** A regular expression as a scanner: given the character before the
    position ([None] at the start of the input) and the rest of the input,
    the length of the match that starts at this position, if any. *)
Definition matcher := option ascii -> jstring -> option nat.

Definition atLineStart (prev : option ascii) : bool :=
  match prev with
  | None => true
  | Some c => isLineTerminator c
  end.

(** [s.match(/re/g) || []]: the successive leftmost matches, the search
    resuming where the previous match ended ([skip] counts the characters
    of the current match still to pass over); after an empty match the
    search resumes one character further. *)
Fixpoint matchAllFrom (m : matcher) (prev : option ascii) (skip : nat)
    (s : jstring) : list jstring :=
  match skip with
  | S k =>
      match s with
      | c :: t => matchAllFrom m (Some c) k t
      | [] => []
      end
  | O =>
      match m prev s with
      | Some n =>
          firstn n s ::
          match s with
          | c :: t => matchAllFrom m (Some c) (Nat.pred n) t
          | [] => []
          end
      | None =>
          match s with
          | c :: t => matchAllFrom m (Some c) 0 t
          | [] => []
          end
      end
  end.

Definition matchAll (m : matcher) (s : jstring) : list jstring :=
  matchAllFrom m None 0 s.

Definition countMatches (m : matcher) (s : jstring) : nat :=
  length (matchAll m s).

(** [s.replace(/re/g, f)] for a pattern that never matches the empty string. *)
Fixpoint replaceAllFrom (m : matcher) (f : jstring -> jstring)
    (prev : option ascii) (skip : nat) (s : jstring) : jstring :=
  match skip with
  | S k =>
      match s with
      | c :: t => replaceAllFrom m f (Some c) k t
      | [] => []
      end
  | O =>
      match s with
      | [] => []
      | c :: t =>
          match m prev s with
          | Some (S n) => f (firstn (S n) s) ++ replaceAllFrom m f (Some c) n t
          | _ => c :: replaceAllFrom m f (Some c) 0 t
          end
      end
  end.

Definition replaceAll (m : matcher) (f : jstring -> jstring) (s : jstring) : jstring :=
  replaceAllFrom m f None 0 s.

End JS.
Import JS.

(** ** chunker.ts *)
Module Chunker.

Inductive ContentType := narrative | list_type | quote | mixed.

Record ChunkMeta := {
  universe : option jstring;
  species : option jstring;
  subspecies : option jstring;
  source_file : jstring;
  section_path : jstring;
  section_title : option jstring;
  parent_section : option jstring;
  entities : list jstring;
  aliases : list jstring;
  concepts : list jstring;
  content_type : ContentType;
  importance_score : Q;
  parent_chunk_id : option jstring   (* [None] is [null] *)
}.

Record MeaningChunk := { id : jstring; text : jstring; meta : ChunkMeta }.

Record BaseMeta := {
  base_universe : option jstring;
  base_species : option jstring;
  base_subspecies : option jstring
}.

(** [Required<SplitOptions>] *)
Record SplitOptions := { maxTokens : Z; overlapRatio : Q }.

Definition DEFAULTS : SplitOptions := {| maxTokens := 400; overlapRatio := 0.15%Q |}.

Definition lengthQ (s : jstring) : Q := inject_Z (Z.of_nat (length s)).
Definition countQ (n : nat) : Q := inject_Z (Z.of_nat n).

Definition isBullet (c : ascii) : bool := isC "-" c || isC "*" c || isC "+" c.

(** [\s+] at the head of [s]: the length of the run, when it is not empty. *)
Definition wsRun (s : jstring) : option nat :=
  let k := length (takeWhile isWs s) in
  if (1 <=? k)%nat then Some k else None.

(** [\d+\.] at the head of [s]. *)
Definition numberDot (s : jstring) : option nat :=
  let d := length (takeWhile isDigit s) in
  if (1 <=? d)%nat then
    match skipn d s with
    | c :: _ => if isC "." c then Some (S d) else None
    | [] => None
    end
  else None.

(** [/^(\s*[-*+]|\s*\d+\.)\s+/gm] *)
Definition reListItem : matcher := fun prev s =>
  if atLineStart prev then
    let n := length (takeWhile isWs s) in
    let r := skipn n s in
    match r with
    | c :: r' =>
        if isBullet c then
          match wsRun r' with Some k => Some (n + 1 + k)%nat | None => None end
        else
          match numberDot r with
          | Some d =>
              match wsRun (skipn d r) with
              | Some k => Some (n + d + k)%nat
              | None => None
              end
          | None => None
          end
    | [] => None
    end
  else None.

(** [/^\s*[-*+•]\s+/gm]; the bullet U+2022 lies outside the code units of
    the model, so the class is that of [isBullet]. *)
Definition reBulletLine : matcher := fun prev s =>
  if atLineStart prev then
    let n := length (takeWhile isWs s) in
    match skipn n s with
    | c :: r' =>
        if isBullet c then
          match wsRun r' with Some k => Some (n + 1 + k)%nat | None => None end
        else None
    | [] => None
    end
  else None.

(** [/^\s*\d+\.\s+/gm] *)
Definition reNumberedLine : matcher := fun prev s =>
  if atLineStart prev then
    let n := length (takeWhile isWs s) in
    let r := skipn n s in
    match numberDot r with
    | Some d =>
        match wsRun (skipn d r) with
        | Some k => Some (n + d + k)%nat
        | None => None
        end
    | None => None
    end
  else None.

(** [/^\s*>/gm] *)
Definition reQuoteLine : matcher := fun prev s =>
  if atLineStart prev then
    let n := length (takeWhile isWs s) in
    match skipn n s with
    | c :: _ => if isC ">" c then Some (S n) else None
    | [] => None
    end
  else None.

(** [/[A-Z][a-z]+/g] *)
Definition reCapWord : matcher := fun _ s =>
  match s with
  | c :: r =>
      if isUpper c then
        let k := length (takeWhile isLower r) in
        if (1 <=? k)%nat then Some (S k) else None
      else None
  | [] => None
  end.

Definition isStar (c : ascii) : bool := isC "*" c.
Definition notStar (c : ascii) : bool := negb (isStar c).

(** [/\*\*[^*]+\*\*|\*[^*]+\*/g] *)
Definition reEmphasis : matcher := fun _ s =>
  match s with
  | a :: b :: r =>
      if isStar a then
        if isStar b then
          let k := length (takeWhile notStar r) in
          if (1 <=? k)%nat then
            match skipn k r with
            | x :: y :: _ => if isStar x && isStar y then Some (k + 4)%nat else None
            | _ => None
            end
          else None
        else
          let k := length (takeWhile notStar (b :: r)) in
          match skipn k (b :: r) with
          | x :: _ => if isStar x then Some (k + 2)%nat else None
          | [] => None
          end
      else None
  | _ => None
  end.

(** ~4 chars/token heuristic with minor bias for tables/lists *)
Definition estimateTokens (s : jstring) : Z :=
  let approx := Qceiling (lengthQ s / 4) in
  let tableBonus := (countQ (length (filter (fun c => isC "|" c = true) s)) * 0.03)%Q in
  let listBonus := (countQ (countMatches reListItem s) * 0.05)%Q in
  Z.max 1 (Qfloor (inject_Z approx * (1 + tableBonus + listBonus))).

Definition Qgtb (a b : Q) : bool := negb (Qle_bool a b).
Definition Qltb (a b : Q) : bool := negb (Qle_bool b a).

Record Analysis := { type : ContentType; importance : Q }.

Definition listRatioOf (text : jstring) : Q :=
  let listLines := countMatches reBulletLine text in
  let numberedLines := countMatches reNumberedLine text in
  let totalLines := length (splitChar LF text) in
  (countQ (listLines + numberedLines) / countQ totalLines)%Q.

Definition quoteRatioOf (text : jstring) : Q :=
  let quoteLines := countMatches reQuoteLine text in
  let totalLines := length (splitChar LF text) in
  (countQ quoteLines / countQ totalLines)%Q.

(** Analyze content type and importance *)
Definition analyzeContent (text : jstring) : Analysis :=
  let listRatio := listRatioOf text in
  let quoteRatio := quoteRatioOf text in
  let type :=
    if Qgtb quoteRatio 0.5 then quote
    else if Qgtb listRatio 0.4 then list_type
    else if Qgtb listRatio 0.1 || Qgtb quoteRatio 0.1 then mixed
    else narrative in
  let importance := 0.5%Q in
  let properNouns := countMatches reCapWord text in
  let importance := (importance + Qmin 0.3 (countQ properNouns * 0.02))%Q in
  let emphasized := countMatches reEmphasis text in
  let importance := (importance + Qmin 0.2 (countQ emphasized * 0.05))%Q in
  let importance := if Qgtb quoteRatio 0.2 then (importance + 0.15)%Q else importance in
  let importance := if Qgtb listRatio 0.3 then (importance + 0.1)%Q else importance in
  let importance := if (length text <? 100)%nat then (importance - 0.2)%Q else importance in
  {| type := type; importance := Qmax 0.1 (Qmin 1.0 importance) |}.

(** [s.replace(/\n{3,}/g, "\n\n")]; [nl] counts the line feeds of the
    run being read. *)
Fixpoint collapseNewlines (nl : nat) (s : jstring) : jstring :=
  match s with
  | [] => repeat LF (Nat.min nl 2)
  | c :: t =>
      if isLF c then collapseNewlines (S nl) t
      else repeat LF (Nat.min nl 2) ++ c :: collapseNewlines 0 t
  end.

Definition normalizeBlock (s : jstring) : jstring :=
  collapseNewlines 0 (trimStart (trimEnd s)).


(** *** slugify *)

Definition isMarkdownMarker (c : ascii) : bool :=
  isC "*" c || isC "_" c || isC "`" c || isC "~" c.

(** The lazy [.*?] followed by [\]\(]: the number of characters before the
    first ["]("] that is reached without crossing a line terminator. *)
Fixpoint findBracketParen (s : jstring) : option nat :=
  match s with
  | c :: t =>
      if isC "]" c && match t with d :: _ => isC "(" d | [] => false end
      then Some O
      else if isLineTerminator c then None
      else option_map S (findBracketParen t)
  | [] => None
  end.

(** The lazy [.*?] followed by [\)]. *)
Fixpoint findParen (s : jstring) : option nat :=
  match s with
  | c :: t =>
      if isC ")" c then Some O
      else if isLineTerminator c then None
      else option_map S (findParen t)
  | [] => None
  end.

(** [\[.*?\]\(.*?\)] at the head of [s]. *)
Definition linkAt (s : jstring) : option nat :=
  match s with
  | c :: t =>
      if isC "[" c then
        match findBracketParen t with
        | Some a =>
            match findParen (skipn (a + 2) t) with
            | Some b => Some (a + b + 4)%nat
            | None => None
            end
        | None => None
        end
      else None
  | [] => None
  end.

(** [/!?\[.*?\]\(.*?\)/g] *)
Definition reLink : matcher := fun _ s =>
  match s with
  | c :: t => if isC "!" c then option_map S (linkAt t) else linkAt s
  | [] => None
  end.

(** [\]\(.*\)$] at the head of [s]. *)
Definition linkTailAt (s : jstring) : bool :=
  match s with
  | a :: b :: r =>
      isC "]" a && isC "(" b && forallb (fun c => negb (isLineTerminator c)) r
      && match r with [] => false | _ => isC ")" (List.last r LF) end
  | _ => false
  end.

Fixpoint cutLinkTail (s : jstring) : jstring :=
  match s with
  | c :: t => if linkTailAt s then [] else c :: cutLinkTail t
  | [] => []
  end.

(** The replacement callback of the link pattern: the match without its
    leading [!?\[] and without its trailing [\]\(...\)]. *)
Definition linkInner (m : jstring) : jstring :=
  match m with
  | a :: b :: t =>
      if isC "!" a && isC "[" b then cutLinkTail t
      else if isC "[" a then cutLinkTail (b :: t)
      else cutLinkTail m
  | [a] => if isC "[" a then [] else m
  | [] => []
  end.

Definition isAlnum (c : ascii) : bool := isLetter c || isNumber c.

Definition isSlugChar (c : ascii) : bool :=
  isAlnum c || isWs c || isC "/" c || isC ":" c || isC "-" c.

(** [s.replace(/\s+/g, "-")] and [s.replace(/-+/g, "-")]: a run of
    characters of the class becomes one hyphen. *)
Fixpoint squeeze (p : ascii -> bool) (inRun : bool) (s : jstring) : jstring :=
  match s with
  | [] => []
  | c :: t =>
      if p c then (if inRun then squeeze p true t else "-"%char :: squeeze p true t)
      else c :: squeeze p false t
  end.

Definition isHyphen (c : ascii) : bool := isC "-" c.
Definition isHyphenOrSlash (c : ascii) : bool := isC "-" c || isC "/" c.

(** robust slug (emoji-safe, trims dashes) *)
Definition slugify (raw : jstring) : jstring :=
  let s := trim raw in
  let s := filter (fun c => isMarkdownMarker c = false) s in
  let s := replaceAll reLink linkInner s in
  let s := dropWhile (fun c => negb (isAlnum c)) s in
  let s := filter (fun c => isSlugChar c = true) s in
  let s := toLowerCase s in
  let s := squeeze isWs false s in
  let s := squeeze isHyphen false s in
  let s := dropWhileEnd isHyphenOrSlash (dropWhile isHyphenOrSlash s) in
  match s with [] => lit "section" | _ => s end.

(** *** splitSectionBySize *)

(** [text.split(/\n{2,}/)]; [cur] is the paragraph being read, reversed,
    [nl] the number of line feeds read since its last other character. *)
Fixpoint splitParagraphsFrom (cur : jstring) (nl : nat) (s : jstring) : list jstring :=
  match s with
  | [] =>
      match nl with
      | O => [reverse cur]
      | S O => [reverse (LF :: cur)]
      | _ => [reverse cur; []]
      end
  | c :: t =>
      if isLF c then splitParagraphsFrom cur (S nl) t
      else
        match nl with
        | O => splitParagraphsFrom (c :: cur) 0 t
        | S O => splitParagraphsFrom (c :: LF :: cur) 0 t
        | _ => reverse cur :: splitParagraphsFrom [c] 0 t
        end
  end.

Definition splitParagraphs (s : jstring) : list jstring := splitParagraphsFrom [] 0 s.

Definition paraSep : jstring := [LF; LF].

(** The state of the loop of [splitSectionBySize].  [seeded] is a ghost
    field: it records, for every overlap fragment pushed into a fresh
    buffer, the index in [out] of the block just committed and the
    fragment. *)
Record SplitState := {
  out : list jstring;
  buf : list jstring;
  tokens : Z;
  seeded : list (nat * jstring)
}.

Definition commit (st : SplitState) : SplitState :=
  match buf st with
  | [] => st
  | _ => {| out := out st ++ [normalizeBlock (join paraSep (buf st))];
            buf := []; tokens := 0; seeded := seeded st |}
  end.

(** The fragment seeded after [committed], lines 222 to 229. *)
Definition overlapFragment (ratio : Q) (committed : jstring) : option jstring :=
  if (0 <? length committed)%nat then
    let overlapChars := Qfloor (lengthQ committed * ratio) in
    let overlapText :=
      sliceFrom (Z.to_nat (Z.max 0 (Z.of_nat (length committed) - overlapChars))) committed in
    match trim overlapText with
    | [] => None
    | _ => Some overlapText
    end
  else None.

Definition splitStep (opts : SplitOptions) (st : SplitState) (p : jstring) : SplitState :=
  let t := estimateTokens p in
  let st1 :=
    if (0 <? tokens st)%Z && (maxTokens opts <? tokens st + t)%Z then
      let committed := normalizeBlock (join paraSep (buf st)) in
      let st' := commit st in
      match overlapFragment (overlapRatio opts) committed with
      | Some overlapText =>
          {| out := out st'; buf := buf st' ++ [overlapText];
             tokens := estimateTokens overlapText;
             seeded := seeded st' ++ [(Nat.pred (length (out st')), overlapText)] |}
      | None => st'
      end
    else st in
  {| out := out st1; buf := buf st1 ++ [p]; tokens := (tokens st1 + t)%Z;
     seeded := seeded st1 |}.

Definition splitInit : SplitState := {| out := []; buf := []; tokens := 0; seeded := [] |}.

Definition splitRun (text : jstring) (opts : SplitOptions) : SplitState :=
  commit (fold_left (splitStep opts) (splitParagraphs text) splitInit).

(** split one section by paragraphs with overlap *)
Definition splitSectionBySize (text : jstring) (opts : SplitOptions) : list jstring :=
  out (splitRun text opts).

(** *** The sectionizer of chunkMarkdownByMeaning *)

Record Frame := { level : nat; slug : jstring; title : jstring }.

Record Headings := { h1 : option Frame; h2 : option Frame; h3 : option Frame }.

Record Section := {
  path : jstring;
  sec_text : jstring;
  sec_title : option jstring;
  parent : option jstring
}.

(** [/^\s*```/] *)
Definition isFence (s : jstring) : bool :=
  startsWith (lit "```") (dropWhile isWs s).

(** The heading pattern of [isHeading]: one to six hashes, a run of
    white space, and the rest of the line as the second group.  The result
    is the number of hashes and that group. *)
Definition isHeading (s : jstring) : option (nat * jstring) :=
  let n := length (takeWhile (isC "#") s) in
  if (1 <=? n)%nat && (n <=? 6)%nat then
    let r := skipn n s in
    match wsRun r with
    | Some k =>
        let rest := skipn k r in
        if forallb (fun c => negb (isLineTerminator c)) rest then Some (n, rest) else None
    | None => None
    end
  else None.

Definition currentPath (current : Headings) : jstring :=
  match h2 current, h3 current, h1 current with
  | Some f2, Some f3, _ => slug f2 ++ lit "/" ++ slug f3
  | None, Some f3, Some f1 => slug f1 ++ lit "/" ++ slug f3
  | Some f2, None, _ => slug f2
  | None, Some f3, None => slug f3
  | None, None, Some f1 => slug f1
  | None, None, None => lit "intro"
  end.

Definition currentTitle (current : Headings) : option jstring :=
  match h3 current, h2 current, h1 current with
  | Some f, _, _ => Some (title f)
  | None, Some f, _ => Some (title f)
  | None, None, Some f => Some (title f)
  | None, None, None => None
  end.

Definition currentParent (current : Headings) : option jstring :=
  match h3 current, h2 current, h1 current with
  | Some _, Some f2, _ => Some (title f2)
  | _, Some _, Some f1 => Some (title f1)
  | _, _, _ => None
  end.

Record SectState := {
  current : Headings;
  sectionBuf : list jstring;
  sections : list Section;
  inFence : bool
}.

Definition flush (st : SectState) : SectState :=
  let text := normalizeBlock (join [LF] (sectionBuf st)) in
  if (length (trim text) =? 0)%nat then
    {| current := current st; sectionBuf := []; sections := sections st;
       inFence := inFence st |}
  else
    {| current := current st; sectionBuf := [];
       sections := sections st ++
         [{| path := currentPath (current st); sec_text := text;
             sec_title := currentTitle (current st);
             parent := currentParent (current st) |}];
       inFence := inFence st |}.

Definition setHeading (n : nat) (ttl : jstring) (cur : Headings) : Headings :=
  let lvl := Nat.min 3 n in
  let fr := {| level := lvl; slug := slugify ttl; title := ttl |} in
  match lvl with
  | 1 => {| h1 := Some fr; h2 := None; h3 := None |}
  | 2 => {| h1 := h1 cur; h2 := Some fr; h3 := None |}
  | _ => {| h1 := h1 cur; h2 := h2 cur; h3 := Some fr |}
  end.

(** The body of the loop over the lines, lines 299 to 328. *)
Definition lineStep (st : SectState) (line : jstring) : SectState :=
  if isFence line then
    {| current := current st; sectionBuf := sectionBuf st; sections := sections st;
       inFence := negb (inFence st) |}
  else if inFence st then st
  else
    match isHeading line with
    | Some (n, ttl) =>
        let st' := flush st in
        {| current := setHeading n ttl (current st'); sectionBuf := sectionBuf st';
           sections := sections st'; inFence := inFence st' |}
    | None =>
        {| current := current st; sectionBuf := sectionBuf st ++ [line];
           sections := sections st; inFence := inFence st |}
    end.

Definition sectInit : SectState :=
  {| current := {| h1 := None; h2 := None; h3 := None |};
     sectionBuf := []; sections := []; inFence := false |}.

Definition linesOf (md : jstring) : list jstring := splitChar LF (replaceCRLF md).

Definition sectionize (md : jstring) : list Section :=
  sections (flush (fold_left lineStep (linesOf md) sectInit)).


(** *** Turning sections into chunks *)

Section Assembly.

(** [extractEntities] and [extractConcepts] enter the chunks only as the
    values of two metadata fields; they are kept as the pure functions of
    the text that they are. *)
Variable extractEntities : jstring -> list jstring.
Variable extractConcepts : jstring -> list jstring.

(** [sec.title ? `${sec.title}\n\n${sec.text}` : sec.text] *)
Definition fullTextOf (sec : Section) : jstring :=
  match sec_title sec with
  | Some ((_ :: _) as ttl) => ttl ++ paraSep ++ sec_text sec
  | _ => sec_text sec
  end.

Definition contextualTextOf (sec : Section) : jstring :=
  match sec_title sec with
  | Some ((_ :: _) as ttl) =>
      if negb (includes (sec_text sec) ttl) then ttl ++ paraSep ++ sec_text sec
      else sec_text sec
  | _ => sec_text sec
  end.

Definition mkChunk (sourceFile : jstring) (baseMeta : BaseMeta) (sec : Section)
    (txt : jstring) (ents cons : list jstring) (a : Analysis)
    (parentId : option jstring) : MeaningChunk :=
  {| id := [];
     text := txt;
     meta := {| universe := base_universe baseMeta;
                species := base_species baseMeta;
                subspecies := base_subspecies baseMeta;
                source_file := sourceFile;
                section_path := path sec;
                section_title := sec_title sec;
                parent_section := parent sec;
                entities := ents;
                aliases := [];
                concepts := cons;
                content_type := type a;
                importance_score := importance a;
                parent_chunk_id := parentId |} |}.

(** What the size splitter returned for the section: [None] when the
    section fits the budget and the splitter is not called. *)
Definition splitterOutput (opts : SplitOptions) (sec : Section) : option (list jstring) :=
  if (estimateTokens (sec_text sec) <=? maxTokens opts)%Z then None
  else Some (splitSectionBySize (contextualTextOf sec) opts).

(** The body of the loop over the sections, lines 334 to 414. *)
Definition sectionChunks (sourceFile : jstring) (baseMeta : BaseMeta)
    (opts : SplitOptions) (sec : Section) : list MeaningChunk :=
  let est := estimateTokens (sec_text sec) in
  let fullText := fullTextOf sec in
  let ents := extractEntities fullText in
  let cons := extractConcepts fullText in
  let a := analyzeContent (sec_text sec) in
  let contextualText := contextualTextOf sec in
  if (est <=? maxTokens opts)%Z then
    [mkChunk sourceFile baseMeta sec contextualText ents cons a None]
  else
    let parts := splitSectionBySize contextualText opts in
    if (length parts <=? 1)%nat then
      [mkChunk sourceFile baseMeta sec contextualText ents cons a None]
    else
      let parentId := sourceFile ++ lit ":" ++ path sec in
      List.map (fun p =>
        mkChunk sourceFile baseMeta sec p (extractEntities p) (extractConcepts p)
          (analyzeContent p) (Some parentId)) parts.

Definition chunkMarkdownByMeaning (md sourceFile : jstring) (baseMeta : BaseMeta)
    (opts : SplitOptions) : list MeaningChunk :=
  flat_map (sectionChunks sourceFile baseMeta opts) (sectionize md).

End Assembly.

End Chunker.
Import Chunker.

(** ** store.ts *)
Module Store.

Inductive Error :=
| DimMismatch (db new : Z)        (* setDim: DB dim vs new dim *)
| DimNotSet                       (* getDim: dim not set; bake first *)
| BadDim (got expected : Z)       (* upsertMany: bad dim *)
| NoRid (id : jstring)            (* upsertMany: failed to obtain rid *)
| EmbeddingFailed                 (* both embedding routes threw *)
| EmbeddingDimZero.               (* embedding returned dim=0 *)

(** A row as [upsertMany] receives it. *)
Record Row := {
  row_id : jstring;
  row_path : jstring;
  row_chunk : jstring;
  row_embedding : list Q;
  row_sha : jstring;
  row_metadata : option jstring
}.

(** A record of the table [chunks]; the column [created_at] is left out. *)
Record ChunkRecord := {
  rid : Z;
  c_path : jstring;
  c_chunk : jstring;
  c_sha : jstring;
  c_metadata : option jstring
}.

(** The store: the field [dim] of the object, the row ['dim'] of the table
    [meta], the table [chunks] under its unique key [id], and the virtual
    table [vec_chunks] under its [rowid]. *)
Record VectorStore := {
  dim : option Z;
  meta_dim : option Z;
  chunks : gmap jstring ChunkRecord;
  vec_chunks : gmap Z (list Q)
}.

Definition emptyStore : VectorStore :=
  {| dim := None; meta_dim := None; chunks := ∅; vec_chunks := ∅ |}.

(** Code that reads and writes a state and may throw. *)
Definition M (S A : Type) : Type := S -> S * (Error + A).

Definition ret {S A} (a : A) : M S A := fun s => (s, inr a).
Definition throw {S A} (e : Error) : M S A := fun s => (s, inl e).
Definition bind {S A B} (m : M S A) (k : A -> M S B) : M S B :=
  fun s => match m s with
           | (s', inr a) => k a s'
           | (s', inl e) => (s', inl e)
           end.
Definition gets {S A} (f : S -> A) : M S A := fun s => (s, inr (f s)).
Definition modify {S} (f : S -> S) : M S unit := fun s => (f s, inr tt).

Notation "x <-- m ;; k" := (bind m (fun x => k))
  (at level 100, m at next level, right associativity).
Notation "m ;;; k" := (bind m (fun _ => k))
  (at level 100, right associativity).

Fixpoint forEach {S A} (f : A -> M S unit) (l : list A) : M S unit :=
  match l with
  | [] => ret tt
  | a :: t => f a ;;; forEach f t
  end.

(** [setDim]: the first call on a fresh file records the dimension and
    creates the vector table; a later call must repeat it.  The creation
    of the table is taken to succeed: a dimension that the table module
    refuses (zero, for one) makes the source throw after it has recorded
    the dimension, and that path is not part of the model. *)
Definition setDim (d : Z) : M VectorStore unit := fun s =>
  match meta_dim s with
  | None =>
      ({| dim := Some d; meta_dim := Some d;
          chunks := chunks s; vec_chunks := vec_chunks s |}, inr tt)
  | Some v =>
      if negb (v =? d)%Z then (s, inl (DimMismatch v d))
      else ({| dim := Some d; meta_dim := meta_dim s;
               chunks := chunks s; vec_chunks := vec_chunks s |}, inr tt)
  end.

(** [getDim]: the field [dim] when it is truthy, else the recorded
    dimension, which it caches. *)
Definition getDim : M VectorStore Z := fun s =>
  match dim s with
  | Some d => if negb (d =? 0)%Z then (s, inr d) else
      match meta_dim s with
      | None => (s, inl DimNotSet)
      | Some v => ({| dim := Some v; meta_dim := meta_dim s;
                      chunks := chunks s; vec_chunks := vec_chunks s |}, inr v)
      end
  | None =>
      match meta_dim s with
      | None => (s, inl DimNotSet)
      | Some v => ({| dim := Some v; meta_dim := meta_dim s;
                      chunks := chunks s; vec_chunks := vec_chunks s |}, inr v)
      end
  end.

(** The row id that the table gives to a new record: one more than the
    largest in use. *)
Definition nextRid (t : gmap jstring ChunkRecord) : Z :=
  (map_fold (fun _ r acc => Z.max (rid r) acc) 0 t + 1)%Z.

(** [INSERT INTO chunks ... ON CONFLICT(id) DO UPDATE SET ...] *)
Definition upsertChunkMeta (r : Row) : M VectorStore unit := modify (fun s =>
  let rowid := match chunks s !! row_id r with
               | Some old => rid old
               | None => nextRid (chunks s)
               end in
  {| dim := dim s; meta_dim := meta_dim s;
     chunks := <[row_id r := {| rid := rowid; c_path := row_path r;
                                c_chunk := row_chunk r; c_sha := row_sha r;
                                c_metadata := row_metadata r |}]> (chunks s);
     vec_chunks := vec_chunks s |}).

(** [SELECT rid FROM chunks WHERE id = @id] *)
Definition selectRid (i : jstring) : M VectorStore (option Z) :=
  gets (fun s => rid <$> chunks s !! i).

Definition writeVec (r : Z) (e : list Q) (s : VectorStore) : VectorStore :=
  {| dim := dim s; meta_dim := meta_dim s; chunks := chunks s;
     vec_chunks := <[r := e]> (vec_chunks s) |}.

(** [UPDATE vec_chunks SET embedding = ... WHERE rowid = ...]: the number
    of rows changed. *)
Definition updateVec (r : Z) (e : list Q) : M VectorStore nat := fun s =>
  match vec_chunks s !! r with
  | Some _ => (writeVec r e s, inr 1%nat)
  | None => (s, inr 0%nat)
  end.

(** [INSERT INTO vec_chunks(rowid, embedding) VALUES ...] *)
Definition insertVec (r : Z) (e : list Q) : M VectorStore unit := modify (writeVec r e).

(** [db.transaction(fn)]: the tables are restored when [fn] throws. *)
Definition transaction {A} (m : M VectorStore A) : M VectorStore A := fun s =>
  match m s with
  | (s', inr a) => (s', inr a)
  | (s', inl e) =>
      ({| dim := dim s'; meta_dim := meta_dim s;
          chunks := chunks s; vec_chunks := vec_chunks s |}, inl e)
  end.

(** The body of the loop over the rows inside the transaction of
    [upsertMany]. *)
Definition upsertRow (ensureDim : Z) (r : Row) : M VectorStore unit :=
  if negb (Z.of_nat (length (row_embedding r)) =? ensureDim)%Z then
    throw (BadDim (Z.of_nat (length (row_embedding r))) ensureDim)
  else
    upsertChunkMeta r ;;;
    ridRow <-- selectRid (row_id r) ;;
    match ridRow with
    | None => throw (NoRid (row_id r))
    | Some rowid =>
        u <-- updateVec rowid (row_embedding r) ;;
        if (u =? 0)%nat then insertVec rowid (row_embedding r) else ret tt
    end.

Definition upsertMany (rows : list Row) : M VectorStore unit :=
  ensureDim <-- getDim ;;
  transaction (forEach (upsertRow ensureDim) rows).

End Store.
Import Store.

(** ** embeddings.ts and bake.ts *)
Module Bake.

(** The two routes to the embedding service: [None] is a thrown error. *)
Record Providers := {
  viaOllama : list jstring -> option (list (list Q));
  viaOpenAI : list jstring -> option (list (list Q));
  preferNative : bool
}.

(** native-first; set OLLAMA_NATIVE=0 to force OpenAI-compat *)
Definition embedBatch (pv : Providers) (texts : list jstring)
    : Error + (list (list Q) * Z) :=
  let first := if preferNative pv then viaOllama pv else viaOpenAI pv in
  let second := if preferNative pv then viaOpenAI pv else viaOllama pv in
  let attempt := match first texts with
                 | Some v => Some v
                 | None => second texts
                 end in
  match attempt with
  | None => inl EmbeddingFailed
  | Some vecs =>
      let d := match vecs with v :: _ => Z.of_nat (length v) | [] => 0%Z end in
      if (d =? 0)%Z then inl EmbeddingDimZero else inr (vecs, d)
  end.

(** The decimal numeral of an index, as a template literal prints it. *)
Definition decimal (n : nat) : jstring :=
  lit (DecimalString.NilEmpty.string_of_uint (Nat.to_uint n)).

Definition BATCH : nat := 16.

(** [for (let i = 0; i < chunks.length; i += BATCH) chunks.slice(i, i + BATCH)] *)
Fixpoint slicesFrom {A} (fuel : nat) (l : list A) : list (list A) :=
  match fuel with
  | O => []
  | S f =>
      match l with
      | [] => []
      | _ => firstn BATCH l :: slicesFrom f (skipn BATCH l)
      end
  end.

Definition slices {A} (l : list A) : list (list A) := slicesFrom (length l) l.

Record BakeState := {
  store : VectorStore;
  total : nat;
  dimSet : bool;
  calls : nat;            (* ghost: the number of embedding calls made so far *)
  upserted : list Row     (* ghost: the rows of the batches written so far *)
}.

Definition liftStore {A} (m : M VectorStore A) : M BakeState A := fun b =>
  match m (store b) with
  | (s', r) => ({| store := s'; total := total b; dimSet := dimSet b;
                   calls := calls b; upserted := upserted b |}, r)
  end.

Definition countCall (b : BakeState) : BakeState :=
  {| store := store b; total := total b; dimSet := dimSet b;
     calls := S (calls b); upserted := upserted b |}.

Definition markDimSet (b : BakeState) : BakeState :=
  {| store := store b; total := total b; dimSet := true;
     calls := calls b; upserted := upserted b |}.

Definition countRows (rows : list Row) (b : BakeState) : BakeState :=
  {| store := store b; total := (total b + length rows)%nat; dimSet := dimSet b;
     calls := calls b; upserted := upserted b ++ rows |}.

Section Bake.

Variable sha1 : jstring -> jstring.
Variable JSON_stringify : ChunkMeta -> jstring.
Variable extractEntities : jstring -> list jstring.
Variable extractConcepts : jstring -> list jstring.

(** The behaviour of the embedding routes at each call of a run, by the
    number of calls made before it. *)
Variable service : nat -> Providers.

Variable baseMeta : BaseMeta.

(** The callback of [slice.map], lines 52 to 67; [j] is the index that
    [map] passes, the position in the slice. *)
Definition mkRow (rel : jstring) (vectors : list (list Q)) (j : nat)
    (s : MeaningChunk) : Row :=
  let parent := parent_chunk_id (meta s) in
  let subKey := match parent with
                | Some (_ :: _) => lit ":" ++ decimal j
                | _ => []
                end in
  {| row_id := sha1 (source_file (meta s) ++ lit ":" ++ section_path (meta s) ++ subKey);
     row_path := rel;
     row_chunk := text s;
     row_embedding := nth j vectors [];
     row_sha := sha1 (rel ++ lit ":" ++ text s);
     row_metadata := Some (JSON_stringify (meta s)) |}.

Definition bakeOptions : SplitOptions := {| maxTokens := 400; overlapRatio := 0.15%Q |}.

Definition chunksOf (rel raw : jstring) : list MeaningChunk :=
  chunkMarkdownByMeaning extractEntities extractConcepts raw rel baseMeta bakeOptions.

(** The body of the loop over the batches, lines 42 to 72. *)
Definition bakeBatch (rel : jstring) (slice : list MeaningChunk) : M BakeState unit :=
  n <-- gets calls ;;
  modify countCall ;;;
  match embedBatch (service n) (List.map text slice) with
  | inl e => throw e
  | inr (vectors, d) =>
      ds <-- gets dimSet ;;
      (if negb ds then liftStore (setDim d) ;;; modify markDimSet else ret tt) ;;;
      let rows := imap (mkRow rel vectors) slice in
      liftStore (upsertMany rows) ;;;
      modify (countRows rows)
  end.

(** The body of the loop over the files; a document is its relative path
    and its text. *)
Definition bakeFile (doc : jstring * jstring) : M BakeState unit :=
  let chunks := chunksOf (fst doc) (snd doc) in
  match chunks with
  | [] => ret tt
  | _ => forEach (bakeBatch (fst doc)) (slices chunks)
  end.

(** [new VectorStore(opts.db)]: the tables are those of the file, the
    field [dim] of the new object is null. *)
Definition openStore (db : VectorStore) : VectorStore :=
  {| dim := None; meta_dim := meta_dim db; chunks := chunks db;
     vec_chunks := vec_chunks db |}.

Definition bake (docs : list (jstring * jstring)) (db : VectorStore)
    : BakeState * (Error + unit) :=
  forEach bakeFile docs
    {| store := openStore db; total := 0; dimSet := false; calls := 0;
       upserted := [] |}.

End Bake.
End Bake.
Import Bake.

(** ** search.ts *)
Module Search.

Record SearchHit := {
  hit_id : jstring;
  hit_path : jstring;
  hit_chunk : jstring;
  distance : Q;
  score : Q;
  hit_metadata : option jstring
}.

(** The value of [JSON.parse(hit.metadata)], read through the fields that
    the code looks at, each of the type that [bake] writes; an absent field
    is [None]. *)
Record Metadata := {
  m_universe : option jstring;
  m_species : option jstring;
  m_subspecies : option jstring;
  m_source_file : option jstring;
  m_section_path : option jstring;
  m_section_title : option jstring;
  m_entities : option (list jstring);
  m_concepts : option (list jstring);
  m_content_type : option jstring;
  m_importance_score : option Q
}.

Definition emptyMetadata : Metadata :=
  {| m_universe := None; m_species := None; m_subspecies := None;
     m_source_file := None; m_section_path := None; m_section_title := None;
     m_entities := None; m_concepts := None; m_content_type := None;
     m_importance_score := None |}.

Record Filters := {
  f_universe : option jstring;
  f_species : option jstring;
  f_subspecies : option jstring;
  f_content_type : option jstring;
  f_min_importance : option Q
}.

Record RankedHit := { hit : SearchHit; relevance_score : Q }.

(** [x || d] for a number. *)
Definition numberOr (d : Q) (o : option Q) : Q :=
  match o with
  | Some x => if Qeq_bool x 0 then d else x
  | None => d
  end.

(** [s.split(/\s+/)] *)
Fixpoint splitWsFrom (cur : jstring) (inWs : bool) (s : jstring) : list jstring :=
  match s with
  | [] => [reverse cur]
  | c :: t =>
      if isWs c then
        if inWs then splitWsFrom cur true t else reverse cur :: splitWsFrom [] true t
      else splitWsFrom (c :: cur) false t
  end.

Definition splitWs (s : jstring) : list jstring := splitWsFrom [] false s.

(** [o?.toLowerCase() === t] and [o?.toLowerCase().includes(t)] *)
Definition lowerEquals (o : option jstring) (t : jstring) : bool :=
  match o with Some s => jeqb (toLowerCase s) t | None => false end.

Definition lowerIncludes (o : option jstring) (t : jstring) : bool :=
  match o with Some s => includes (toLowerCase s) t | None => false end.

Definition clampScore (x : Q) : Q := Qmax 0.001 (Qmin 2.0 x).

Section Search.

(** [JSON.parse]: [None] when it throws, or when it yields [null], on
    which the first property access throws. *)
Variable JSON_parse : jstring -> option Metadata.

(** [hit.metadata ? JSON.parse(hit.metadata) : {}] *)
Definition parseMetadata (h : SearchHit) : option Metadata :=
  match hit_metadata h with
  | Some ((_ :: _) as m) => JSON_parse m
  | _ => Some emptyMetadata
  end.

(** The body of the loop over the query terms, lines 27 to 43. *)
Definition termBoost (md : Metadata) (ents cons : list jstring) (acc : Q)
    (term : jstring) : Q :=
  let acc := if existsb (fun e => jeqb e term) ents then (acc + 0.4)%Q
             else if existsb (fun e => includes e term) ents then (acc + 0.2)%Q
             else acc in
  let acc := if existsb (fun c => jeqb c term) cons then (acc + 0.35)%Q
             else if existsb (fun c => includes c term) cons then (acc + 0.15)%Q
             else acc in
  let acc := if lowerEquals (m_section_title md) term then (acc + 0.5)%Q
             else if lowerIncludes (m_section_title md) term then (acc + 0.3)%Q
             else acc in
  let acc := if lowerIncludes (m_section_path md) term then (acc + 0.25)%Q else acc in
  let acc := if lowerIncludes (m_source_file md) term then (acc + 0.2)%Q else acc in
  acc.

Definition contentTypeBoostOf (ct : option jstring) : Q :=
  match ct with
  | Some s =>
      if jeqb s (lit "quote") then 0.1%Q
      else if jeqb s (lit "list") then 0.05%Q
      else if jeqb s (lit "mixed") then 0.03%Q
      else 0%Q
  | None => 0%Q
  end.

(** The body of the [try] block, lines 17 to 77. *)
Definition boostedScore (h : SearchHit) (query : jstring) (md : Metadata) : Q :=
  let queryTerms :=
    filter (fun t => (2 <? length t)%nat = true) (splitWs (toLowerCase query)) in
  let ents := List.map toLowerCase (default [] (m_entities md)) in
  let cons := List.map toLowerCase (default [] (m_concepts md)) in
  let termMatchBoost := fold_left (termBoost md ents cons) queryTerms 0%Q in
  let queryPhrase := toLowerCase query in
  let termMatchBoost :=
    if lowerIncludes (m_section_title md) queryPhrase
    then (termMatchBoost + 0.4)%Q else termMatchBoost in
  let termMatchBoost :=
    if existsb (fun e => includes e queryPhrase) ents
    then (termMatchBoost + 0.3)%Q else termMatchBoost in
  let termMatchBoost :=
    if existsb (fun c => includes c queryPhrase) cons
    then (termMatchBoost + 0.25)%Q else termMatchBoost in
  let importanceBoost := (numberOr 0.5 (m_importance_score md) * 0.1)%Q in
  let contentTypeBoost := contentTypeBoostOf (m_content_type md) in
  let lowerText := toLowerCase (hit_chunk h) in
  let textMatchBoost :=
    fold_left (fun acc term => if includes lowerText term then (acc + 0.1)%Q else acc)
      queryTerms 0%Q in
  let textMatchBoost :=
    if includes lowerText queryPhrase then (textMatchBoost + 0.15)%Q else textMatchBoost in
  let lengthPenalty :=
    if (length (hit_chunk h) <? 100)%nat
       && Qltb (numberOr 0.5 (m_importance_score md)) 0.7
    then (-0.1)%Q else 0%Q in
  (score h + termMatchBoost + importanceBoost + contentTypeBoost
   + textMatchBoost + lengthPenalty)%Q.

(** Enhanced relevance scoring that combines vector similarity with content analysis *)
Definition calculateRelevanceScore (h : SearchHit) (query : jstring) : Q :=
  let s := match parseMetadata h with
           | Some md => boostedScore h query md
           | None => score h
           end in
  clampScore s.

(** [filters.f && metadata.f !== filters.f] for a string filter: an empty
    string is falsy, so that filter is not active. *)
Definition stringFilterFails (f m : option jstring) : bool :=
  match f with
  | Some ((_ :: _) as v) => negb (bool_decide (m = Some v))
  | _ => false
  end.

(** [filters.min_importance && (metadata.importance_score || 0) < filters.min_importance] *)
Definition importanceFilterFails (f : option Q) (m : option Q) : bool :=
  match f with
  | Some v => negb (Qeq_bool v 0) && Qltb (numberOr 0 m) v
  | None => false
  end.

(** The callback of [hits.filter], lines 92 to 109. *)
Definition passesFilters (filters : Filters) (h : SearchHit) : bool :=
  match parseMetadata h with
  | None => true
  | Some md =>
      if stringFilterFails (f_universe filters) (m_universe md) then false
      else if stringFilterFails (f_species filters) (m_species md) then false
      else if stringFilterFails (f_subspecies filters) (m_subspecies md) then false
      else if stringFilterFails (f_content_type filters) (m_content_type md) then false
      else if importanceFilterFails (f_min_importance filters) (m_importance_score md)
      then false
      else true
  end.

(** [Object.keys(filters).length === 0] *)
Definition noKeys (filters : Filters) : bool :=
  match f_universe filters, f_species filters, f_subspecies filters,
        f_content_type filters, f_min_importance filters with
  | None, None, None, None, None => true
  | _, _, _, _, _ => false
  end.

(** Filter results based on metadata criteria *)
Definition applyFilters (hits : list SearchHit) (filters : Filters) : list SearchHit :=
  if noKeys filters then hits
  else filter (fun h => passesFilters filters h = true) hits.

(** [hits.sort((a, b) => b.relevance_score - a.relevance_score)]: the
    stable sort by decreasing score. *)
Fixpoint insertHit (x : RankedHit) (l : list RankedHit) : list RankedHit :=
  match l with
  | [] => [x]
  | y :: t =>
      if Qltb (relevance_score x) (relevance_score y) then y :: insertHit x t
      else x :: l
  end.

Fixpoint sortHits (l : list RankedHit) : list RankedHit :=
  match l with
  | [] => []
  | x :: t => insertHit x (sortHits t)
  end.

(** Lines 133 to 143 of [search]: from the hits of the nearest-neighbour
    query to the hits that are returned, before they are formatted. *)
Definition rankHits (raw : list SearchHit) (q : jstring) (k : nat)
    (filters : option Filters) : list RankedHit :=
  let hits := match filters with
              | Some f => applyFilters raw f
              | None => raw
              end in
  let hits := List.map (fun h =>
                {| hit := h; relevance_score := calculateRelevanceScore h q |}) hits in
  let hits := sortHits hits in
  firstn k hits.

(** [store.searchKnn], the query of the vector index.  The validation of
    the options, the embedding of the query ([qvec] is its result) and the
    formatting of the output are left out of [search]. *)
Variable searchKnn : list Q -> nat -> list SearchHit.

Definition search (q : jstring) (qvec : list Q) (k : nat) (filters : option Filters)
    : list RankedHit :=
  let searchK := Nat.max (k * 2) 20 in
  rankHits (searchKnn qvec searchK) q k filters.

End Search.
End Search.
Import Search.

(** ** Notions of the design document *)
Module Spec.

(** The lines that lie strictly inside a fenced block, and the lines that
    lie outside every fenced block, the fence markers belonging to neither;
    [inside] tells whether a fence is open before the first line. *)
Fixpoint fencedLines (inside : bool) (lines : list jstring) : list jstring :=
  match lines with
  | [] => []
  | l :: t =>
      if isFence l then fencedLines (negb inside) t
      else if inside then l :: fencedLines inside t
      else fencedLines inside t
  end.

Fixpoint unfencedLines (inside : bool) (lines : list jstring) : list jstring :=
  match lines with
  | [] => []
  | l :: t =>
      if isFence l then unfencedLines (negb inside) t
      else if inside then unfencedLines inside t
      else l :: unfencedLines inside t
  end.

(** A line or a text is blank when it holds white space only. *)
Definition blank (s : jstring) : bool := forallb isWs s.

(** Fence content is retained: every line inside a fence occurs in the
    text of some emitted section. *)
Definition fenceContentRetained (md : jstring) : Prop :=
  forall line, In line (fencedLines false (linesOf md)) ->
    exists s, In s (sectionize md) /\ includes (sec_text s) line = true.

(** A document without heading lines, and a document that yields exactly
    one section, of path [intro]. *)
Definition headingless (md : jstring) : Prop :=
  Forall (fun l => isHeading l = None) (linesOf md).

Definition oneIntroSection (md : jstring) : Prop :=
  exists s, sectionize md = [s] /\ path s = lit "intro".

(** Clamping to an interval, as [Math.max lo (Math.min hi x)]. *)
Definition clamp (lo hi x : Q) : Q := Qmax lo (Qmin hi x).

(** A string filter is active when it is set to a non-empty string, the
    importance filter when it is set to a non-zero number. *)
Definition meetsString (f m : option jstring) : Prop :=
  forall v, f = Some v -> v <> [] -> m = Some v.

Definition meetsImportance (f m : option Q) : Prop :=
  forall v, f = Some v -> ~ (v == 0)%Q -> (v <= numberOr 0 m)%Q.

Definition meetsFilters (f : Filters) (md : Metadata) : Prop :=
  meetsString (f_universe f) (m_universe md)
  /\ meetsString (f_species f) (m_species md)
  /\ meetsString (f_subspecies f) (m_subspecies md)
  /\ meetsString (f_content_type f) (m_content_type md)
  /\ meetsImportance (f_min_importance f) (m_importance_score md).

Definition descending (l : list RankedHit) : Prop :=
  StronglySorted (fun a b => (relevance_score b <= relevance_score a)%Q) l.

(** Every chunk record has a vector under its row id, and every vector
    belongs to a chunk record. *)
Definition paired (s : VectorStore) : Prop :=
  (forall i c, chunks s !! i = Some c -> is_Some (vec_chunks s !! rid c))
  /\ (forall k, is_Some (vec_chunks s !! k) ->
        exists i c, chunks s !! i = Some c /\ rid c = k).

(** The sections of a document given by its lines, and the part of the
    sectionizer state that the emitted sections depend on. *)
Definition sectionsOfLines (lines : list jstring) : list Section :=
  sections (flush (fold_left lineStep lines sectInit)).

Definition core (st : SectState) : Headings * list jstring * list Section :=
  (current st, sectionBuf st, sections st).

(** Some line outside every fenced block is not blank. *)
Definition inkOutsideFences (md : jstring) : Prop :=
  Exists (fun l => blank l = false) (unfencedLines false (linesOf md)).

(** What a row says about its chunk, the embedding left aside. *)
Definition RowKey : Type := jstring * jstring * jstring * jstring * option jstring.

Definition rowKey (r : Row) : RowKey :=
  (row_id r, row_path r, row_chunk r, row_sha r, row_metadata r).

Definition keyId (k : RowKey) : jstring :=
  match k with (i, _, _, _, _) => i end.

(** The columns of a chunk record other than its row id. *)
Definition recordData (c : ChunkRecord) : jstring * jstring * jstring * option jstring :=
  (c_path c, c_chunk c, c_sha c, c_metadata c).

(** The effect of one upsert statement on the table [chunks]. *)
Definition upsertChunk (k : RowKey) (t : gmap jstring ChunkRecord)
    : gmap jstring ChunkRecord :=
  match k with
  | (i, p, c, sh, m) =>
      <[i := {| rid := match t !! i with
                       | Some old => rid old
                       | None => nextRid t
                       end;
                c_path := p; c_chunk := c; c_sha := sh; c_metadata := m |}]> t
  end.

Definition replayChunks (keys : list RowKey) (t : gmap jstring ChunkRecord)
    : gmap jstring ChunkRecord :=
  fold_left (fun t k => upsertChunk k t) keys t.

(** The effect on the store of one row of a batch whose embedding has the
    right length. *)
Definition upsertOne (r : Row) (s : VectorStore) : VectorStore :=
  let t := upsertChunk (rowKey r) (chunks s) in
  {| dim := dim s; meta_dim := meta_dim s; chunks := t;
     vec_chunks := match t !! row_id r with
                   | Some c => <[rid c := row_embedding r]> (vec_chunks s)
                   | None => vec_chunks s
                   end |}.

Definition upsertAll (rows : list Row) (s : VectorStore) : VectorStore :=
  fold_left (fun s r => upsertOne r s) rows s.

Definition dimOk (d : Z) (r : Row) : Prop := Z.of_nat (length (row_embedding r)) = d.

(** The columns that an upsert writes, and the replay of a list of
    upserts on the columns alone: the last writer wins. *)
Definition keyData (k : RowKey) : jstring * jstring * jstring * option jstring :=
  match k with (_, p, c, sh, m) => (p, c, sh, m) end.

Definition insertData (ks : list RowKey)
    (m : gmap jstring (jstring * jstring * jstring * option jstring)) :=
  fold_left (fun m k => <[keyId k := keyData k]> m) ks m.

Fixpoint lastData (ks : list RowKey) (i : jstring)
    (acc : option (jstring * jstring * jstring * option jstring)) :=
  match ks with
  | [] => acc
  | k :: t => lastData t i (if decide (keyId k = i) then Some (keyData k) else acc)
  end.

(** A chunk record that has its vector. *)
Definition linked (s : VectorStore) (i : jstring) : Prop :=
  exists c, chunks s !! i = Some c /\ is_Some (vec_chunks s !! rid c).

(** A part [f] of a run, on an argument [a], writes rows whose keys are
    [expected a] when it completes, and a first part of them when it
    throws; the table of chunks is the replay of the rows written. *)
Definition RunsAs {A} (f : A -> M BakeState unit) (expected : A -> list RowKey) : Prop :=
  forall a b b' res, f a b = (b', res) ->
    exists rows,
      upserted b' = upserted b ++ rows
      /\ chunks (store b') = replayChunks (List.map rowKey rows) (chunks (store b))
      /\ match res with
         | inr _ => List.map rowKey rows = expected a
         | inl _ => exists rest, expected a = List.map rowKey rows ++ rest
         end.


Section BakeKeys.

Variable sha1 : jstring -> jstring.
Variable JSON_stringify : ChunkMeta -> jstring.
Variable extractEntities : jstring -> list jstring.
Variable extractConcepts : jstring -> list jstring.
Variable baseMeta : BaseMeta.

(** The keys of the rows that a run computes for one batch, one file, a
    list of files; the embeddings play no part in them. *)
Definition batchKeys (rel : jstring) (slice : list MeaningChunk) : list RowKey :=
  imap (fun j s => rowKey (mkRow sha1 JSON_stringify rel [] j s)) slice.

Definition fileKeys (doc : jstring * jstring) : list RowKey :=
  flat_map (batchKeys (fst doc))
    (slices (chunksOf extractEntities extractConcepts baseMeta (fst doc) (snd doc))).

Definition bakeKeys (docs : list (jstring * jstring)) : list RowKey :=
  flat_map fileKeys docs.

End BakeKeys.

End Spec.
Import Spec.

(** ** Documents used as examples *)
Module Examples.

Definition fenceOnlyDoc : jstring :=
  lit "```" ++ [LF] ++ lit "notes" ++ [LF] ++ lit "```".

Definition fencedDoc : jstring :=
  lit "before" ++ [LF] ++ lit "```" ++ [LF] ++ lit "let x = 1" ++ [LF]
  ++ lit "```" ++ [LF] ++ lit "after".

(** Two paragraphs of a thousand characters each: 501 estimated tokens. *)
Definition twoParagraphs : jstring :=
  repeat "a"%char 1000 ++ [LF; LF] ++ repeat "b"%char 1000.

Definition noBaseMeta : BaseMeta :=
  {| base_universe := None; base_species := None; base_subspecies := None |}.

Definition longSection : Section :=
  {| path := lit "major-rites"; sec_text := twoParagraphs;
     sec_title := None; parent := None |}.

(** A parser that knows the empty object only, and two hits: one whose
    metadata is the empty object, one whose metadata does not parse. *)
Definition sampleParse (s : jstring) : option Metadata :=
  if jeqb s (lit "{}") then Some emptyMetadata else None.

Definition bareHit : SearchHit :=
  {| hit_id := lit "bare"; hit_path := lit "a.md"; hit_chunk := lit "Sync Days";
     distance := 1; score := 0.5%Q; hit_metadata := Some (lit "{}") |}.

Definition brokenHit : SearchHit :=
  {| hit_id := lit "broken"; hit_path := lit "b.md"; hit_chunk := lit "Major Rites";
     distance := 3; score := 0.25%Q; hit_metadata := Some (lit "{oops") |}.

Definition importanceFilter : Filters :=
  {| f_universe := None; f_species := None; f_subspecies := None;
     f_content_type := None; f_min_importance := Some 0.5%Q |}.

(** A store whose dimension is two, and a batch of two rows. *)
Definition readyStore : VectorStore :=
  {| dim := Some 2%Z; meta_dim := Some 2%Z; chunks := ∅; vec_chunks := ∅ |}.

Definition sampleRows : list Row :=
  [{| row_id := lit "id-a"; row_path := lit "a.md"; row_chunk := lit "first";
      row_embedding := [1%Q; 0%Q]; row_sha := lit "sha-a"; row_metadata := None |};
   {| row_id := lit "id-b"; row_path := lit "a.md"; row_chunk := lit "second";
      row_embedding := [0%Q; 1%Q]; row_sha := lit "sha-b"; row_metadata := None |}].

(** A file with a short introduction and, under a heading, a section of
    two long paragraphs, which the splitter cuts into two blocks. *)
Definition twoSectionDoc : jstring :=
  lit "hi" ++ [LF] ++ lit "# H" ++ [LF] ++ twoParagraphs.

(** A file whose only section has seventeen long paragraphs. *)
Fixpoint paragraphs (n : nat) : jstring :=
  match n with
  | O => []
  | S O => repeat "a"%char 1000
  | S m => repeat "a"%char 1000 ++ [LF; LF] ++ paragraphs m
  end.

Definition seventeenParagraphs : jstring := paragraphs 17.

(** An embedding service that answers every text with the same pair. *)
Definition constantService (n : nat) : Providers :=
  {| viaOllama := fun texts => Some (List.map (fun _ => [1%Q; 2%Q]) texts);
     viaOpenAI := fun _ => None;
     preferNative := true |}.

Definition plainHash (s : jstring) : jstring := s.
Definition plainJSON (m : ChunkMeta) : jstring := section_path m.
Definition noTerms (s : jstring) : list jstring := [].

Definition smallCorpus : list (jstring * jstring) :=
  [(lit "rites.md", lit "# Major Rites" ++ [LF] ++ lit "Sync Days are kept.")].

End Examples.
Import Examples.

(** ** The store as its callers use it *)
Module StoreUse.

(** No two chunk records share a row id: [rid] is the primary key of the
    table. *)
Definition ridsUnique (t : gmap jstring ChunkRecord) : Prop :=
  forall i j a b, t !! i = Some a -> t !! j = Some b -> rid a = rid b -> i = j.

(** A store is sound when its two tables are paired and the row ids are
    unique. *)
Definition sound (s : VectorStore) : Prop := paired s /\ ridsUnique (chunks s).

(** The store has the dimension [d]: the dimension is recorded, the vector
    table was created with it, and the field [dim], when it is set, holds
    it.  It is the state of a store on which [setDim d] has returned, also
    after the file was closed and opened again. *)
Definition established (d : Z) (s : VectorStore) : Prop :=
  meta_dim s = Some d /\ (dim s = None \/ dim s = Some d).

(** The calls that a client makes on a store: the three methods that
    write, and closing the file and opening it again. *)
Inductive Call :=
| CallSetDim (d : Z)
| CallGetDim
| CallUpsertMany (rows : list Row)
| CallReopen.

(** The store after a call, whether the call returned or threw. *)
Definition perform (c : Call) (s : VectorStore) : VectorStore :=
  match c with
  | CallSetDim d => fst (setDim d s)
  | CallGetDim => fst (getDim s)
  | CallUpsertMany rows => fst (upsertMany rows s)
  | CallReopen => openStore s
  end.

Definition performAll (cs : list Call) (s : VectorStore) : VectorStore :=
  fold_left (fun s c => perform c s) cs s.

(** The row [r] is the last row of the batch that carries its id. *)
Definition lastOfId (rows : list Row) (r : Row) : Prop :=
  exists pre post, rows = pre ++ r :: post
    /\ Forall (fun r' => row_id r' <> row_id r) post.

(** The record that a row leaves in the table [chunks], under the row id
    [k]. *)
Definition recordOf (k : Z) (r : Row) : ChunkRecord :=
  {| rid := k; c_path := row_path r; c_chunk := row_chunk r; c_sha := row_sha r;
     c_metadata := row_metadata r |}.

(** A batch that writes the id [id-a] twice, and a client session. *)
Definition finalRow : Row :=
  {| row_id := lit "id-a"; row_path := lit "a.md"; row_chunk := lit "final";
     row_embedding := [5%Q; 6%Q]; row_sha := lit "sha-f"; row_metadata := None |}.

Definition overwriteRows : list Row :=
  [{| row_id := lit "id-a"; row_path := lit "a.md"; row_chunk := lit "draft";
      row_embedding := [3%Q; 4%Q]; row_sha := lit "sha-d"; row_metadata := None |};
   {| row_id := lit "id-b"; row_path := lit "a.md"; row_chunk := lit "second";
      row_embedding := [0%Q; 1%Q]; row_sha := lit "sha-b"; row_metadata := None |};
   finalRow].

(** The store [readyStore] after the batch [sampleRows]. *)
Definition twoRowStore : VectorStore := fst (upsertMany sampleRows readyStore).

Definition sampleCalls : list Call :=
  [CallUpsertMany sampleRows; CallReopen; CallSetDim 3; CallGetDim;
   CallUpsertMany overwriteRows].

End StoreUse.
Import StoreUse.

(** ** The shapes of the texts that the chunker produces *)
Module ChunkerUse.

(** The text has a character, and its last character is not white space. *)
Fixpoint endsInk (s : jstring) : bool :=
  match s with
  | [] => false
  | [c] => negb (isWs c)
  | _ :: t => endsInk t
  end.

(** The text is empty or its first character is not white space. *)
Definition startsInk (s : jstring) : bool :=
  match s with
  | [] => true
  | c :: _ => negb (isWs c)
  end.

Definition tripleLF : jstring := [LF; LF; LF].

(** The characters of a slug: a letter or a digit that [toLowerCase] leaves
    alone, a slash, a colon or a hyphen. *)
Definition isSlugOut (c : ascii) : bool :=
  (isAlnum c && Ascii.eqb (lowerChar c) c) || isC "/" c || isC ":" c || isC "-" c.

(** The text holds two hyphens in a row. *)
Fixpoint hasDoubleHyphen (s : jstring) : bool :=
  match s with
  | a :: ((b :: _) as t) => (isHyphen a && isHyphen b) || hasDoubleHyphen t
  | _ => false
  end.

(** The text begins with a letter or a digit. *)
Definition startsAlnum (s : jstring) : bool :=
  match s with
  | c :: _ => isAlnum c
  | [] => false
  end.

(** The shape of a slug: it begins with a letter or a digit, it is made of
    slug characters, it holds no two hyphens in a row, and it does not end
    with a hyphen or a slash. *)
Definition slugShaped (s : jstring) : Prop :=
  startsAlnum s = true
  /\ Forall (fun c => isSlugOut c = true) s
  /\ hasDoubleHyphen s = false
  /\ dropWhileEnd isHyphenOrSlash s = s.

(** *** Sections *)

(** [t] is the title of a heading line among [lines]. *)
Definition headingTitle (lines : list jstring) (t : jstring) : Prop :=
  exists line n, In line lines /\ isHeading line = Some (n, t).

(** The path [p] is the slug of [t], or ends with a slash and that slug. *)
Definition leafOf (p t : jstring) : Prop :=
  p = slugify t \/ exists pre, p = pre ++ lit "/" ++ slugify t.

(** What holds of every section that the sectionizer emits from [lines]. *)
Definition sectionShaped (lines : list jstring) (sec : Section) : Prop :=
  blank (sec_text sec) = false
  /\ normalizeBlock (sec_text sec) = sec_text sec
  /\ path sec <> []
  /\ match sec_title sec with
     | None => path sec = lit "intro" /\ parent sec = None
     | Some t => headingTitle lines t /\ leafOf (path sec) t
     end
  /\ (forall p, parent sec = Some p -> headingTitle lines p).

(** A frame of the heading stack that comes from a heading line. *)
Definition frameOf (lines : list jstring) (o : option Frame) : Prop :=
  match o with
  | Some f => slug f = slugify (title f) /\ headingTitle lines (title f)
  | None => True
  end.

Definition headingsOf (lines : list jstring) (cur : Headings) : Prop :=
  frameOf lines (h1 cur) /\ frameOf lines (h2 cur) /\ frameOf lines (h3 cur).

(** The number of heading lines. *)
Fixpoint countHeadings (lines : list jstring) : nat :=
  match lines with
  | [] => 0
  | l :: t =>
      match isHeading l with
      | Some _ => S (countHeadings t)
      | None => countHeadings t
      end
  end.

(** *** Blocks *)

(** A block of the size splitter as it is put together: the overlap
    fragment that seeds it, if any, and the paragraphs that follow. *)
Record Group := { g_seed : option jstring; g_paras : list jstring }.

(** The buffer that holds the group, and the block committed from it. *)
Definition groupBuf (g : Group) : list jstring :=
  match g_seed g with
  | Some f => f :: g_paras g
  | None => g_paras g
  end.

Definition render (g : Group) : jstring := normalizeBlock (join paraSep (groupBuf g)).

(** The sum of the token estimates of the entries of a buffer. *)
Definition sumTokens (b : list jstring) : Z :=
  fold_right (fun p acc => (estimateTokens p + acc)%Z) 0%Z b.

(** A group has a paragraph, and it has several only while the estimates
    of its buffer stay within the budget. *)
Definition withinBudget (opts : SplitOptions) (g : Group) : Prop :=
  g_paras g <> []
  /\ ((sumTokens (groupBuf g) <= maxTokens opts)%Z \/ length (g_paras g) = 1%nat).

(** The group [g'] comes after the group [g]: it is seeded with the
    overlap fragment of the block of [g], and its first paragraph did not
    fit the budget of [g]. *)
Definition follows (opts : SplitOptions) (g g' : Group) : Prop :=
  g_seed g' = overlapFragment (overlapRatio opts) (render g)
  /\ exists p rest, g_paras g' = p :: rest
       /\ (maxTokens opts < sumTokens (groupBuf g) + estimateTokens p)%Z.

Definition link (opts : SplitOptions) (prev : option Group) (g : Group) : Prop :=
  match prev with
  | None => g_seed g = None
  | Some g0 => follows opts g0 g
  end.

Fixpoint chained (opts : SplitOptions) (prev : option Group) (gs : list Group) : Prop :=
  match gs with
  | [] => True
  | g :: t => link opts prev g /\ chained opts (Some g) t
  end.

Definition lastGroup (prev : option Group) (gs : list Group) : option Group :=
  fold_left (fun _ g => Some g) gs prev.

(** The groups account for the blocks cut from the paragraphs. *)
Definition explains (opts : SplitOptions) (paras : list jstring) (groups : list Group)
    (blocks : list jstring) : Prop :=
  concat (List.map g_paras groups) = paras
  /\ List.map render groups = blocks
  /\ Forall (withinBudget opts) groups
  /\ chained opts None groups.

End ChunkerUse.
Import ChunkerUse.

(** ** embeddings.ts, the single text; the runs of bake.ts *)
Module BakeUse.

(** [embedOne]: the first vector of a batch of one text. *)
Definition embedOne (pv : Providers) (text : jstring) : Error + list Q :=
  match embedBatch pv [text] with
  | inl e => inl e
  | inr (vectors, _) => inr (nth 0 vectors [])
  end.

(** The route that [embedBatch] tries first, and the one it falls back
    on. *)
Definition firstRoute (pv : Providers) : list jstring -> option (list (list Q)) :=
  if preferNative pv then viaOllama pv else viaOpenAI pv.

Definition secondRoute (pv : Providers) : list jstring -> option (list (list Q)) :=
  if preferNative pv then viaOpenAI pv else viaOllama pv.

(** What the routes answer: the first route, or the second when the first
    threw; [None] when both threw. *)
Definition routeAnswer (pv : Providers) (texts : list jstring)
    : option (list (list Q)) :=
  match firstRoute pv texts with
  | Some vecs => Some vecs
  | None => secondRoute pv texts
  end.

(** The rows of a batch are written: the part of [bakeBatch] after the
    dimension is settled. *)
Definition writeRows (rows : list Row) (b : BakeState) : BakeState * (Error + unit) :=
  match upsertMany rows (store b) with
  | (s', inl e) =>
      ({| store := s'; total := total b; dimSet := dimSet b; calls := calls b;
          upserted := upserted b |}, inl e)
  | (s', inr _) =>
      ({| store := s'; total := (total b + length rows)%nat; dimSet := dimSet b;
          calls := calls b; upserted := upserted b ++ rows |}, inr tt)
  end.

Definition withStore (s : VectorStore) (b : BakeState) : BakeState :=
  {| store := s; total := total b; dimSet := dimSet b; calls := calls b;
     upserted := upserted b |}.

(** The state of a run differs from an earlier one by calls on the store. *)
Definition storeCalled (b b' : BakeState) : Prop :=
  exists cs, store b' = performAll cs (store b).

(** The number of batches of a list of chunks. *)
Definition batchCount {A} (l : list A) : nat := length (slices l).

(** An embedding service whose vectors have three components. *)
Definition wideService (n : nat) : Providers :=
  {| viaOllama := fun texts => Some (List.map (fun _ => [1%Q; 2%Q; 3%Q]) texts);
     viaOpenAI := fun _ => None;
     preferNative := true |}.

(** A service whose native route is down and whose other route answers. *)
Definition fallbackService : Providers :=
  {| viaOllama := fun _ => None;
     viaOpenAI := fun texts => Some (List.map (fun _ => [1%Q; 2%Q]) texts);
     preferNative := true |}.

(** A corpus of one file, whose only section is cut into seventeen
    blocks. *)
Definition bigCorpus : list (jstring * jstring) :=
  [(lit "big.md", seventeenParagraphs)].

End BakeUse.
Import BakeUse.

(** ** The candidates of a search *)
Module SearchUse.

(** The hits of the nearest-neighbour query that pass the filters, each
    with its relevance score, in the order of the query: what [rankHits]
    sorts and cuts. *)
Definition candidates (JSON_parse : jstring -> option Metadata) (raw : list SearchHit)
    (q : jstring) (filters : option Filters) : list RankedHit :=
  List.map (fun h => {| hit := h; relevance_score := calculateRelevanceScore JSON_parse h q |})
    (match filters with
     | Some f => applyFilters JSON_parse raw f
     | None => raw
     end).

(** The hit has the relevance score [v]. *)
Definition tied (v : Q) (r : RankedHit) : bool := Qeq_bool (relevance_score r) v.

End SearchUse.
Import SearchUse.

(** ** cli.ts *)
Module Cli.

(** A value of the record [kv]: a string, or the boolean [true], the only
    boolean that [parseArgs] stores. *)
Inductive KVal := VStr (s : jstring) | VTrue.

(** [kv[key] = v] on the plain object [kv]: an assignment of a string or a
    boolean to the key [__proto__] creates no property. *)
Definition setKey (key : jstring) (v : KVal) (kv : gmap jstring KVal) : gmap jstring KVal :=
  if jeqb key (lit "__proto__") then kv else <[key := v]> kv.

(** [a.indexOf("=")], [None] for -1. *)
Fixpoint indexOfEq (s : jstring) : option nat :=
  match s with
  | [] => None
  | c :: t => if isC "=" c then Some 0%nat else option_map S (indexOfEq t)
  end.

(** [a.slice(from, to)] for [0 <= from] and [0 <= to]. *)
Definition slice (from to : nat) (s : jstring) : jstring :=
  firstn (to - from) (skipn from s).

(** [next && !next.startsWith("-")] for the argument after the current
    one, [None] when there is none. *)
Definition isValue (next : option jstring) : bool :=
  match next with
  | Some ((_ :: _) as s) => negb (startsWith (lit "-") s)
  | _ => false
  end.

Inductive CliError := MissingValue (flag : jstring).

(** The loop of [parseArgs] over [rest], from the current index on. *)
Fixpoint parseRest (rest : list jstring) (kv : gmap jstring KVal) (debug : bool)
    : CliError + (gmap jstring KVal * bool) :=
  match rest with
  | [] => inr (kv, debug)
  | a :: t =>
      if jeqb a (lit "--debug") then parseRest t kv true
      else if startsWith (lit "--") a then
        match indexOfEq a with
        | Some eq =>
            parseRest t (setKey (slice 2 eq a) (VStr (sliceFrom (eq + 1) a)) kv) debug
        | None =>
            let key := sliceFrom 2 a in
            match t with
            | next :: t' =>
                if isValue (Some next)
                then parseRest t' (setKey key (VStr next) kv) debug
                else parseRest t (setKey key VTrue kv) debug
            | [] => parseRest t (setKey key VTrue kv) debug
            end
        end
      else if jeqb a (lit "-q") || jeqb a (lit "-k") then
        let key := if jeqb a (lit "-q") then lit "q" else lit "k" in
        match t with
        | next :: t' =>
            if isValue (Some next)
            then parseRest t' (setKey key (VStr next) kv) debug
            else inl (MissingValue a)
        | [] => inl (MissingValue a)
        end
      else parseRest t kv debug
  end.

Record Parsed := { cmd : option jstring; kv : gmap jstring KVal; debug : bool }.

(** [const [, , cmd, ...rest] = argv] and the loop. *)
Definition parseArgs (argv : list jstring) : CliError + Parsed :=
  match parseRest (skipn 3 argv) ∅ false with
  | inl e => inl e
  | inr (m, d) => inr {| cmd := nth_error argv 2; kv := m; debug := d |}
  end.

(** A value is truthy unless it is missing or the empty string. *)
Definition truthy (o : option KVal) : bool :=
  match o with
  | Some VTrue => true
  | Some (VStr (_ :: _)) => true
  | _ => false
  end.

(** [kv.key === true] *)
Definition isTrue (o : option KVal) : bool :=
  match o with
  | Some VTrue => true
  | _ => false
  end.

(** [(kv.key as string) || d] *)
Definition orDefault (d : jstring) (o : option KVal) : KVal :=
  match o with
  | Some v => if truthy o then v else VStr d
  | None => VStr d
  end.

(** The object [filters] of the search command; the field
    [cf_min_importance] holds the value that [Number] is applied to. *)
Record CliFilters := {
  cf_universe : option KVal;
  cf_species : option KVal;
  cf_subspecies : option KVal;
  cf_content_type : option KVal;
  cf_min_importance : option KVal
}.

(** [if (kv.key) filters.key = kv.key] *)
Definition pick (o : option KVal) : option KVal := if truthy o then o else None.

Definition buildFilters (m : gmap jstring KVal) : CliFilters :=
  {| cf_universe := pick (m !! lit "universe");
     cf_species := pick (m !! lit "species");
     cf_subspecies := pick (m !! lit "subspecies");
     cf_content_type := pick (m !! lit "content_type");
     cf_min_importance := pick (m !! lit "min_importance") |}.

(** [Object.keys(filters).length > 0 ? filters : undefined] *)
Definition filtersOrUndefined (f : CliFilters) : option CliFilters :=
  match cf_universe f, cf_species f, cf_subspecies f, cf_content_type f,
        cf_min_importance f with
  | None, None, None, None, None => None
  | _, _, _, _, _ => Some f
  end.

(** The options that the search command passes to [search]; the field
    [so_k] holds the value that [Number] is applied to, [None] standing
    for the default 5. *)
Record SearchOpts := {
  so_db : KVal;
  so_model : KVal;
  so_q : KVal;
  so_k : option KVal;
  so_filters : option CliFilters;
  so_rerank : bool;
  so_include_context : bool
}.

(** The search command of [main], lines 58 to 80: [None] is the exit with
    the message that the query is missing. *)
Definition searchCommand (m : gmap jstring KVal) : option SearchOpts :=
  if truthy (m !! lit "q") then
    Some {| so_db := orDefault (lit "./db/vec.db") (m !! lit "db");
            so_model := orDefault (lit "nomic-embed-text") (m !! lit "model");
            so_q := orDefault [] (m !! lit "q");
            so_k := m !! lit "k";
            so_filters := filtersOrUndefined (buildFilters m);
            so_rerank := negb (isTrue (m !! lit "no_rerank"));
            so_include_context := negb (isTrue (m !! lit "no_context")) |}
  else None.

(** *** Command lines and what they mean *)

(** An option as it is written on the command line. *)
Inductive Opt :=
| OptEq (key value : jstring)      (* --key=value *)
| OptSp (key value : jstring)      (* --key value *)
| OptFlag (key : jstring)          (* --key *)
| OptDebug.                        (* --debug *)

Definition encodeOpt (o : Opt) : list jstring :=
  match o with
  | OptEq k v => [lit "--" ++ k ++ lit "=" ++ v]
  | OptSp k v => [lit "--" ++ k; v]
  | OptFlag k => [lit "--" ++ k]
  | OptDebug => [lit "--debug"]
  end.

Definition encode (opts : list Opt) : list jstring := flat_map encodeOpt opts.

Definition noEq (s : jstring) : bool := forallb (fun c => negb (isC "=" c)) s.

(** An option that is read back as written: its key holds no equals sign
    and, unless the value is attached to it, is not [debug]; a detached
    value is not empty and does not begin with a hyphen. *)
Definition readable (o : Opt) : bool :=
  match o with
  | OptEq k _ => noEq k
  | OptSp k v => noEq k && negb (jeqb k (lit "debug")) && isValue (Some v)
  | OptFlag k => noEq k && negb (jeqb k (lit "debug"))
  | OptDebug => true
  end.

Definition applyOpt (st : gmap jstring KVal * bool) (o : Opt) : gmap jstring KVal * bool :=
  match o with
  | OptEq k v => (setKey k (VStr v) (fst st), snd st)
  | OptSp k v => (setKey k (VStr v) (fst st), snd st)
  | OptFlag k => (setKey k VTrue (fst st), snd st)
  | OptDebug => (fst st, true)
  end.

(** The first short option that lacks its value. *)
Definition isShort (a : jstring) : bool := jeqb a (lit "-q") || jeqb a (lit "-k").

Fixpoint firstBare (rest : list jstring) : option jstring :=
  match rest with
  | [] => None
  | a :: t =>
      if isShort a && negb (isValue (head t)) then Some a else firstBare t
  end.

(** The command line of the usage text for a filtered search. *)
Definition usageExample : list jstring :=
  [lit "--q"; lit "rituals"; lit "--content-type"; lit "quote";
   lit "--min-importance"; lit "0.7"; lit "--no-rerank"].

(** The spellings with an underscore of the options that the search
    command reads: no argument begins with one of them. *)
Definition noUnderscoreSpelling (a : jstring) : Prop :=
  startsWith (lit "--content_type") a = false
  /\ startsWith (lit "--min_importance") a = false
  /\ startsWith (lit "--no_rerank") a = false
  /\ startsWith (lit "--no_context") a = false.

(** The record that the usage example parses to. *)
Definition usageKv : gmap jstring KVal :=
  match parseRest usageExample ∅ false with
  | inr (m, _) => m
  | inl _ => ∅
  end.

End Cli.
Import Cli.

(** ** The historian agent: what it reports of its sources *)
Module Agent.

(** An element of the array [allSources], a result of the lore lookup,
    through the fields that the agent reads; a missing field is [None]. *)
Record Source := {
  s_title : option jstring;
  s_section : option jstring;
  s_relevance_score : option jstring;
  s_path : option jstring
}.

Record ListedSource := {
  ls_title : jstring;
  ls_section : jstring;
  ls_relevance : Q;
  ls_path : jstring
}.

Inductive Confidence := low | medium | high.

Definition rank (c : Confidence) : nat :=
  match c with
  | low => 0
  | medium => 1
  | high => 2
  end.

(** A string field is truthy when it is there and not empty. *)
Definition present (o : option jstring) : bool :=
  match o with
  | Some (_ :: _) => true
  | _ => false
  end.

Section Agent.

(** [parseFloat]: [None] is NaN. *)
Variable parseFloat : jstring -> option Q.

(** [parseFloat(s.relevance_score) || 0] *)
Definition relevanceOf (s : Source) : Q :=
  match s_relevance_score s with
  | Some t =>
      match parseFloat t with
      | Some x => if Qeq_bool x 0 then 0%Q else x
      | None => 0%Q
      end
  | None => 0%Q
  end.

Definition listed (s : Source) : ListedSource :=
  {| ls_title := default [] (s_title s);
     ls_section := default [] (s_section s);
     ls_relevance := relevanceOf s;
     ls_path := default [] (s_path s) |}.

(** [sources.filter(s => s && s.title && s.section).map(...).slice(0, 10)] *)
Definition formatSources (sources : list Source) : list ListedSource :=
  firstn 10 (List.map listed
    (List.filter (fun s => present (s_title s) && present (s_section s)) sources)).

(** [parseFloat(s.relevance_score || '0') > 1.5]; the numeral 0 parses to
    zero, which is not above the threshold. *)
Definition highlyRelevant (s : Source) : bool :=
  match s_relevance_score s with
  | Some ((_ :: _) as t) =>
      match parseFloat t with
      | Some x => Qgtb x 1.5
      | None => false
      end
  | _ => false
  end.

Definition assessConfidenceFromSources (sources : list Source) : Confidence :=
  match sources with
  | [] => low
  | _ =>
      let hasHighRelevanceSource := existsb highlyRelevant sources in
      let hasMultipleSources := (2 <? length sources)%nat in
      if hasHighRelevanceSource && hasMultipleSources then high
      else if hasHighRelevanceSource || hasMultipleSources then medium
      else low
  end.

End Agent.

End Agent.
Import Agent.

Module ScoreProofs.

Lemma clamp_bounds (lo hi x : Q) :
  (lo <= hi)%Q -> (lo <= clamp lo hi x /\ clamp lo hi x <= hi)%Q.
Proof.
  intros Hle. unfold clamp. split.
  - apply Q.le_max_l.
  - apply Q.max_lub; [exact Hle | apply Q.le_min_l].
Qed.

End ScoreProofs.

Module SectionizerProofs.

Lemma lineStep_fenced (st : SectState) (line : jstring) :
  inFence st = true \/ isFence line = true -> core (lineStep st line) = core st.
Proof.
  intros H. unfold lineStep.
  destruct (isFence line) eqn:Ef; [reflexivity|].
  destruct H as [H|H]; [|discriminate]. rewrite H. reflexivity.
Qed.

Lemma flush_core st st2 :
  core st = core st2 -> core (flush st) = core (flush st2).
Proof.
  unfold core. intros E. injection E as Ec Eb Es.
  unfold flush. rewrite Ec, Eb, Es.
  destruct (length (trim (normalizeBlock (join [LF] (sectionBuf st2)))) =? 0)%nat; reflexivity.
Qed.

Lemma flush_inFence st : inFence (flush st) = inFence st.
Proof.
  unfold flush.
  destruct (length (trim (normalizeBlock (join [LF] (sectionBuf st)))) =? 0)%nat; reflexivity.
Qed.

Lemma lineStep_core st st2 line :
  core st = core st2 -> inFence st = false -> inFence st2 = false -> isFence line = false ->
  core (lineStep st line) = core (lineStep st2 line)
  /\ inFence (lineStep st2 line) = false.
Proof.
  intros E F1 F2 Ef. unfold lineStep. rewrite Ef, F1, F2.
  destruct (isHeading line) as [[n ttl]|].
  - pose proof (flush_core _ _ E) as Ef2. unfold core in Ef2. injection Ef2 as Ec Eb Es.
    unfold core. cbn. rewrite Ec, Eb, Es, flush_inFence. auto.
  - unfold core in *. injection E as Ec Eb Es. cbn. rewrite Ec, Eb, Es. auto.
Qed.

Lemma lineStep_stays_open st line :
  inFence st = false -> isFence line = false -> inFence (lineStep st line) = false.
Proof.
  intros F Ef. unfold lineStep. rewrite Ef, F.
  destruct (isHeading line) as [[n ttl]|]; cbn; [rewrite flush_inFence; exact F | reflexivity].
Qed.

Lemma fold_unfenced lines : forall st st2,
  core st = core st2 -> inFence st2 = false ->
  core (fold_left lineStep lines st)
  = core (fold_left lineStep (unfencedLines (inFence st) lines) st2).
Proof.
  induction lines as [|l t IH]; intros st st2 E F2; [exact E|].
  cbn [fold_left unfencedLines].
  destruct (isFence l) eqn:Ef.
  - replace (negb (inFence st)) with (inFence (lineStep st l))
      by (unfold lineStep; rewrite Ef; reflexivity).
    apply IH; [|exact F2].
    rewrite lineStep_fenced by (right; exact Ef). exact E.
  - destruct (inFence st) eqn:F1.
    + assert (lineStep st l = st) as ->
        by (unfold lineStep; rewrite Ef, F1; reflexivity).
      rewrite <- F1. apply IH; assumption.
    + destruct (lineStep_core st st2 l E F1 F2 Ef) as [Ec Fn].
      cbn [fold_left].
      rewrite <- (lineStep_stays_open st l F1 Ef).
      apply IH; assumption.
Qed.

Lemma sectionize_unfenced (md : jstring) :
  sectionize md = sectionsOfLines (unfencedLines false (linesOf md)).
Proof.
  unfold sectionize, sectionsOfLines.
  pose proof (fold_unfenced (linesOf md) sectInit sectInit eq_refl eq_refl) as E.
  apply flush_core in E. unfold core in E. injection E as _ _ Es. exact Es.
Qed.

(** C2, as amended.  A line read while a fence is open, and a fence marker
    itself, leaves the heading context, the section buffer and the emitted
    sections as they were; such lines are skipped, not kept: a document
    yields the sections of its lines outside the fenced blocks. *)
Theorem fenced_lines_dropped (md : jstring) :
  (forall st line, inFence st = true \/ isFence line = true ->
     core (lineStep st line) = core st)
  /\ sectionize md = sectionsOfLines (unfencedLines false (linesOf md)).
Proof.
  split; [exact lineStep_fenced | apply sectionize_unfenced].
Qed.

Lemma fenced_lines_dropped_witness :
  core (lineStep {| current := {| h1 := None; h2 := None; h3 := None |};
                    sectionBuf := [lit "before"]; sections := []; inFence := true |}
                 (lit "# not a heading"))
  = ({| h1 := None; h2 := None; h3 := None |}, [lit "before"], [])
  /\ sectionize fencedDoc = sectionsOfLines [lit "before"; lit "after"].
Proof.
  split.
  - apply (proj1 (fenced_lines_dropped fencedDoc)). left. reflexivity.
  - apply (proj2 (fenced_lines_dropped fencedDoc)).
Defined.



Lemma blank_app a b : blank (a ++ b) = blank a && blank b.
Proof. unfold blank. apply forallb_app. Qed.

Lemma blank_dropWhile s : blank (dropWhile isWs s) = blank s.
Proof.
  induction s as [|c t IH]; [reflexivity|].
  cbn. destruct (isWs c) eqn:E; [exact IH|]. cbn. rewrite E. reflexivity.
Qed.

Lemma dropWhile_nil s : dropWhile isWs s = [] <-> blank s = true.
Proof.
  induction s as [|c t IH]; [cbn; tauto|].
  cbn. destruct (isWs c) eqn:E; [exact IH|]. split; discriminate.
Qed.

Lemma dropWhileEnd_nil s : dropWhileEnd isWs s = [] <-> blank s = true.
Proof.
  induction s as [|c t IH]; [cbn; tauto|].
  cbn. destruct (dropWhileEnd isWs t) as [|d t'].
  - destruct (isWs c); cbn; [tauto|]. split; discriminate.
  - split; [discriminate|]. intros H. apply andb_true_iff in H as [_ H].
    apply IH in H. discriminate.
Qed.

Lemma blank_dropWhileEnd s : blank (dropWhileEnd isWs s) = blank s.
Proof.
  unfold blank. induction s as [|c t IH]; [reflexivity|].
  cbn [dropWhileEnd forallb]. destruct (dropWhileEnd isWs t) as [|d t'] eqn:E.
  - assert (Ht : forallb isWs t = true) by (apply dropWhileEnd_nil, E).
    rewrite Ht, andb_true_r. destruct (isWs c) eqn:W; cbn; [|rewrite W]; reflexivity.
  - rewrite <- IH. reflexivity.
Qed.

Lemma blank_repeat_LF n : blank (repeat LF n) = true.
Proof. induction n; [reflexivity|]. cbn. exact IHn. Qed.

Lemma blank_collapse s : forall n, blank (collapseNewlines n s) = blank s.
Proof.
  induction s as [|c t IH]; intros n.
  - cbn. apply blank_repeat_LF.
  - cbn [collapseNewlines]. destruct (isLF c) eqn:E.
    + rewrite IH. cbn.
      assert (isWs c = true) as ->; [|reflexivity].
      unfold isLF, isChar in E. apply Nat.eqb_eq in E.
      unfold isWs, between, isChar. rewrite E. reflexivity.
    + rewrite blank_app, blank_repeat_LF. cbn. rewrite IH. reflexivity.
Qed.

Lemma blank_normalizeBlock s : blank (normalizeBlock s) = blank s.
Proof.
  unfold normalizeBlock, trimStart, trimEnd.
  rewrite blank_collapse, blank_dropWhile, blank_dropWhileEnd. reflexivity.
Qed.

Lemma trim_nil s : trim s = [] <-> blank s = true.
Proof.
  unfold trim, trimEnd, trimStart.
  rewrite dropWhileEnd_nil, blank_dropWhile. reflexivity.
Qed.

Lemma blank_join ls : blank (join [LF] ls) = forallb blank ls.
Proof.
  induction ls as [|l t IH]; [reflexivity|].
  destruct t as [|l2 t2].
  - cbn. rewrite andb_true_r. reflexivity.
  - change (join [LF] (l :: l2 :: t2)) with (l ++ [LF] ++ join [LF] (l2 :: t2)).
    rewrite !blank_app, IH. reflexivity.
Qed.

(** Plain lines: neither fence markers nor headings. *)
Lemma fold_plain lines : forall st,
  inFence st = false ->
  Forall (fun l => isFence l = false /\ isHeading l = None) lines ->
  fold_left lineStep lines st =
  {| current := current st; sectionBuf := sectionBuf st ++ lines;
     sections := sections st; inFence := false |}.
Proof.
  induction lines as [|l t IH]; intros st F H.
  - cbn. rewrite app_nil_r. destruct st; cbn in *; subst; reflexivity.
  - inversion H as [|? ? [Hf Hh] Ht]; subst.
    cbn [fold_left]. rewrite IH; [| |exact Ht].
    + unfold lineStep. rewrite Hf, F, Hh. cbn. rewrite <- app_assoc. reflexivity.
    + unfold lineStep. rewrite Hf, F, Hh. reflexivity.
Qed.

Lemma unfenced_plain lines : forall b,
  Forall (fun l => isHeading l = None) lines ->
  Forall (fun l => isFence l = false /\ isHeading l = None) (unfencedLines b lines).
Proof.
  induction lines as [|l t IH]; intros b H; [constructor|].
  inversion H; subst. cbn [unfencedLines].
  destruct (isFence l) eqn:Ef; [apply IH; assumption|].
  destruct b; [apply IH; assumption|].
  constructor; [split; assumption | apply IH; assumption].
Qed.

Lemma headingless_sections (md : jstring) :
  headingless md ->
  sectionize md =
    if forallb blank (unfencedLines false (linesOf md)) then []
    else [{| path := lit "intro";
             sec_text := normalizeBlock (join [LF] (unfencedLines false (linesOf md)));
             sec_title := None; parent := None |}].
Proof.
  intros H. rewrite sectionize_unfenced.
  unfold sectionsOfLines.
  rewrite (fold_plain _ sectInit eq_refl (unfenced_plain _ false H)).
  unfold flush. cbn [sectionBuf sectInit app current sections].
  set (U := unfencedLines false (linesOf md)).
  destruct (forallb blank U) eqn:B.
  - assert (trim (normalizeBlock (join [LF] U)) = []) as ->; [|reflexivity].
    apply trim_nil. rewrite blank_normalizeBlock, blank_join. exact B.
  - destruct (trim (normalizeBlock (join [LF] U))) eqn:T.
    + apply trim_nil in T. rewrite blank_normalizeBlock, blank_join in T. congruence.
    + reflexivity.
Qed.

(** C8, as amended.  The path of a section follows the precedence: H2 and
    H3 give [h2/h3]; H3 and H1 without H2 give [h1/h3]; H2 without H3 gives
    [h2]; H3 alone gives [h3]; H1 alone gives [h1]; no heading gives [intro].
    A document without heading lines that has a non-blank line outside its
    fenced blocks yields exactly one section, of path [intro]. *)
Theorem path_precedence_and_intro :
  (forall (f1 f2 f3 : Frame) (o1 : option Frame),
     currentPath {| h1 := o1; h2 := Some f2; h3 := Some f3 |}
       = slug f2 ++ lit "/" ++ slug f3
     /\ currentPath {| h1 := Some f1; h2 := None; h3 := Some f3 |}
        = slug f1 ++ lit "/" ++ slug f3
     /\ currentPath {| h1 := o1; h2 := Some f2; h3 := None |} = slug f2
     /\ currentPath {| h1 := None; h2 := None; h3 := Some f3 |} = slug f3
     /\ currentPath {| h1 := Some f1; h2 := None; h3 := None |} = slug f1
     /\ currentPath {| h1 := None; h2 := None; h3 := None |} = lit "intro")
  /\ (forall md, headingless md -> inkOutsideFences md -> oneIntroSection md).
Proof.
  split.
  - intros. repeat split. 
  - intros md H I. unfold oneIntroSection. rewrite (headingless_sections md H).
    unfold inkOutsideFences in I.
    destruct (forallb blank (unfencedLines false (linesOf md))) eqn:B.
    + rewrite forallb_forall in B. apply Exists_exists in I as (l & Hin & Hl).
      apply list_elem_of_In in Hin. rewrite (B l Hin) in Hl. discriminate.
    + eexists. split; reflexivity.
Qed.

Lemma intro_witness :
  oneIntroSection (lit "plain text").
Proof.
  apply (proj2 path_precedence_and_intro).
  - unfold headingless. vm_compute. repeat constructor.
  - unfold inkOutsideFences. vm_compute. apply Exists_cons_hd. reflexivity.
Defined.

(** C8, the claim as stated fails: a document without heading lines whose
    only text lies in a fenced block is not blank and yields no section. *)
Lemma fence_only_document_has_no_section :
  headingless fenceOnlyDoc /\ blank fenceOnlyDoc = false /\ ~ oneIntroSection fenceOnlyDoc.
Proof.
  split; [|split].
  - unfold headingless. vm_compute. repeat constructor.
  - reflexivity.
  - intros (s & E & _). vm_compute in E. discriminate.
Qed.

(** C2, the claim as stated fails: the line inside the fence of [fencedDoc]
    occurs in the text of no emitted section. *)
Lemma fence_content_is_not_retained : ~ fenceContentRetained fencedDoc.
Proof.
  intros H. destruct (H (lit "let x = 1")) as (s & Hin & Hinc).
  - vm_compute. left. reflexivity.
  - vm_compute in Hin. destruct Hin as [<-|[]]. vm_compute in Hinc. discriminate.
Qed.
(** The scenario of the design document: an H2 with a nested H3. *)
Example major_rites_sections :
  List.map (fun s => (path s, sec_text s, sec_title s, parent s))
    (sectionize (lit "## Major Rites" ++ [LF] ++ lit "Rites of the year."
                 ++ [LF] ++ lit "### Sync Days" ++ [LF] ++ lit "City-wide harmonization."))
  = [(lit "major-rites", lit "Rites of the year.", Some (lit "Major Rites"), None);
     (lit "major-rites/sync-days", lit "City-wide harmonization.",
      Some (lit "Sync Days"), Some (lit "Major Rites"))].
Proof. vm_compute. reflexivity. Qed.

Example major_rites_chunks :
  List.map (fun c => (section_path (meta c), parent_chunk_id (meta c)))
    (chunkMarkdownByMeaning noTerms noTerms
       (lit "## Major Rites" ++ [LF] ++ lit "Rites of the year."
        ++ [LF] ++ lit "### Sync Days" ++ [LF] ++ lit "City-wide harmonization.")
       (lit "rites.md") noBaseMeta DEFAULTS)
  = [(lit "major-rites", None); (lit "major-rites/sync-days", None)].
Proof. vm_compute. reflexivity. Qed.

Example slugify_heading :
  slugify (lit "  **Major Rites** & [Sync Days](http://x) -- ") = lit "major-rites-sync-days"
  /\ slugify (lit "??") = lit "section".
Proof. split; vm_compute; reflexivity. Qed.

Example heading_levels :
  isHeading (lit "### Sync Days") = Some (3%nat, lit "Sync Days")
  /\ isHeading (lit "####### seven") = None
  /\ isHeading (lit "#nospace") = None
  /\ isFence (lit "  ```js") = true.
Proof. split; [|split; [|split]]; vm_compute; reflexivity. Qed.

End SectionizerProofs.

Module SplitterProofs.

Section Invariant.

Variable opts : SplitOptions.






End Invariant.




(** C6.  A chunk of a section has a parent id if and only if the splitter
    ran on the section and returned at least two blocks; the parent id is
    then [source_file:section_path]; a section emitted as a single chunk
    has none. *)
Theorem parent_link_iff_split (extractEntities extractConcepts : jstring -> list jstring)
    (sourceFile : jstring) (baseMeta : BaseMeta) (opts : SplitOptions)
    (sec : Section) (c : MeaningChunk) :
  In c (sectionChunks extractEntities extractConcepts sourceFile baseMeta opts sec) ->
  (parent_chunk_id (meta c) <> None <->
     exists parts, splitterOutput opts sec = Some parts /\ (2 <= length parts)%nat)
  /\ (parent_chunk_id (meta c) <> None ->
      parent_chunk_id (meta c) = Some (sourceFile ++ lit ":" ++ path sec))
  /\ (length (sectionChunks extractEntities extractConcepts sourceFile baseMeta opts sec)
        = 1%nat -> parent_chunk_id (meta c) = None).
Proof.
  unfold sectionChunks, splitterOutput.
  destruct (estimateTokens (sec_text sec) <=? maxTokens opts)%Z.
  - intros [<-|[]]. cbn. repeat split; try congruence.
    intros (parts & E & _). discriminate.
  - destruct (length (splitSectionBySize (contextualTextOf sec) opts) <=? 1)%nat eqn:L.
    + apply Nat.leb_le in L. intros [<-|[]]. cbn. repeat split; try congruence.
      intros (parts & E & H). injection E as <-. lia.
    + apply Nat.leb_gt in L. intros Hin. apply in_map_iff in Hin as (p & <- & _). cbn.
      repeat split; try congruence.
      * intros _. eexists. split; [reflexivity | lia].
      * rewrite length_map. lia.
Qed.

Lemma parent_link_witness :
  let c := mkChunk (lit "rites.md") noBaseMeta longSection
             (repeat "a"%char 1000) [] [] (analyzeContent (repeat "a"%char 1000))
             (Some (lit "rites.md:major-rites")) in
  (parent_chunk_id (meta c) <> None <->
     exists parts, splitterOutput DEFAULTS longSection = Some parts
                   /\ (2 <= length parts)%nat)
  /\ (parent_chunk_id (meta c) <> None ->
      parent_chunk_id (meta c) = Some (lit "rites.md" ++ lit ":" ++ path longSection))
  /\ (length (sectionChunks (fun _ => []) (fun _ => []) (lit "rites.md") noBaseMeta
                DEFAULTS longSection) = 1%nat -> parent_chunk_id (meta c) = None).
Proof.
  intros c.
  apply (parent_link_iff_split (fun _ => []) (fun _ => []) (lit "rites.md") noBaseMeta
           DEFAULTS longSection c).
  vm_compute. left. reflexivity.
Defined.

End SplitterProofs.

Module SearchProofs.

Section Ranking.

Variable JSON_parse : jstring -> option Metadata.

Lemma Qltb_false (a b : Q) : Qltb a b = false -> (b <= a)%Q.
Proof.
  unfold Qltb. intros H. apply negb_false_iff in H. apply Qle_bool_iff. exact H.
Qed.

Lemma Qltb_true (a b : Q) : Qltb a b = true -> (a < b)%Q.
Proof.
  unfold Qltb. intros H. apply negb_true_iff in H.
  apply Qnot_le_lt. intros L. apply Qle_bool_iff in L. congruence.
Qed.

Lemma clampScore_bounds (x : Q) : (0.001 <= clampScore x <= 2.0)%Q.
Proof.
  unfold clampScore. split.
  - apply Q.le_max_l.
  - apply Q.max_lub; [discriminate | apply Q.le_min_l].
Qed.

Lemma relevance_bounds (h : SearchHit) (q : jstring) :
  (0.001 <= calculateRelevanceScore JSON_parse h q <= 2.0)%Q.
Proof. unfold calculateRelevanceScore. apply clampScore_bounds. Qed.

(** The sort: its elements and its order. *)
Lemma insertHit_In x y l : In y (insertHit x l) <-> y = x \/ In y l.
Proof.
  induction l as [|z t IH]; cbn; [intuition congruence|].
  destruct (Qltb (relevance_score x) (relevance_score z)); cbn; [rewrite IH|];
    intuition congruence.
Qed.

Lemma sortHits_In y l : In y (sortHits l) <-> In y l.
Proof.
  induction l as [|x t IH]; cbn; [tauto|].
  rewrite insertHit_In, IH. intuition congruence.
Qed.

Lemma insertHit_descending x l : descending l -> descending (insertHit x l).
Proof.
  unfold descending. induction 1 as [|z t Ht IH Hz]; cbn.
  - repeat constructor.
  - destruct (Qltb (relevance_score x) (relevance_score z)) eqn:C.
    + constructor; [exact IH|].
      apply Forall_forall. intros y Hy. apply list_elem_of_In in Hy.
      apply -> insertHit_In in Hy.
      destruct Hy as [->|Hy].
      * apply Qlt_le_weak, Qltb_true, C.
      * rewrite Forall_forall in Hz. apply Hz, list_elem_of_In, Hy.
    + apply Qltb_false in C. constructor; [constructor; assumption|].
      constructor; [exact C|].
      eapply Forall_impl; [exact Hz|]. cbn. intros y Hy. eapply Qle_trans; eassumption.
Qed.

Lemma sortHits_descending l : descending (sortHits l).
Proof.
  induction l as [|x t IH]; cbn; [constructor | apply insertHit_descending, IH].
Qed.

Lemma firstn_subset {A} (x : A) k : forall l, In x (firstn k l) -> In x l.
Proof.
  induction k as [|k IH]; intros [|y t]; cbn; try tauto.
  intros [->|H]; [left; reflexivity | right; apply IH, H].
Qed.

Lemma firstn_descending k l : descending l -> descending (firstn k l).
Proof.
  unfold descending. intros H. revert k.
  induction H as [|z t Ht IH Hz]; intros [|k]; cbn; try constructor.
  - apply IH.
  - rewrite Forall_forall in *. intros y Hy. apply Hz.
    apply list_elem_of_In. apply list_elem_of_In in Hy. eapply firstn_subset. exact Hy.
Qed.

(** A hit that passes the filter meets every active filter. *)
Lemma stringFilter_meets (f m : option jstring) :
  stringFilterFails f m = false -> meetsString f m.
Proof.
  intros H v -> Hv. destruct v as [|c t]; [contradiction|].
  cbn in H. apply negb_false_iff, bool_decide_eq_true in H. exact H.
Qed.

Lemma importanceFilter_meets (f m : option Q) :
  importanceFilterFails f m = false -> meetsImportance f m.
Proof.
  intros H v -> Hv. cbn in H.
  destruct (Qeq_bool v 0) eqn:E; [apply Qeq_bool_iff in E; contradiction|].
  cbn in H. apply Qltb_false, H.
Qed.

Lemma passesFilters_meets (f : Filters) (h : SearchHit) (md : Metadata) :
  passesFilters JSON_parse f h = true ->
  parseMetadata JSON_parse h = Some md -> meetsFilters f md.
Proof.
  unfold passesFilters. intros H E. rewrite E in H.
  destruct (stringFilterFails (f_universe f) (m_universe md)) eqn:E1; [discriminate|].
  destruct (stringFilterFails (f_species f) (m_species md)) eqn:E2; [discriminate|].
  destruct (stringFilterFails (f_subspecies f) (m_subspecies md)) eqn:E3; [discriminate|].
  destruct (stringFilterFails (f_content_type f) (m_content_type md)) eqn:E4; [discriminate|].
  destruct (importanceFilterFails (f_min_importance f) (m_importance_score md)) eqn:E5;
    [discriminate|].
  repeat split; auto using stringFilter_meets, importanceFilter_meets.
Qed.

Lemma noKeys_meets (f : Filters) (md : Metadata) : noKeys f = true -> meetsFilters f md.
Proof.
  unfold noKeys.
  destruct (f_universe f) eqn:E1, (f_species f) eqn:E2, (f_subspecies f) eqn:E3,
    (f_content_type f) eqn:E4, (f_min_importance f) eqn:E5; try discriminate.
  intros _. unfold meetsFilters, meetsString, meetsImportance.
  rewrite E1, E2, E3, E4, E5. repeat split; intros; discriminate.
Qed.

Lemma applyFilters_In (hits : list SearchHit) (f : Filters) (h : SearchHit) :
  In h (applyFilters JSON_parse hits f) <->
  In h hits /\ (noKeys f = true \/ passesFilters JSON_parse f h = true).
Proof.
  unfold applyFilters. destruct (noKeys f).
  - intuition.
  - rewrite <- !list_elem_of_In, list_elem_of_filter, !list_elem_of_In.
    intuition discriminate.
Qed.

Variable searchKnn : list Q -> nat -> list SearchHit.

(** C5.  The hits that [search] returns are in order of non-increasing
    relevance score, are at most [k], have scores in [0.001, 2.0], and
    every one whose metadata parses meets each active filter. *)
Theorem search_results_ranked (q : jstring) (qvec : list Q) (k : nat)
    (filters : option Filters) :
  let res := search JSON_parse searchKnn q qvec k filters in
  descending res
  /\ (length res <= k)%nat
  /\ (forall r, In r res -> (0.001 <= relevance_score r <= 2.0)%Q)
  /\ (forall r f md, In r res -> filters = Some f ->
        parseMetadata JSON_parse (hit r) = Some md -> meetsFilters f md).
Proof.
  cbn zeta. unfold search, rankHits.
  set (raw := searchKnn qvec (Nat.max (k * 2) 20)).
  set (kept := match filters with Some f => applyFilters JSON_parse raw f | None => raw end).
  set (scored := List.map _ kept).
  assert (Hin : forall r, In r (firstn k (sortHits scored)) ->
            exists h, In h kept /\
              r = {| hit := h; relevance_score := calculateRelevanceScore JSON_parse h q |}).
  { intros r Hr. apply firstn_subset in Hr. apply -> sortHits_In in Hr.
    apply in_map_iff in Hr as (h & <- & Hh). exists h. split; [exact Hh | reflexivity]. }
  split; [|split; [|split]].
  - apply firstn_descending, sortHits_descending.
  - apply firstn_le_length.
  - intros r Hr. destruct (Hin r Hr) as (h & _ & ->). apply relevance_bounds.
  - intros r f md Hr -> Hmd. destruct (Hin r Hr) as (h & Hh & ->). cbn in Hmd.
    subst kept. apply applyFilters_In in Hh as [_ [Hk|Hp]].
    + apply noKeys_meets, Hk.
    + eapply passesFilters_meets; eassumption.
Qed.

(** C10.  Under an importance filter above zero, a hit whose metadata
    parses and has no importance score is filtered out; a hit whose
    metadata does not parse passes every filter and is kept. *)
Theorem missing_importance_excluded_unparsable_kept
    (hits : list SearchHit) (f : Filters) (h : SearchHit) (v : Q) :
  f_min_importance f = Some v -> (0 < v)%Q ->
  (forall md, parseMetadata JSON_parse h = Some md -> m_importance_score md = None ->
     ~ In h (applyFilters JSON_parse hits f))
  /\ (forall f', parseMetadata JSON_parse h = None -> In h hits ->
        passesFilters JSON_parse f' h = true /\ In h (applyFilters JSON_parse hits f')).
Proof.
  intros Hf Hv. split.
  - intros md Hmd Hnone Hin. apply applyFilters_In in Hin as [_ [Hk|Hp]].
    + unfold noKeys in Hk. rewrite Hf in Hk.
      destruct (f_universe f), (f_species f), (f_subspecies f), (f_content_type f);
        discriminate.
    + unfold passesFilters in Hp. rewrite Hmd, Hf, Hnone in Hp.
      assert (E : importanceFilterFails (Some v) None = true).
      { cbn. apply andb_true_iff. split.
        - apply negb_true_iff. destruct (Qeq_bool v 0) eqn:E; [|reflexivity].
          apply Qeq_bool_iff in E. rewrite E in Hv. discriminate.
        - unfold Qltb. apply negb_true_iff. destruct (Qle_bool v 0) eqn:E; [|reflexivity].
          apply Qle_bool_iff in E. apply Qlt_not_le in Hv. contradiction. }
      rewrite E in Hp.
      repeat match type of Hp with (if ?c then _ else _) = _ => destruct c end;
        discriminate.
  - intros f' Hnone Hin.
    assert (Hp : passesFilters JSON_parse f' h = true)
      by (unfold passesFilters; rewrite Hnone; reflexivity).
    split; [exact Hp|]. apply applyFilters_In. auto.
Qed.

End Ranking.

Example rank_sample :
  List.map (fun r => hit_id (hit r))
    (rankHits sampleParse [brokenHit; bareHit] (lit "Sync days") 5 None)
  = [lit "bare"; lit "broken"]
  /\ (calculateRelevanceScore sampleParse bareHit (lit "Sync days") == 0.8)%Q
  /\ (calculateRelevanceScore sampleParse brokenHit (lit "Sync days") == 0.25)%Q.
Proof. split; [|split]; vm_compute; reflexivity. Qed.

Example filter_sample :
  applyFilters sampleParse [bareHit; brokenHit] importanceFilter = [brokenHit].
Proof. reflexivity. Qed.

Lemma missing_importance_witness :
  (forall md, parseMetadata sampleParse bareHit = Some md ->
     m_importance_score md = None ->
     ~ In bareHit (applyFilters sampleParse [bareHit; brokenHit] importanceFilter))
  /\ (forall f', parseMetadata sampleParse bareHit = None ->
        In bareHit [bareHit; brokenHit] ->
        passesFilters sampleParse f' bareHit = true
        /\ In bareHit (applyFilters sampleParse [bareHit; brokenHit] f')).
Proof.
  apply (missing_importance_excluded_unparsable_kept sampleParse
           [bareHit; brokenHit] importanceFilter bareHit 0.5%Q);
    reflexivity.
Defined.

End SearchProofs.

Module StoreProofs.

(** *** One row *)

Lemma upsertRow_bad (d : Z) (r : Row) (s : VectorStore) :
  ~ dimOk d r ->
  upsertRow d r s = (s, inl (BadDim (Z.of_nat (length (row_embedding r))) d)).
Proof.
  unfold dimOk, upsertRow. intros H.
  destruct (Z.of_nat (length (row_embedding r)) =? d)%Z eqn:E; [|reflexivity].
  apply Z.eqb_eq in E. contradiction.
Qed.

Lemma upsertRow_ok (d : Z) (r : Row) (s : VectorStore) :
  dimOk d r -> upsertRow d r s = (upsertOne r s, inr tt).
Proof.
  unfold dimOk, upsertRow. intros H. apply Z.eqb_eq in H. rewrite H. cbn [negb].
  unfold bind, upsertChunkMeta, modify, selectRid, gets, upsertOne, upsertChunk, rowKey.
  cbn [chunks vec_chunks dim meta_dim].
  rewrite !lookup_insert_eq. cbn [fmap option_fmap option_map rid].
  unfold updateVec, insertVec, modify, writeVec, ret. cbn [chunks vec_chunks dim meta_dim].
  destruct (vec_chunks s !! _); reflexivity.
Qed.

(** *** The loop of the transaction *)

Lemma forEach_upsert_ok (d : Z) (rows : list Row) : forall s,
  Forall (dimOk d) rows ->
  forEach (upsertRow d) rows s = (upsertAll rows s, inr tt).
Proof.
  induction rows as [|r t IH]; intros s H; [reflexivity|].
  inversion H; subst. cbn [forEach]. unfold bind.
  rewrite upsertRow_ok by assumption. rewrite IH by assumption. reflexivity.
Qed.

Lemma forEach_upsert_bad (d : Z) (rows : list Row) : forall s,
  Exists (fun r => ~ dimOk d r) rows ->
  exists s' e, forEach (upsertRow d) rows s = (s', inl e).
Proof.
  induction rows as [|r t IH]; intros s H; [inversion H|].
  cbn [forEach]. unfold bind.
  destruct (Z.eq_dec (Z.of_nat (length (row_embedding r))) d) as [Hd|Hd].
  - rewrite upsertRow_ok by exact Hd.
    inversion H as [? ? Hh|? ? Ht]; [exfalso; apply Hh, Hd | apply IH, Ht].
  - rewrite upsertRow_bad by exact Hd. eauto.
Qed.

Lemma forEach_upsert_inv (d : Z) (rows : list Row) : forall s s',
  forEach (upsertRow d) rows s = (s', inr tt) ->
  Forall (dimOk d) rows /\ s' = upsertAll rows s.
Proof.
  induction rows as [|r t IH]; intros s s' H.
  - injection H as <-. split; [constructor | reflexivity].
  - cbn [forEach] in H. unfold bind in H.
    destruct (Z.eq_dec (Z.of_nat (length (row_embedding r))) d) as [Hd|Hd].
    + rewrite upsertRow_ok in H by exact Hd. apply IH in H as [F ->].
      split; [constructor; assumption | reflexivity].
    + rewrite upsertRow_bad in H by exact Hd. discriminate.
Qed.

(** *** getDim and upsertMany *)

Lemma getDim_tables (s s0 : VectorStore) (r : Error + Z) :
  getDim s = (s0, r) ->
  meta_dim s0 = meta_dim s /\ chunks s0 = chunks s /\ vec_chunks s0 = vec_chunks s.
Proof.
  unfold getDim.
  destruct (dim s) as [d|]; [destruct (negb (d =? 0)%Z)|];
    destruct (meta_dim s) eqn:E; intros H; injection H as <- _; cbn; auto.
Qed.

Lemma upsertMany_failure (rows : list Row) (s s' : VectorStore) (e : Error) :
  upsertMany rows s = (s', inl e) ->
  meta_dim s' = meta_dim s /\ chunks s' = chunks s /\ vec_chunks s' = vec_chunks s.
Proof.
  unfold upsertMany, bind. destruct (getDim s) as [s0 [e0|d]] eqn:G.
  - intros H. injection H as <- _. eapply getDim_tables, G.
  - apply getDim_tables in G. unfold transaction.
    destruct (forEach (upsertRow d) rows s0) as [s1 [e1|[]]]; intros H;
      [|discriminate].
    injection H as <- _. cbn. exact G.
Qed.

Lemma upsertMany_success (rows : list Row) (s s' : VectorStore) :
  upsertMany rows s = (s', inr tt) ->
  exists s0 d, getDim s = (s0, inr d) /\ Forall (dimOk d) rows /\ s' = upsertAll rows s0.
Proof.
  unfold upsertMany, bind. destruct (getDim s) as [s0 [e0|d]] eqn:G; [discriminate|].
  unfold transaction.
  destruct (forEach (upsertRow d) rows s0) as [s1 [e1|[]]] eqn:F; intros H;
    [discriminate|].
  injection H as <-. apply forEach_upsert_inv in F as [F ->]. eauto.
Qed.

(** *** The tables after the rows of a batch *)

Lemma upsertOne_chunks (r : Row) (s : VectorStore) :
  chunks (upsertOne r s) = upsertChunk (rowKey r) (chunks s).
Proof. reflexivity. Qed.

Lemma upsertAll_cons (r : Row) (t : list Row) (s : VectorStore) :
  upsertAll (r :: t) s = upsertAll t (upsertOne r s).
Proof. reflexivity. Qed.

Lemma upsertAll_chunks (rows : list Row) : forall s,
  chunks (upsertAll rows s) = replayChunks (List.map rowKey rows) (chunks s).
Proof.
  induction rows as [|r t IH]; intros s; [reflexivity|].
  cbn. rewrite IH. reflexivity.
Qed.

Lemma upsertChunk_rid_stable (k : RowKey) (t : gmap jstring ChunkRecord) i c :
  t !! i = Some c -> exists c', upsertChunk k t !! i = Some c' /\ rid c' = rid c.
Proof.
  destruct k as [[[[j p] ch] sh] m]. unfold upsertChunk. intros H.
  destruct (decide (j = i)) as [->|Hne].
  - rewrite lookup_insert_eq, H. eauto.
  - rewrite lookup_insert_ne by exact Hne. eauto.
Qed.

Lemma upsertOne_rid_stable (r : Row) (s : VectorStore) i c :
  chunks s !! i = Some c ->
  exists c', chunks (upsertOne r s) !! i = Some c' /\ rid c' = rid c.
Proof. apply upsertChunk_rid_stable. Qed.

Lemma upsertAll_rid_stable (rows : list Row) : forall s i c,
  chunks s !! i = Some c ->
  exists c', chunks (upsertAll rows s) !! i = Some c' /\ rid c' = rid c.
Proof.
  induction rows as [|r t IH]; intros s i c H; [eauto|].
  cbn. destruct (upsertOne_rid_stable r s i c H) as (c1 & H1 & E1).
  destruct (IH _ i c1 H1) as (c2 & H2 & E2). exists c2. split; [exact H2 | congruence].
Qed.

Lemma upsertOne_own (r : Row) (s : VectorStore) :
  exists c, chunks (upsertOne r s) !! row_id r = Some c
            /\ vec_chunks (upsertOne r s) = <[rid c := row_embedding r]> (vec_chunks s).
Proof.
  unfold upsertOne, upsertChunk, rowKey. cbn [chunks vec_chunks].
  rewrite lookup_insert_eq. eauto.
Qed.

Lemma upsertOne_vec_grows (r : Row) (s : VectorStore) k :
  is_Some (vec_chunks s !! k) -> is_Some (vec_chunks (upsertOne r s) !! k).
Proof.
  destruct (upsertOne_own r s) as (c & _ & ->). intros H.
  destruct (decide (rid c = k)) as [->|Hne].
  - rewrite lookup_insert_eq. eauto.
  - rewrite lookup_insert_ne by exact Hne. exact H.
Qed.

(** A chunk record that has its vector keeps it. *)
Lemma upsertOne_linked (r : Row) (s : VectorStore) i :
  linked s i -> linked (upsertOne r s) i.
Proof.
  intros (c & Hc & Hv). destruct (upsertOne_rid_stable r s i c Hc) as (c' & Hc' & E).
  exists c'. split; [exact Hc'|]. rewrite E. apply upsertOne_vec_grows, Hv.
Qed.

Lemma upsertAll_linked (rows : list Row) : forall s i,
  linked s i -> linked (upsertAll rows s) i.
Proof.
  induction rows as [|r t IH]; intros s i H; [exact H|].
  cbn. apply IH, upsertOne_linked, H.
Qed.

Lemma upsertAll_rows_linked (rows : list Row) : forall s r,
  In r rows -> linked (upsertAll rows s) (row_id r).
Proof.
  induction rows as [|r0 t IH]; intros s r Hin; [contradiction|].
  cbn. destruct Hin as [->|Hin]; [|apply IH, Hin].
  apply upsertAll_linked. destruct (upsertOne_own r s) as (c & Hc & Hv).
  exists c. split; [exact Hc|]. rewrite Hv, lookup_insert_eq. eauto.
Qed.

Lemma upsertAll_vec_cases (rows : list Row) : forall s k,
  vec_chunks (upsertAll rows s) !! k = vec_chunks s !! k
  \/ exists r c, In r rows /\ chunks (upsertAll rows s) !! row_id r = Some c /\ rid c = k.
Proof.
  induction rows as [|r t IH]; intros s k; [left; reflexivity|].
  rewrite upsertAll_cons. destruct (IH (upsertOne r s) k) as [E|(r' & c & Hin & Hc & Hk)].
  - destruct (upsertOne_own r s) as (c & Hc & Hv).
    destruct (decide (rid c = k)) as [Hk|Hk].
    + right. destruct (upsertAll_rid_stable t _ _ _ Hc) as (c' & Hc' & E').
      exists r, c'. split; [left; reflexivity|]. split; [exact Hc' | congruence].
    + left. rewrite E, Hv. apply lookup_insert_ne, Hk.
  - right. exists r', c. split; [right; exact Hin | split; assumption].
Qed.

Lemma upsertAll_vec_written (rows : list Row) (s : VectorStore) (k : Z) :
  vec_chunks (upsertAll rows s) !! k <> vec_chunks s !! k ->
  exists r c, In r rows /\ chunks (upsertAll rows s) !! row_id r = Some c /\ rid c = k.
Proof.
  intros H. destruct (upsertAll_vec_cases rows s k) as [E|E]; [contradiction | exact E].
Qed.

Lemma upsertOne_paired (r : Row) (s : VectorStore) : paired s -> paired (upsertOne r s).
Proof.
  intros [P1 P2]. destruct (upsertOne_own r s) as (c & Hc & Hv). split.
  - intros i c' Hi. destruct (decide (i = row_id r)) as [->|Hne].
    + rewrite Hc in Hi. injection Hi as <-. rewrite Hv, lookup_insert_eq. eauto.
    + apply upsertOne_vec_grows.
      unfold upsertOne, upsertChunk, rowKey in Hi. cbn [chunks] in Hi.
      rewrite lookup_insert_ne in Hi by congruence. eapply P1, Hi.
  - intros k Hk. rewrite Hv in Hk.
    destruct (decide (rid c = k)) as [<-|Hne]; [eauto|].
    rewrite lookup_insert_ne in Hk by exact Hne.
    destruct (P2 k Hk) as (i & c0 & Hi & <-).
    destruct (upsertOne_rid_stable r s i c0 Hi) as (c1 & H1 & E1). eauto.
Qed.

Lemma upsertAll_paired (rows : list Row) : forall s, paired s -> paired (upsertAll rows s).
Proof.
  induction rows as [|r t IH]; intros s H; [exact H|].
  cbn. apply IH, upsertOne_paired, H.
Qed.

Lemma paired_tables (s s0 : VectorStore) :
  chunks s0 = chunks s -> vec_chunks s0 = vec_chunks s -> paired s -> paired s0.
Proof. unfold paired. intros -> ->. tauto. Qed.

(** C3.  Given the dimension of the store: a batch with a row of another
    embedding length makes [upsertMany] fail and leaves both tables as they
    were; a batch without such a row succeeds; and after a success every
    row of the batch has its chunk record and a vector under the row id of
    that record, every vector written belongs to a chunk record of the
    batch, and a store whose records and vectors were paired stays so. *)
Theorem upsertMany_atomic_and_paired (s s0 : VectorStore) (d : Z) (rows : list Row) :
  getDim s = (s0, inr d) ->
  (Exists (fun r => Z.of_nat (length (row_embedding r)) <> d) rows ->
     exists s' e, upsertMany rows s = (s', inl e)
       /\ chunks s' = chunks s /\ vec_chunks s' = vec_chunks s)
  /\ (Forall (fun r => Z.of_nat (length (row_embedding r)) = d) rows ->
        exists s', upsertMany rows s = (s', inr tt))
  /\ (forall s', upsertMany rows s = (s', inr tt) ->
        (forall r, In r rows ->
           exists c, chunks s' !! row_id r = Some c /\ is_Some (vec_chunks s' !! rid c))
        /\ (forall k, vec_chunks s' !! k <> vec_chunks s !! k ->
              exists r c, In r rows /\ chunks s' !! row_id r = Some c /\ rid c = k)
        /\ (paired s -> paired s')).
Proof.
  intros G. pose proof (getDim_tables _ _ _ G) as (Tm & Tc & Tv).
  split; [|split].
  - intros E. destruct (forEach_upsert_bad d rows s0 E) as (s1 & e & F).
    eexists _, e. unfold upsertMany, bind, transaction. rewrite G, F. cbn. auto.
  - intros F. eexists. unfold upsertMany, bind, transaction.
    rewrite G, (forEach_upsert_ok d rows s0 F). reflexivity.
  - intros s' H. apply upsertMany_success in H as (s1 & d1 & G1 & F & ->).
    rewrite G in G1. injection G1 as <- <-. split; [|split].
    + intros r Hin. apply (upsertAll_rows_linked rows s0 r Hin).
    + intros k Hk. rewrite <- Tv in Hk. apply upsertAll_vec_written, Hk.
    + intros P. apply upsertAll_paired. eapply paired_tables; eassumption.
Qed.

Lemma upsertMany_witness :
  (Exists (fun r => Z.of_nat (length (row_embedding r)) <> 2%Z) sampleRows ->
     exists s' e, upsertMany sampleRows readyStore = (s', inl e)
       /\ chunks s' = chunks readyStore /\ vec_chunks s' = vec_chunks readyStore)
  /\ (Forall (fun r => Z.of_nat (length (row_embedding r)) = 2%Z) sampleRows ->
        exists s', upsertMany sampleRows readyStore = (s', inr tt))
  /\ (forall s', upsertMany sampleRows readyStore = (s', inr tt) ->
        (forall r, In r sampleRows ->
           exists c, chunks s' !! row_id r = Some c /\ is_Some (vec_chunks s' !! rid c))
        /\ (forall k, vec_chunks s' !! k <> vec_chunks readyStore !! k ->
              exists r c, In r sampleRows /\ chunks s' !! row_id r = Some c /\ rid c = k)
        /\ (paired readyStore -> paired s')).
Proof.
  apply (upsertMany_atomic_and_paired readyStore readyStore 2%Z sampleRows).
  reflexivity.
Defined.

End StoreProofs.

Module BakeProofs.
Import StoreProofs.

(** *** Replaying the upserts of a run on the table of chunks *)

Lemma replayChunks_app (k1 k2 : list RowKey) (t : gmap jstring ChunkRecord) :
  replayChunks (k1 ++ k2) t = replayChunks k2 (replayChunks k1 t).
Proof. apply fold_left_app. Qed.

Lemma upsertChunk_dom (k : RowKey) (t : gmap jstring ChunkRecord) :
  dom (upsertChunk k t) = {[keyId k]} ∪ dom t.
Proof. destruct k as [[[[i p] c] sh] m]. apply dom_insert_L. Qed.

Lemma replayChunks_dom (ks : list RowKey) : forall t : gmap jstring ChunkRecord,
  dom (replayChunks ks t) = list_to_set (List.map keyId ks) ∪ dom t.
Proof.
  induction ks as [|k ks IH]; intros t; cbn.
  - symmetry. apply (left_id_L ∅ (∪)).
  - unfold replayChunks in IH. rewrite IH, upsertChunk_dom.
    rewrite (assoc_L (∪)), (comm_L (∪) _ {[keyId k]}). reflexivity.
Qed.

Lemma upsertChunk_rids (k : RowKey) (t : gmap jstring ChunkRecord) :
  keyId k ∈ dom t -> rid <$> upsertChunk k t = rid <$> t.
Proof.
  destruct k as [[[[i p] c] sh] m]. cbn. intros H.
  apply elem_of_dom in H as [old Hold].
  rewrite fmap_insert, Hold. cbn. apply insert_id. rewrite lookup_fmap, Hold. reflexivity.
Qed.

Lemma replayChunks_rids (ks : list RowKey) : forall t : gmap jstring ChunkRecord,
  list_to_set (List.map keyId ks) ⊆ dom t ->
  rid <$> replayChunks ks t = rid <$> t.
Proof.
  induction ks as [|k ks IH]; intros t H; [reflexivity|].
  cbn in *. apply union_subseteq in H as [Hk Hks].
  unfold replayChunks in IH. rewrite IH.
  - apply upsertChunk_rids. apply Hk, elem_of_singleton. reflexivity.
  - rewrite upsertChunk_dom. intros x Hx. apply elem_of_union. right. apply Hks, Hx.
Qed.

Lemma upsertChunk_data (k : RowKey) (t : gmap jstring ChunkRecord) :
  recordData <$> upsertChunk k t = <[keyId k := keyData k]> (recordData <$> t).
Proof. destruct k as [[[[i p] c] sh] m]. cbn. rewrite fmap_insert. reflexivity. Qed.

Lemma replayChunks_data (ks : list RowKey) : forall t : gmap jstring ChunkRecord,
  recordData <$> replayChunks ks t = insertData ks (recordData <$> t).
Proof.
  induction ks as [|k ks IH]; intros t; [reflexivity|].
  cbn. unfold replayChunks, insertData in IH. rewrite IH, upsertChunk_data. reflexivity.
Qed.

Lemma insertData_lookup (ks : list RowKey) : forall m i,
  insertData ks m !! i = lastData ks i (m !! i).
Proof.
  induction ks as [|k ks IH]; intros m i; [reflexivity|].
  cbn. unfold insertData in IH. rewrite IH. f_equal.
  destruct (decide (keyId k = i)) as [->|Hne].
  - apply lookup_insert_eq.
  - apply lookup_insert_ne, Hne.
Qed.

Lemma lastData_cases (ks : list RowKey) (i : jstring) :
  (exists d, forall acc, lastData ks i acc = Some d)
  \/ (forall acc, lastData ks i acc = acc).
Proof.
  induction ks as [|k ks IH]; cbn; [right; reflexivity|].
  destruct IH as [[d Hd]|Hid].
  - left. exists d. intros acc. apply Hd.
  - destruct (decide (keyId k = i)) as [E|N].
    + left. exists (keyData k). intros acc. apply Hid.
    + right. intros acc. apply Hid.
Qed.

Lemma insertData_idem (ks : list RowKey) m : insertData ks (insertData ks m) = insertData ks m.
Proof.
  apply map_eq. intros i. rewrite !insertData_lookup.
  destruct (lastData_cases ks i) as [[d Hd]|Hid].
  - rewrite !Hd. reflexivity.
  - rewrite !Hid. reflexivity.
Qed.

Lemma table_eq (t1 t2 : gmap jstring ChunkRecord) :
  rid <$> t1 = rid <$> t2 -> recordData <$> t1 = recordData <$> t2 -> t1 = t2.
Proof.
  intros Hr Hd. apply map_eq. intros i.
  assert (Hr' : (rid <$> t1) !! i = (rid <$> t2) !! i) by (rewrite Hr; reflexivity).
  assert (Hd' : (recordData <$> t1) !! i = (recordData <$> t2) !! i)
    by (rewrite Hd; reflexivity).
  clear Hr Hd. rewrite !lookup_fmap in Hr'. rewrite !lookup_fmap in Hd'.
  destruct (t1 !! i) as [[r1 p1 c1 s1 m1]|], (t2 !! i) as [[r2 p2 c2 s2 m2]|];
    cbn in *; try discriminate; [|reflexivity].
  unfold recordData in Hd'. cbn in Hd'. congruence.
Qed.

Lemma replayChunks_idem (ks : list RowKey) (t : gmap jstring ChunkRecord) :
  replayChunks ks (replayChunks ks t) = replayChunks ks t.
Proof.
  apply table_eq.
  - apply replayChunks_rids. rewrite replayChunks_dom. apply union_subseteq_l.
  - rewrite !replayChunks_data. apply insertData_idem.
Qed.

Lemma replayChunks_rid_stable (ks : list RowKey) : forall (t : gmap jstring ChunkRecord) i c,
  t !! i = Some c -> exists c', replayChunks ks t !! i = Some c' /\ rid c' = rid c.
Proof.
  induction ks as [|k ks IH]; intros t i c H; [eauto|].
  cbn. destruct (upsertChunk_rid_stable k t i c H) as (c1 & H1 & E1).
  destruct (IH _ i c1 H1) as (c2 & H2 & E2). exists c2. split; [exact H2 | congruence].
Qed.

(** *** The rows and the table of a run *)

Lemma RunsAs_forEach {A} (f : A -> M BakeState unit) (expected : A -> list RowKey) :
  RunsAs f expected -> RunsAs (forEach f) (flat_map expected).
Proof.
  intros Hf l. induction l as [|a t IH]; intros b b' res H.
  - injection H as <- <-. exists []. cbn. rewrite app_nil_r. auto.
  - cbn [forEach] in H. unfold bind in H.
    destruct (f a b) as [b1 [e|[]]] eqn:F.
    + injection H as <- <-. destruct (Hf a b b1 (inl e) F) as (rows & Hu & Hc & rest & Hk).
      exists rows. split; [exact Hu|]. split; [exact Hc|].
      exists (rest ++ flat_map expected t). cbn. rewrite Hk, <- app_assoc. reflexivity.
    + destruct (Hf a b b1 (inr tt) F) as (rows1 & Hu1 & Hc1 & Hk1).
      destruct (IH b1 b' res H) as (rows2 & Hu2 & Hc2 & Hk2).
      exists (rows1 ++ rows2). split; [rewrite Hu2, Hu1, app_assoc; reflexivity|].
      split; [rewrite map_app, replayChunks_app, <- Hc1; exact Hc2|].
      cbn [flat_map]. destruct res as [e|u].
      * destruct Hk2 as (rest & Hk2). exists rest.
        rewrite map_app, Hk1, Hk2, app_assoc. reflexivity.
      * rewrite map_app, Hk1, Hk2. reflexivity.
Qed.

Lemma bind_inv {S A B} (m : M S A) (k : A -> M S B) (s s' : S) (r : Error + B) :
  bind m k s = (s', r) ->
  (exists s1 a, m s = (s1, inr a) /\ k a s1 = (s', r))
  \/ (exists e, m s = (s', inl e) /\ r = inl e).
Proof.
  unfold bind. destruct (m s) as [s1 [e|a]]; intros H.
  - right. injection H as <- <-. eauto.
  - left. eauto.
Qed.

(** Unfolds the primitives of the monad in a hypothesis. *)
Ltac prim H := cbv [gets modify ret throw] in H.

Lemma setDim_chunks (d : Z) (s s' : VectorStore) (r : Error + unit) :
  setDim d s = (s', r) -> chunks s' = chunks s.
Proof.
  unfold setDim. destruct (meta_dim s) as [v|]; [destruct (negb (v =? d)%Z)|];
    intros H; injection H as <- _; reflexivity.
Qed.

Lemma upsertMany_chunks (rows : list Row) (s s' : VectorStore) (r : Error + unit) :
  upsertMany rows s = (s', r) ->
  chunks s' = match r with
              | inr _ => replayChunks (List.map rowKey rows) (chunks s)
              | inl _ => chunks s
              end.
Proof.
  destruct r as [e|[]]; intros H.
  - apply upsertMany_failure in H. tauto.
  - apply upsertMany_success in H as (s0 & d & G & _ & ->).
    apply getDim_tables in G as (_ & <- & _). apply upsertAll_chunks.
Qed.

Section Run.

Variable sha1 : jstring -> jstring.
Variable JSON_stringify : ChunkMeta -> jstring.
Variable extractEntities : jstring -> list jstring.
Variable extractConcepts : jstring -> list jstring.
Variable baseMeta : BaseMeta.

Lemma mkRow_key (rel : jstring) (vectors : list (list Q)) (j : nat) (c : MeaningChunk) :
  rowKey (mkRow sha1 JSON_stringify rel vectors j c)
  = rowKey (mkRow sha1 JSON_stringify rel [] j c).
Proof. reflexivity. Qed.

Lemma batch_keys (rel : jstring) (vectors : list (list Q)) (slice : list MeaningChunk) :
  List.map rowKey (imap (mkRow sha1 JSON_stringify rel vectors) slice)
  = batchKeys sha1 JSON_stringify rel slice.
Proof.
  unfold batchKeys. change (List.map rowKey) with (fmap (M := list) rowKey).
  rewrite fmap_imap. apply imap_ext. intros. apply mkRow_key.
Qed.

Lemma write_rows (rows : list Row) (b b' : BakeState) (res : Error + unit) :
  (liftStore (upsertMany rows) ;;; modify (countRows rows)) b = (b', res) ->
  (res = inr tt /\ upserted b' = upserted b ++ rows
   /\ chunks (store b') = replayChunks (List.map rowKey rows) (chunks (store b)))
  \/ (exists e, res = inl e /\ upserted b' = upserted b
                /\ chunks (store b') = chunks (store b)).
Proof.
  unfold bind, liftStore, modify.
  destruct (upsertMany rows (store b)) as [s' [e|[]]] eqn:U; intros H;
    injection H as <- <-; apply upsertMany_chunks in U.
  - right. exists e. auto.
  - left. auto.
Qed.

Variable service : nat -> Providers.

Lemma bakeBatch_runs (rel : jstring) :
  RunsAs (bakeBatch sha1 JSON_stringify service rel) (batchKeys sha1 JSON_stringify rel).
Proof.
  intros slice b b' res H.
  assert (Hfail : forall b0 e, upserted b0 = upserted b ->
            chunks (store b0) = chunks (store b) -> (b', res) = (b0, inl e) ->
            exists rows, upserted b' = upserted b ++ rows
              /\ chunks (store b') = replayChunks (List.map rowKey rows) (chunks (store b))
              /\ match res with
                 | inr _ => List.map rowKey rows = batchKeys sha1 JSON_stringify rel slice
                 | inl _ => exists rest,
                     batchKeys sha1 JSON_stringify rel slice = List.map rowKey rows ++ rest
                 end).
  { intros b0 e Hu Hc E. injection E as -> ->. exists []. rewrite app_nil_r.
    split; [exact Hu|]. split; [exact Hc|]. eexists. reflexivity. }
  assert (Hwrite : forall b0 vectors, upserted b0 = upserted b ->
            chunks (store b0) = chunks (store b) ->
            (liftStore (upsertMany (imap (mkRow sha1 JSON_stringify rel vectors) slice)) ;;;
             modify (countRows (imap (mkRow sha1 JSON_stringify rel vectors) slice))) b0
            = (b', res) ->
            exists rows, upserted b' = upserted b ++ rows
              /\ chunks (store b') = replayChunks (List.map rowKey rows) (chunks (store b))
              /\ match res with
                 | inr _ => List.map rowKey rows = batchKeys sha1 JSON_stringify rel slice
                 | inl _ => exists rest,
                     batchKeys sha1 JSON_stringify rel slice = List.map rowKey rows ++ rest
                 end).
  { intros b0 vectors Hu Hc W.
    apply write_rows in W as [(-> & Hu' & Hc')|(e & -> & Hu' & Hc')].
    - eexists. rewrite Hu', Hc', Hu, Hc. split; [reflexivity|]. split; [reflexivity|].
      apply batch_keys.
    - exists []. rewrite app_nil_r, Hu', Hc', Hu, Hc. repeat split. eexists. reflexivity. }
  unfold bakeBatch in H.
  apply bind_inv in H as [(b1 & n & G & H)|(e & G & _)]; [|prim G; discriminate].
  prim G. injection G as <- <-.
  apply bind_inv in H as [(b1 & [] & G & H)|(e & G & _)]; [|prim G; discriminate].
  prim G. injection G as <-.
  destruct (embedBatch (service (calls b)) (List.map text slice)) as [e|[vectors d]].
  - symmetry in H. eapply Hfail; [| |exact H]; reflexivity.
  - apply bind_inv in H as [(b1 & ds & G & H)|(e & G & _)]; [|prim G; discriminate].
    prim G. injection G as <- <-. cbn [dimSet countCall] in H.
    apply bind_inv in H as [(b1 & [] & G & H)|(e & G & ->)].
    + destruct (dimSet b); cbn [negb] in G.
      * prim G. injection G as <-. eapply Hwrite; [| |exact H]; reflexivity.
      * apply bind_inv in G as [(b2 & [] & G1 & G2)|(e & G1 & E)]; [|discriminate].
        prim G2. injection G2 as <-.
        unfold liftStore in G1. cbn [store countCall] in G1.
        destruct (setDim d (store b)) as [s1 r] eqn:SD. injection G1 as <- ->.
        eapply Hwrite; [| |exact H]; [reflexivity|]. cbn. eapply setDim_chunks, SD.
    + destruct (dimSet b); cbn [negb] in G; [discriminate|].
      apply bind_inv in G as [(b2 & [] & G1 & G2)|(e' & G1 & E)]; [discriminate|].
      unfold liftStore in G1. cbn [store countCall] in G1.
      destruct (setDim d (store b)) as [s1 r] eqn:SD. injection G1 as <- ->.
      eapply (Hfail _ e); [| |reflexivity]; [reflexivity|].
      cbn. eapply setDim_chunks, SD.
Qed.

Lemma bakeFile_runs :
  RunsAs (bakeFile sha1 JSON_stringify extractEntities extractConcepts service baseMeta)
         (fileKeys sha1 JSON_stringify extractEntities extractConcepts baseMeta).
Proof.
  intros doc b b' res H. unfold bakeFile in H. unfold fileKeys.
  destruct (chunksOf extractEntities extractConcepts baseMeta (fst doc) (snd doc)) eqn:C.
  - injection H as <- <-. exists []. rewrite app_nil_r. auto.
  - eapply (RunsAs_forEach _ _ (bakeBatch_runs (fst doc))). exact H.
Qed.

Lemma bake_runs (docs : list (jstring * jstring)) (db : VectorStore)
    (b : BakeState) (res : Error + unit) :
  bake sha1 JSON_stringify extractEntities extractConcepts service baseMeta docs db
    = (b, res) ->
  chunks (store b) = replayChunks (List.map rowKey (upserted b)) (chunks db)
  /\ match res with
     | inr _ => List.map rowKey (upserted b)
                = bakeKeys sha1 JSON_stringify extractEntities extractConcepts baseMeta docs
     | inl _ => exists rest,
         bakeKeys sha1 JSON_stringify extractEntities extractConcepts baseMeta docs
         = List.map rowKey (upserted b) ++ rest
     end.
Proof.
  unfold bake. intros H.
  destruct (RunsAs_forEach _ _ bakeFile_runs docs _ _ _ H) as (rows & Hu & Hc & Hk).
  cbn in Hu, Hc. subst rows. auto.
Qed.

End Run.

(** C4.  After a run of [bake] that completed, a second run over the same
    documents leaves the set of stored chunk ids, their number and their
    row ids as they are, whatever the embedding service answers; the rows
    it writes have, in order, the ids, paths, texts, hashes and metadata of
    the rows of the first run; when it completes too, it has written all
    of them and the table of chunks is unchanged. *)
Theorem rebake_idempotent (sha1 : jstring -> jstring) (JSON_stringify : ChunkMeta -> jstring)
    (extractEntities extractConcepts : jstring -> list jstring)
    (service1 service2 : nat -> Providers) (baseMeta : BaseMeta)
    (docs : list (jstring * jstring)) (db : VectorStore)
    (b1 b2 : BakeState) (res : Error + unit) :
  bake sha1 JSON_stringify extractEntities extractConcepts service1 baseMeta docs db
    = (b1, inr tt) ->
  bake sha1 JSON_stringify extractEntities extractConcepts service2 baseMeta docs (store b1)
    = (b2, res) ->
  dom (chunks (store b2)) = dom (chunks (store b1))
  /\ size (chunks (store b2)) = size (chunks (store b1))
  /\ (forall i c, chunks (store b1) !! i = Some c ->
        exists c', chunks (store b2) !! i = Some c' /\ rid c' = rid c)
  /\ (exists rest,
        List.map rowKey (upserted b1) = List.map rowKey (upserted b2) ++ rest)
  /\ (res = inr tt ->
        List.map rowKey (upserted b2) = List.map rowKey (upserted b1)
        /\ chunks (store b2) = chunks (store b1)).
Proof.
  intros R1 R2.
  apply bake_runs in R1 as [T1 K1]. apply bake_runs in R2 as [T2 K2].
  remember (bakeKeys sha1 JSON_stringify extractEntities extractConcepts baseMeta docs)
    as K eqn:HK. clear HK.
  assert (Hsub : list_to_set (C := gset jstring) (List.map keyId (List.map rowKey (upserted b2)))
                 ⊆ dom (chunks (store b1))).
  { rewrite T1, replayChunks_dom, K1.
    destruct res as [e|u].
    - destruct K2 as [rest K2]. rewrite K2, List.map_app, list_to_set_app_L.
      intros x Hx. apply elem_of_union. left. apply elem_of_union. left. exact Hx.
    - rewrite K2. intros x Hx. apply elem_of_union. left. exact Hx. }
  assert (Hdom : dom (chunks (store b2)) = dom (chunks (store b1))).
  { rewrite T2, replayChunks_dom. apply subseteq_union_1_L, Hsub. }
  split; [exact Hdom|]. split; [|split; [|split]].
  - rewrite <- !size_dom, Hdom. reflexivity.
  - intros i c Hc. rewrite T2. apply replayChunks_rid_stable, Hc.
  - rewrite K1. destruct res as [e|u].
    + exact K2.
    + exists []. rewrite app_nil_r. symmetry. exact K2.
  - intros ->. split; [congruence|].
    rewrite T2, K2, T1, K1. apply replayChunks_idem.
Qed.

Lemma rebake_witness :
  let b1 := fst (bake plainHash plainJSON noTerms noTerms constantService noBaseMeta
                   smallCorpus emptyStore) in
  let r2 := bake plainHash plainJSON noTerms noTerms constantService noBaseMeta
              smallCorpus (store b1) in
  dom (chunks (store (fst r2))) = dom (chunks (store b1))
  /\ size (chunks (store (fst r2))) = size (chunks (store b1))
  /\ (forall i c, chunks (store b1) !! i = Some c ->
        exists c', chunks (store (fst r2)) !! i = Some c' /\ rid c' = rid c)
  /\ (exists rest,
        List.map rowKey (upserted b1) = List.map rowKey (upserted (fst r2)) ++ rest)
  /\ (snd r2 = inr tt ->
        List.map rowKey (upserted (fst r2)) = List.map rowKey (upserted b1)
        /\ chunks (store (fst r2)) = chunks (store b1)).
Proof.
  intros b1 r2.
  apply (rebake_idempotent plainHash plainJSON noTerms noTerms
           constantService constantService noBaseMeta smallCorpus emptyStore
           b1 (fst r2) (snd r2)).
  - vm_compute. reflexivity.
  - vm_compute. reflexivity.
Defined.

(** *** The ids of the blocks of a split section *)

(** The id of a row: the hash of the file and the section path, followed,
    when the chunk has a parent id, by its position [j] in the batch. *)
Lemma row_id_unsplit (sha1 : jstring -> jstring) (JSON_stringify : ChunkMeta -> jstring)
    (rel : jstring) (vectors : list (list Q)) (j : nat) (c : MeaningChunk) :
  parent_chunk_id (meta c) = None ->
  row_id (mkRow sha1 JSON_stringify rel vectors j c)
  = sha1 (source_file (meta c) ++ lit ":" ++ section_path (meta c)).
Proof. intros H. unfold mkRow. rewrite H. cbn. rewrite app_nil_r. reflexivity. Qed.

Lemma row_id_split (sha1 : jstring -> jstring) (JSON_stringify : ChunkMeta -> jstring)
    (rel : jstring) (vectors : list (list Q)) (j : nat) (c : MeaningChunk)
    (p : jstring) :
  parent_chunk_id (meta c) = Some p -> p <> [] ->
  row_id (mkRow sha1 JSON_stringify rel vectors j c)
  = sha1 (source_file (meta c) ++ lit ":" ++ section_path (meta c)
          ++ lit ":" ++ decimal j).
Proof.
  intros H Hp. unfold mkRow. rewrite H. destruct p; [contradiction | reflexivity].
Qed.

(** C1, on the failing input.  The file [twoSectionDoc] has an unsplit
    introduction and a section split into two blocks; the ids of the two
    blocks hash [rites.md:h:1] and [rites.md:h:2], their positions in the
    batch, where their indices in the split are 0 and 1. *)
Theorem split_ids_follow_batch_position (sha1 : jstring -> jstring)
    (JSON_stringify : ChunkMeta -> jstring)
    (extractEntities extractConcepts : jstring -> list jstring) (baseMeta : BaseMeta) :
  List.map (fun c => (section_path (meta c), parent_chunk_id (meta c)))
    (chunksOf extractEntities extractConcepts baseMeta (lit "rites.md") twoSectionDoc)
  = [(lit "intro", None);
     (lit "h", Some (lit "rites.md:h"));
     (lit "h", Some (lit "rites.md:h"))]
  /\ List.map keyId
       (fileKeys sha1 JSON_stringify extractEntities extractConcepts baseMeta
          (lit "rites.md", twoSectionDoc))
     = [sha1 (lit "rites.md:intro"); sha1 (lit "rites.md:h:1"); sha1 (lit "rites.md:h:2")].
Proof. split; vm_compute; reflexivity. Qed.

(** Across the boundary of a batch the positions start again: the first
    and the last of the seventeen blocks of one section share their id. *)
Lemma seventeen_blocks_sixteen_ids (sha1 : jstring -> jstring)
    (JSON_stringify : ChunkMeta -> jstring)
    (extractEntities extractConcepts : jstring -> list jstring) (baseMeta : BaseMeta) :
  List.map keyId
    (fileKeys sha1 JSON_stringify extractEntities extractConcepts baseMeta
       (lit "big.md", seventeenParagraphs))
  = List.map (fun j => sha1 (lit "big.md:intro:" ++ decimal j)) (seq 0 16 ++ [0%nat]).
Proof. vm_compute. reflexivity. Qed.

(** The rows of the example corpus: one chunk, whose id hashes the file
    name and the section path. *)
Example small_corpus_keys :
  bakeKeys plainHash plainJSON noTerms noTerms noBaseMeta smallCorpus
  = [(lit "rites.md:major-rites", lit "rites.md",
      lit "Major Rites" ++ [LF; LF] ++ lit "Sync Days are kept.",
      lit "rites.md:" ++ lit "Major Rites" ++ [LF; LF] ++ lit "Sync Days are kept.",
      Some (lit "major-rites"))].
Proof. vm_compute. reflexivity. Qed.

End BakeProofs.

(** * The shapes of slugs, blocks, sections and chunks *)
Module ChunkerLaws.
Import SectionizerProofs.

(** ** [estimateTokens] *)

Lemma Qceiling_quarter (n : Z) : Qceiling (inject_Z n / 4) = ((n + 3) / 4)%Z.
Proof.
  unfold Qceiling, Qfloor, Qdiv, Qmult, Qinv, Qopp, inject_Z. cbn.
  rewrite ?Z.mul_1_r, ?Pos.mul_1_l.
  pose proof (Z.div_mod (- n) 4 ltac:(lia)) as A.
  pose proof (Z.mod_pos_bound (- n) 4 ltac:(lia)) as B.
  pose proof (Z.div_mod (n + 3) 4 ltac:(lia)) as C.
  pose proof (Z.mod_pos_bound (n + 3) 4 ltac:(lia)) as D.
  lia.
Qed.

Lemma estimateTokens_pos (s : jstring) : (1 <= estimateTokens s)%Z.
Proof. unfold estimateTokens. lia. Qed.

(** X1. The token estimate of plain text is a quarter of its length.  The
    estimate of any text is at least one; for a text without a vertical bar
    and without a list item both bonuses are zero, and the estimate is the
    quarter of the length, rounded up, or one for the empty text.  (With
    both bonuses zero the factor is 1 and every intermediate value is a
    whole number, so the binary arithmetic of the source is exact there.) *)
Theorem estimateTokens_plain_text (s : jstring) :
  (1 <= estimateTokens s)%Z
  /\ (filter (fun c => isC "|" c = true) s = [] ->
      countMatches reListItem s = 0%nat ->
      estimateTokens s = Z.max 1 ((Z.of_nat (length s) + 3) / 4)).
Proof.
  split; [unfold estimateTokens; lia|].
  intros Hp Hl. unfold estimateTokens. rewrite Hp, Hl.
  unfold lengthQ at 1. rewrite Qceiling_quarter.
  set (a := ((Z.of_nat (length s) + 3) / 4)%Z).
  assert (E : (inject_Z a * (1 + countQ (length (@nil ascii)) * 0.03 + countQ 0 * 0.05)
               == inject_Z a)%Q).
  { unfold countQ. cbn [length Z.of_nat]. ring. }
  rewrite (Qfloor_comp _ _ E), Qfloor_Z. reflexivity.
Qed.

(** ** [normalizeBlock] *)

Lemma isLF_isWs (c : ascii) : isLF c = true -> isWs c = true.
Proof.
  unfold isLF, isWs, isChar, between. intros H. apply Nat.eqb_eq in H. rewrite H.
  reflexivity.
Qed.

Lemma isLF_eqb (c : ascii) : Ascii.eqb LF c = isLF c.
Proof. destruct c as [[] [] [] [] [] [] [] []]; reflexivity. Qed.

Lemma dropWhile_idem (p : ascii -> bool) (s : jstring) :
  dropWhile p (dropWhile p s) = dropWhile p s.
Proof.
  induction s as [|c t IH]; [reflexivity|]. cbn.
  destruct (p c) eqn:E; [exact IH|]. cbn. rewrite E. reflexivity.
Qed.

Lemma dropWhileEnd_idem (p : ascii -> bool) (s : jstring) :
  dropWhileEnd p (dropWhileEnd p s) = dropWhileEnd p s.
Proof.
  induction s as [|c t IH]; [reflexivity|]. cbn.
  destruct (dropWhileEnd p t) as [|a l] eqn:E.
  - destruct (p c) eqn:Ec; [reflexivity|]. cbn. rewrite Ec. reflexivity.
  - cbn [dropWhileEnd] in *. rewrite IH. reflexivity.
Qed.

Lemma dropWhileEnd_dropWhile (p : ascii -> bool) (s : jstring) :
  dropWhileEnd p (dropWhile p s) = dropWhile p (dropWhileEnd p s).
Proof.
  induction s as [|c t IH]; [reflexivity|]. cbn [dropWhile].
  destruct (p c) eqn:Ec.
  - rewrite IH. cbn [dropWhileEnd].
    destruct (dropWhileEnd p t) as [|a l]; cbn [dropWhile]; rewrite Ec; reflexivity.
  - cbn [dropWhileEnd].
    destruct (dropWhileEnd p t) as [|a l]; rewrite ?Ec; cbn [dropWhile]; rewrite Ec;
      reflexivity.
Qed.

Lemma startsInk_fix (s : jstring) : startsInk s = true -> dropWhile isWs s = s.
Proof.
  destruct s as [|c t]; [reflexivity|]. cbn. intros H.
  apply negb_true_iff in H. rewrite H. reflexivity.
Qed.

Lemma startsInk_dropWhile (s : jstring) : startsInk (dropWhile isWs s) = true.
Proof.
  induction s as [|c t IH]; [reflexivity|]. cbn.
  destruct (isWs c) eqn:E; [exact IH|]. cbn. rewrite E. reflexivity.
Qed.

Lemma endsInk_fix (s : jstring) :
  s = [] \/ endsInk s = true -> dropWhileEnd isWs s = s.
Proof.
  induction s as [|c t IH]; [reflexivity|]. intros [H|H]; [discriminate|].
  cbn [dropWhileEnd]. destruct t as [|a l].
  - cbn in *. apply negb_true_iff in H. rewrite H. reflexivity.
  - rewrite IH by (right; exact H). reflexivity.
Qed.

Lemma endsInk_dropWhileEnd (s : jstring) :
  dropWhileEnd isWs s = [] \/ endsInk (dropWhileEnd isWs s) = true.
Proof.
  induction s as [|c t IH]; [left; reflexivity|]. cbn [dropWhileEnd].
  destruct (dropWhileEnd isWs t) as [|a l] eqn:E.
  - destruct (isWs c) eqn:Ec; [left; reflexivity|]. right. cbn. rewrite Ec. reflexivity.
  - right. destruct IH as [H|H]; [discriminate|]. exact H.
Qed.

Lemma endsInk_dropWhile (s : jstring) :
  endsInk s = true -> endsInk (dropWhile isWs s) = true.
Proof.
  induction s as [|c t IH]; [discriminate|]. intros H. cbn [dropWhile].
  destruct (isWs c) eqn:Ec; [|exact H].
  destruct t as [|a l]; [cbn in H; rewrite Ec in H; discriminate|].
  apply IH. exact H.
Qed.

Lemma endsInk_app (a b : jstring) : b <> [] -> endsInk (a ++ b) = endsInk b.
Proof.
  intros Hb. induction a as [|c t IH]; [reflexivity|].
  cbn [app endsInk]. destruct (t ++ b) eqn:E; [|exact IH].
  destruct t; destruct b; try discriminate. contradiction.
Qed.

Lemma endsInk_nonempty (s : jstring) : endsInk s = true -> s <> [].
Proof. destruct s; [discriminate|discriminate]. Qed.

Lemma endsInk_collapse (s : jstring) : forall n,
  endsInk s = true -> endsInk (collapseNewlines n s) = true.
Proof.
  induction s as [|c t IH]; intros n H; [discriminate|].
  cbn [collapseNewlines]. destruct t as [|a l].
  - cbn in H. apply negb_true_iff in H.
    destruct (isLF c) eqn:Ec; [rewrite (isLF_isWs c Ec) in H; discriminate|].
    cbn [collapseNewlines]. rewrite endsInk_app by discriminate.
    cbn. rewrite H. reflexivity.
  - destruct (isLF c) eqn:Ec; [apply IH; exact H|].
    rewrite endsInk_app by discriminate.
    specialize (IH 0%nat H).
    cbn [endsInk]. destruct (collapseNewlines 0 (a :: l)) eqn:E; [discriminate|exact IH].
Qed.

Lemma startsInk_collapse (s : jstring) :
  startsInk s = true -> startsInk (collapseNewlines 0 s) = true.
Proof.
  destruct s as [|c t]; [reflexivity|]. cbn [startsInk collapseNewlines]. intros H.
  destruct (isLF c) eqn:Ec.
  - apply negb_true_iff in H. rewrite (isLF_isWs c Ec) in H. discriminate.
  - cbn. exact H.
Qed.

Lemma includes_cons (c : ascii) (s needle : jstring) :
  includes (c :: s) needle = false -> includes s needle = false.
Proof. cbn [includes]. intros H. apply orb_false_iff in H. tauto. Qed.

Lemma triple_after_ink (c : ascii) (r : jstring) :
  isLF c = false ->
  includes (c :: r) tripleLF = includes r tripleLF
  /\ includes (LF :: c :: r) tripleLF = includes r tripleLF
  /\ includes (LF :: LF :: c :: r) tripleLF = includes r tripleLF.
Proof.
  intros Ec. unfold tripleLF. cbn [includes startsWith].
  change (Ascii.eqb LF LF) with true. rewrite (isLF_eqb c), Ec.
  cbn [andb orb]. rewrite ?andb_false_r. cbn [andb orb]. auto.
Qed.

Lemma no_triple_collapse (s : jstring) : forall n,
  includes (collapseNewlines n s) tripleLF = false.
Proof.
  induction s as [|c t IH]; intros n; cbn [collapseNewlines].
  - destruct n as [|[|[|n]]]; reflexivity.
  - destruct (isLF c) eqn:Ec; [apply IH|].
    specialize (IH 0%nat).
    destruct (triple_after_ink c (collapseNewlines 0 t) Ec) as (H1 & H2 & H3).
    destruct n as [|[|n]]; cbn [Nat.min repeat app].
    + rewrite H1. exact IH.
    + rewrite H2. exact IH.
    + change (Nat.min (S (S n)) 2) with (S (S (Nat.min n 0))). rewrite Nat.min_0_r.
      cbn [repeat app]. rewrite H3. exact IH.
Qed.

Lemma repeat_shift (n : nat) (t : jstring) :
  repeat LF (S n) ++ t = repeat LF n ++ LF :: t.
Proof.
  induction n as [|n IH]; [reflexivity|].
  cbn [repeat app] in *. rewrite IH. reflexivity.
Qed.

Lemma collapse_fix (s : jstring) : forall n,
  includes (repeat LF n ++ s) tripleLF = false ->
  collapseNewlines n s = repeat LF n ++ s.
Proof.
  assert (R : forall n, includes (repeat LF (3 + n)) tripleLF = true) by (intros; reflexivity).
  induction s as [|c t IH]; intros n H; cbn [collapseNewlines].
  - rewrite app_nil_r in *.
    destruct n as [|[|[|n]]]; try reflexivity.
    pose proof (R n) as Rn. change (3 + n)%nat with (S (S (S n))) in Rn. congruence.
  - destruct (isLF c) eqn:Ec.
    + assert (E : c = LF).
      { rewrite <- isLF_eqb in Ec. apply Ascii.eqb_eq in Ec. congruence. }
      subst c. rewrite IH.
      * apply repeat_shift.
      * rewrite repeat_shift. exact H.
    + assert (Hn : (n <= 2)%nat).
      { destruct n as [|[|[|n]]]; try lia.
        change (repeat LF (S (S (S n))) ++ c :: t) with (LF :: LF :: LF :: repeat LF n ++ c :: t) in H.
        cbn in H. discriminate. }
      rewrite Nat.min_l by exact Hn. f_equal. f_equal.
      apply (IH 0%nat). cbn [repeat app].
      clear IH Hn. induction n as [|n IHn]; cbn [repeat app] in H.
      * exact (includes_cons _ _ _ H).
      * apply IHn. exact (includes_cons _ _ _ H).
Qed.

Lemma normalizeBlock_tight (s : jstring) :
  startsInk (normalizeBlock s) = true
  /\ (normalizeBlock s = [] \/ endsInk (normalizeBlock s) = true).
Proof.
  unfold normalizeBlock, trimStart, trimEnd. split.
  - apply startsInk_collapse, startsInk_dropWhile.
  - destruct (endsInk_dropWhileEnd s) as [E|E].
    + rewrite E. left. reflexivity.
    + right. apply endsInk_collapse, endsInk_dropWhile, E.
Qed.

Lemma normalizeBlock_idem (s : jstring) :
  normalizeBlock (normalizeBlock s) = normalizeBlock s.
Proof.
  destruct (normalizeBlock_tight s) as [A B].
  unfold normalizeBlock at 1. unfold trimStart, trimEnd.
  rewrite (endsInk_fix _ B), (startsInk_fix _ A).
  apply (collapse_fix _ 0%nat). cbn [repeat app].
  unfold normalizeBlock. apply no_triple_collapse.
Qed.

(** X2. A normalized block is normal: it neither begins nor ends with
    white space, it holds no three line feeds in a row, and normalizing it
    again changes nothing. *)
Theorem normalizeBlock_normal (s : jstring) :
  normalizeBlock (normalizeBlock s) = normalizeBlock s
  /\ trim (normalizeBlock s) = normalizeBlock s
  /\ includes (normalizeBlock s) tripleLF = false.
Proof.
  split; [apply normalizeBlock_idem|]. split.
  - destruct (normalizeBlock_tight s) as [A B].
    unfold trim, trimStart, trimEnd.
    rewrite (startsInk_fix _ A). apply endsInk_fix, B.
  - unfold normalizeBlock. apply no_triple_collapse.
Qed.

(** ** [slugify] *)

Ltac ascii_cases c :=
  destruct c as [[] [] [] [] [] [] [] []]; vm_compute;
  intros; try reflexivity; try discriminate; try (repeat split; reflexivity).

Lemma lower_of_slugChar (c : ascii) :
  isSlugChar c = true -> isSlugOut (lowerChar c) || isWs (lowerChar c) = true.
Proof. ascii_cases c. Qed.

Lemma lower_of_alnum (c : ascii) : isAlnum c = true -> isAlnum (lowerChar c) = true.
Proof. ascii_cases c. Qed.

Lemma alnum_plain (c : ascii) :
  isAlnum c = true ->
  isWs c = false /\ isHyphen c = false /\ isHyphenOrSlash c = false
  /\ isSlugChar c = true.
Proof. ascii_cases c. Qed.

Lemma slugOut_plain (c : ascii) :
  isSlugOut c = true ->
  isWs c = false /\ isMarkdownMarker c = false /\ isC "[" c = false
  /\ isC "!" c = false /\ isSlugChar c = true /\ lowerChar c = c.
Proof. ascii_cases c. Qed.

Lemma slugOut_hyphen : isSlugOut "-"%char = true.
Proof. reflexivity. Qed.

Lemma Forall_squeeze (p : ascii -> bool) (P : ascii -> Prop) (s : jstring) : forall b,
  P "-"%char -> Forall (fun c => p c = false -> P c) s -> Forall P (squeeze p b s).
Proof.
  induction s as [|c t IH]; intros b Hh F; [constructor|].
  inversion F as [|? ? Hc Ft]; subst. cbn [squeeze].
  destruct (p c) eqn:Ec.
  - destruct b; [apply IH; assumption|]. constructor; [exact Hh|apply IH; assumption].
  - constructor; [apply Hc; reflexivity|apply IH; assumption].
Qed.

Lemma Forall_dropWhile (p : ascii -> bool) (P : ascii -> Prop) (s : jstring) :
  Forall P s -> Forall P (dropWhile p s).
Proof.
  induction 1 as [|c t Hc Ft IH]; [constructor|]. cbn.
  destruct (p c); [exact IH|constructor; assumption].
Qed.

Lemma Forall_dropWhileEnd (p : ascii -> bool) (P : ascii -> Prop) (s : jstring) :
  Forall P s -> Forall P (dropWhileEnd p s).
Proof.
  induction 1 as [|c t Hc Ft IH]; [constructor|]. cbn.
  destruct (dropWhileEnd p t) as [|a l].
  - destruct (p c); constructor; [exact Hc|constructor].
  - constructor; assumption.
Qed.

Lemma dropWhileEnd_head (p : ascii -> bool) (s : jstring) (a : ascii) (l : jstring) :
  dropWhileEnd p s = a :: l -> exists l0, s = a :: l0.
Proof.
  destruct s as [|c t]; [discriminate|]. cbn.
  destruct (dropWhileEnd p t) as [|x y].
  - destruct (p c); [discriminate|]. intros H; inversion H; subst. eauto.
  - intros H; inversion H; subst. eauto.
Qed.

Lemma hasDoubleHyphen_cons (a b : ascii) (t : jstring) :
  hasDoubleHyphen (a :: b :: t) = (isHyphen a && isHyphen b) || hasDoubleHyphen (b :: t).
Proof. reflexivity. Qed.

Lemma hasDoubleHyphen_tail (c : ascii) (t : jstring) :
  hasDoubleHyphen (c :: t) = false -> hasDoubleHyphen t = false.
Proof.
  destruct t as [|b r]; [reflexivity|]. rewrite hasDoubleHyphen_cons. intros H.
  apply orb_false_iff in H. tauto.
Qed.

Lemma hasDoubleHyphen_dropWhile (p : ascii -> bool) (s : jstring) :
  hasDoubleHyphen s = false -> hasDoubleHyphen (dropWhile p s) = false.
Proof.
  induction s as [|c t IH]; [reflexivity|]. intros H. cbn [dropWhile].
  destruct (p c); [apply IH, (hasDoubleHyphen_tail c t H)|exact H].
Qed.

Lemma hasDoubleHyphen_dropWhileEnd (p : ascii -> bool) (s : jstring) :
  hasDoubleHyphen s = false -> hasDoubleHyphen (dropWhileEnd p s) = false.
Proof.
  induction s as [|c t IH]; [reflexivity|]. intros H. cbn [dropWhileEnd].
  destruct (dropWhileEnd p t) as [|a l] eqn:E.
  - destruct (p c); reflexivity.
  - destruct (dropWhileEnd_head p t a l E) as [l0 ->].
    specialize (IH (hasDoubleHyphen_tail c _ H)).
    rewrite hasDoubleHyphen_cons in *. apply orb_false_iff in H as [H1 _].
    rewrite H1. exact IH.
Qed.

(** Squeezing the runs of hyphens leaves no two hyphens in a row. *)
Lemma squeeze_no_double (s : jstring) : forall b,
  hasDoubleHyphen (squeeze isHyphen b s) = false
  /\ (b = true -> match squeeze isHyphen b s with
                  | c :: _ => isHyphen c = false
                  | [] => True
                  end).
Proof.
  induction s as [|c t IH]; intros b; [split; [reflexivity|intros _; exact I]|].
  cbn [squeeze]. destruct (isHyphen c) eqn:Ec.
  - destruct b.
    + exact (IH true).
    + destruct (IH true) as [A B]. specialize (B eq_refl). split; [|discriminate].
      destruct (squeeze isHyphen true t) as [|x r]; [reflexivity|].
      rewrite hasDoubleHyphen_cons, B, andb_false_r. exact A.
  - destruct (IH false) as [A _]. split; [|intros _; exact Ec].
    destruct (squeeze isHyphen false t) as [|x r]; [reflexivity|].
    rewrite hasDoubleHyphen_cons, Ec. exact A.
Qed.

(** What the steps do to a text that begins with a letter or a digit. *)
Lemma startsAlnum_filter (s : jstring) :
  startsAlnum s = true ->
  startsAlnum (filter (fun c => isSlugChar c = true) s) = true.
Proof.
  destruct s as [|c t]; [discriminate|]. cbn [startsAlnum]. intros H.
  rewrite filter_cons_True by (apply alnum_plain, H). exact H.
Qed.

Lemma startsAlnum_lower (s : jstring) :
  startsAlnum s = true -> startsAlnum (toLowerCase s) = true.
Proof.
  destruct s as [|c t]; [discriminate|]. cbn. apply lower_of_alnum.
Qed.

Lemma startsAlnum_squeeze (p : ascii -> bool) (s : jstring) :
  (forall c, isAlnum c = true -> p c = false) ->
  startsAlnum s = true -> startsAlnum (squeeze p false s) = true.
Proof.
  intros Hp. destruct s as [|c t]; [discriminate|]. cbn [startsAlnum squeeze]. intros H.
  rewrite (Hp c H). exact H.
Qed.

Lemma startsAlnum_trimmed (s : jstring) :
  startsAlnum s = true ->
  startsAlnum (dropWhileEnd isHyphenOrSlash (dropWhile isHyphenOrSlash s)) = true.
Proof.
  destruct s as [|c t]; [discriminate|]. cbn [startsAlnum dropWhile]. intros H.
  destruct (alnum_plain c H) as (_ & _ & E & _). rewrite E.
  cbn [dropWhileEnd]. destruct (dropWhileEnd isHyphenOrSlash t); rewrite ?E; exact H.
Qed.

Lemma dropWhile_head (p : ascii -> bool) (s : jstring) :
  match dropWhile p s with
  | c :: _ => p c = false
  | [] => True
  end.
Proof.
  induction s as [|c t IH]; [exact I|]. cbn.
  destruct (p c) eqn:E; [exact IH|exact E].
Qed.

Lemma Forall_filter_slug (s : jstring) :
  Forall (fun c => isSlugChar c = true) (filter (fun c => isSlugChar c = true) s).
Proof.
  induction s as [|c t IH]; [constructor|].
  rewrite filter_cons. destruct (decide (isSlugChar c = true)); [constructor|]; assumption.
Qed.

Lemma slugShaped_section : slugShaped (lit "section").
Proof.
  split; [reflexivity|]. split; [repeat constructor|]. split; reflexivity.
Qed.

Lemma dropWhileEnd_keeps (p : ascii -> bool) (s : jstring) :
  startsAlnum s = true -> (forall c, isAlnum c = true -> p c = false) ->
  dropWhileEnd p s <> [].
Proof.
  destruct s as [|c t]; [discriminate|]. cbn [startsAlnum dropWhileEnd]. intros H Hp.
  destruct (dropWhileEnd p t); [rewrite (Hp c H)|]; discriminate.
Qed.

Lemma slugify_shape (raw : jstring) : slugShaped (slugify raw).
Proof.
  unfold slugify. cbv zeta.
  set (s3 := replaceAll reLink linkInner _).
  set (s4 := dropWhile (fun c => negb (isAlnum c)) s3).
  set (s5 := filter (fun c => isSlugChar c = true) s4).
  set (s6 := toLowerCase s5).
  set (s7 := squeeze isWs false s6).
  set (s8 := squeeze isHyphen false s7).
  set (s9 := dropWhileEnd isHyphenOrSlash (dropWhile isHyphenOrSlash s8)).
  assert (F9 : Forall (fun c => isSlugOut c = true) s9).
  { apply Forall_dropWhileEnd, Forall_dropWhile.
    apply Forall_squeeze; [reflexivity|].
    apply Forall_forall. intros c Hc _. revert c Hc. apply Forall_forall.
    apply Forall_squeeze; [reflexivity|].
    unfold s6, toLowerCase. apply Forall_map.
    eapply Forall_impl; [apply Forall_filter_slug|].
    cbn beta. intros c Hc Hw. pose proof (lower_of_slugChar c Hc) as H.
    rewrite Hw, orb_false_r in H. exact H. }
  assert (D9 : hasDoubleHyphen s9 = false).
  { apply hasDoubleHyphen_dropWhileEnd, hasDoubleHyphen_dropWhile.
    exact (proj1 (squeeze_no_double s7 false)). }
  assert (E9 : dropWhileEnd isHyphenOrSlash s9 = s9) by apply dropWhileEnd_idem.
  destruct (startsAlnum s4) eqn:A4.
  - assert (A9 : startsAlnum s9 = true).
    { apply startsAlnum_trimmed.
      apply startsAlnum_squeeze; [intros x Hx; apply alnum_plain, Hx|].
      apply startsAlnum_squeeze; [intros x Hx; apply alnum_plain, Hx|].
      apply startsAlnum_lower, startsAlnum_filter, A4. }
    destruct s9 as [|x y] eqn:E; [discriminate|].
    split; [exact A9|]. split; [exact F9|]. split; [exact D9|exact E9].
  - assert (E4 : s4 = []).
    { pose proof (dropWhile_head (fun c => negb (isAlnum c)) s3) as H.
      fold s4 in H. destruct s4 as [|c r]; [reflexivity|].
      cbn in A4. rewrite A4 in H. discriminate. }
    assert (E : s9 = []).
    { unfold s9, s8, s7, s6, s5. rewrite E4. reflexivity. }
    rewrite E. exact slugShaped_section.
Qed.

(** The steps of [slugify] on a text that has the shape of a slug. *)
Lemma dropWhileEnd_none (p : ascii -> bool) (s : jstring) :
  Forall (fun c => p c = false) s -> dropWhileEnd p s = s.
Proof.
  induction 1 as [|c t Hc Ft IH]; [reflexivity|]. cbn. rewrite IH.
  destruct t; [rewrite Hc|]; reflexivity.
Qed.

Lemma dropWhile_none (p : ascii -> bool) (s : jstring) :
  Forall (fun c => p c = false) s -> dropWhile p s = s.
Proof. destruct 1 as [|c t Hc Ft]; [reflexivity|]. cbn. rewrite Hc. reflexivity. Qed.

Lemma filter_all (P : ascii -> Prop) `{forall c, Decision (P c)} (s : jstring) :
  Forall P s -> filter P s = s.
Proof.
  induction 1 as [|c t Hc Ft IH]; [reflexivity|].
  rewrite filter_cons_True by exact Hc. rewrite IH. reflexivity.
Qed.

Lemma squeeze_none (p : ascii -> bool) (s : jstring) : forall b,
  Forall (fun c => p c = false) s -> squeeze p b s = s.
Proof.
  induction s as [|c t IH]; intros b F; [reflexivity|].
  inversion F as [|? ? Hc Ft]; subst. cbn. rewrite Hc, IH by exact Ft. reflexivity.
Qed.

Lemma squeeze_single (s : jstring) :
  hasDoubleHyphen s = false ->
  squeeze isHyphen false s = s
  /\ (match s with c :: _ => isHyphen c = false | [] => True end ->
      squeeze isHyphen true s = s).
Proof.
  induction s as [|c t IH]; intros H; [split; reflexivity|].
  specialize (IH (hasDoubleHyphen_tail c t H)). destruct IH as [A B].
  cbn [squeeze]. destruct (isHyphen c) eqn:Ec.
  - split; [|intros Hc; discriminate].
    rewrite B; [destruct c as [[] [] [] [] [] [] [] []]; try discriminate; reflexivity|].
    destruct t as [|x r]; [exact I|].
    rewrite hasDoubleHyphen_cons, Ec in H. apply orb_false_iff in H as [H _].
    exact H.
  - rewrite A. split; reflexivity.
Qed.

Lemma replaceAll_no_link (f : jstring -> jstring) (s : jstring) : forall prev,
  Forall (fun c => isC "[" c = false /\ isC "!" c = false) s ->
  replaceAllFrom reLink f prev 0 s = s.
Proof.
  induction s as [|c t IH]; intros prev F; [reflexivity|].
  inversion F as [|? ? [H1 H2] Ft]; subst.
  cbn [replaceAllFrom reLink linkAt]. rewrite H1, H2.
  rewrite IH by exact Ft. reflexivity.
Qed.

Lemma map_fixed (s : jstring) :
  Forall (fun c => lowerChar c = c) s -> toLowerCase s = s.
Proof.
  induction 1 as [|c t Hc Ft IH]; [reflexivity|]. cbn. rewrite Hc.
  unfold toLowerCase in IH. rewrite IH. reflexivity.
Qed.

Lemma slugify_fixed (s : jstring) : slugShaped s -> slugify s = s.
Proof.
  intros (A & F & D & E).
  assert (Fw : Forall (fun c => isWs c = false) s).
  { eapply Forall_impl; [exact F|]. intros c Hc. apply slugOut_plain, Hc. }
  assert (Fm : Forall (fun c => isMarkdownMarker c = false) s).
  { eapply Forall_impl; [exact F|]. intros c Hc. apply slugOut_plain, Hc. }
  assert (Fl : Forall (fun c => isC "[" c = false /\ isC "!" c = false) s).
  { eapply Forall_impl; [exact F|]. intros c Hc.
    destruct (slugOut_plain c Hc) as (_ & _ & X & Y & _). auto. }
  assert (Fs : Forall (fun c => isSlugChar c = true) s).
  { eapply Forall_impl; [exact F|]. intros c Hc. apply slugOut_plain, Hc. }
  assert (Fc : Forall (fun c => lowerChar c = c) s).
  { eapply Forall_impl; [exact F|]. intros c Hc. apply slugOut_plain, Hc. }
  unfold slugify. cbv zeta. unfold trim, trimStart, trimEnd.
  rewrite (dropWhile_none _ _ Fw), (dropWhileEnd_none _ _ Fw).
  rewrite (filter_all _ _ Fm).
  unfold replaceAll. rewrite (replaceAll_no_link _ _ _ Fl).
  destruct s as [|c t]; [discriminate|]. cbn [startsAlnum] in A.
  destruct (alnum_plain c A) as (_ & _ & Hs & _).
  assert (E4 : dropWhile (fun c => negb (isAlnum c)) (c :: t) = c :: t).
  { cbn. rewrite A. reflexivity. }
  rewrite E4, (filter_all _ _ Fs), (map_fixed _ Fc), (squeeze_none _ _ _ Fw).
  rewrite (proj1 (squeeze_single _ D)).
  assert (E8 : dropWhile isHyphenOrSlash (c :: t) = c :: t).
  { cbn. rewrite Hs. reflexivity. }
  rewrite E8, E. reflexivity.
Qed.

(** X3. On Latin-1 text a slug has the shape of a slug, and is its own
    slug.  For every heading whose characters all lie below U+0100, which
    are the strings of this development, [slugify] returns a text that
    begins with a letter or a digit, is made of lower-case letters, digits,
    slashes, colons and hyphens only, holds no two hyphens in a row and
    does not end with a hyphen or a slash; and applying [slugify] to such a
    slug gives the slug back.  (The range matters: the lower-case form of
    U+0130 holds the combining mark U+0307, which a second pass removes.) *)
Theorem slugify_shape_and_fixed_point (raw : jstring) :
  slugShaped (slugify raw) /\ slugify (slugify raw) = slugify raw.
Proof.
  split; [apply slugify_shape|apply slugify_fixed, slugify_shape].
Qed.

(** ** The sectionizer *)

Lemma slugify_nonempty (t : jstring) : slugify t <> [].
Proof.
  destruct (slugify_shape t) as [A _]. destruct (slugify t); [discriminate|discriminate].
Qed.

Lemma current_shaped (lines : list jstring) (cur : Headings) :
  headingsOf lines cur ->
  currentPath cur <> []
  /\ match currentTitle cur with
     | None => currentPath cur = lit "intro" /\ currentParent cur = None
     | Some t => headingTitle lines t /\ leafOf (currentPath cur) t
     end
  /\ (forall p, currentParent cur = Some p -> headingTitle lines p).
Proof.
  destruct cur as [[f1|] [f2|] [f3|]]; unfold headingsOf, frameOf; cbn;
    intros (H1 & H2 & H3);
    repeat match goal with H : _ /\ _ |- _ => destruct H as [? ?] end;
    (split; [|split]);
    try (intros p Hp; inversion Hp; subst; assumption);
    try (intros p Hp; discriminate);
    try (split; [assumption|]);
    try (left; assumption);
    try (right; eexists; f_equal; f_equal; eassumption);
    try (split; reflexivity);
    try discriminate;
    try (intros E; apply app_eq_nil in E as [E _]);
    try (match goal with Hs : slug ?f = slugify _ |- _ =>
           solve [rewrite Hs in *; eapply slugify_nonempty; eassumption] end).
Qed.

Lemma flush_current (st : SectState) : current (flush st) = current st.
Proof. unfold flush. destruct (_ =? _)%nat; reflexivity. Qed.

Lemma flush_sections (st : SectState) :
  sections (flush st) = sections st
  \/ exists text,
       blank text = false /\ normalizeBlock text = text
       /\ sections (flush st)
          = sections st ++ [{| path := currentPath (current st); sec_text := text;
                               sec_title := currentTitle (current st);
                               parent := currentParent (current st) |}].
Proof.
  unfold flush.
  destruct (length (trim (normalizeBlock (join [LF] (sectionBuf st)))) =? 0)%nat eqn:E;
    [left; reflexivity|].
  right. eexists. split; [|split; [|reflexivity]].
  - apply Nat.eqb_neq in E.
    destruct (blank (normalizeBlock (join [LF] (sectionBuf st)))) eqn:B; [|reflexivity].
    apply trim_nil in B. rewrite B in E. contradiction.
  - apply normalizeBlock_idem.
Qed.

Lemma flush_shaped (lines : list jstring) (st : SectState) :
  headingsOf lines (current st) ->
  Forall (sectionShaped lines) (sections st) ->
  Forall (sectionShaped lines) (sections (flush st)).
Proof.
  intros Hc Hs. destruct (flush_sections st) as [->|(text & B & N & ->)]; [exact Hs|].
  apply Forall_app. split; [exact Hs|]. constructor; [|constructor].
  destruct (current_shaped lines _ Hc) as (P & T & Q).
  unfold sectionShaped. cbn [path sec_text sec_title parent]. auto.
Qed.

Lemma setHeading_of (lines : list jstring) (line : jstring) (n : nat) (ttl : jstring)
    (cur : Headings) :
  In line lines -> isHeading line = Some (n, ttl) ->
  headingsOf lines cur -> headingsOf lines (setHeading n ttl cur).
Proof.
  intros Hin Hh (H1 & H2 & H3).
  assert (F : frameOf lines (Some {| level := Nat.min 3 n; slug := slugify ttl;
                                     title := ttl |})).
  { split; [reflexivity|]. exists line, n. auto. }
  unfold setHeading.
  destruct (Nat.min 3 n) as [|[|[|k]]]; unfold headingsOf; cbn [h1 h2 h3 frameOf];
    cbn [frameOf] in F; auto.
Qed.

Lemma lineStep_shaped (lines : list jstring) (st : SectState) (line : jstring) :
  In line lines ->
  headingsOf lines (current st) /\ Forall (sectionShaped lines) (sections st) ->
  headingsOf lines (current (lineStep st line))
  /\ Forall (sectionShaped lines) (sections (lineStep st line)).
Proof.
  intros Hin [Hc Hs]. unfold lineStep.
  destruct (isFence line); [split; assumption|].
  destruct (inFence st); [split; assumption|].
  destruct (isHeading line) as [[n ttl]|] eqn:Hh; cbn [current sections].
  - split.
    + apply (setHeading_of lines line n ttl); auto. rewrite flush_current. exact Hc.
    + apply flush_shaped; assumption.
  - split; assumption.
Qed.

Lemma fold_shaped (lines : list jstring) (ls : list jstring) : forall st,
  (forall l, In l ls -> In l lines) ->
  headingsOf lines (current st) /\ Forall (sectionShaped lines) (sections st) ->
  headingsOf lines (current (fold_left lineStep ls st))
  /\ Forall (sectionShaped lines) (sections (fold_left lineStep ls st)).
Proof.
  induction ls as [|l t IH]; intros st Hin H; [exact H|].
  cbn [fold_left]. apply IH.
  - intros x Hx. apply Hin. right. exact Hx.
  - apply lineStep_shaped; [apply Hin; left; reflexivity|exact H].
Qed.

(** X4. Every section that the sectionizer emits is well formed.  Its
    text is not blank and is a normalized block; its path is not empty; a
    section without a title is the introduction, of path [intro] and
    without parent; the title of any other section is the title of a
    heading line that lies outside the fenced blocks, and the path is the
    slug of that title or ends with a slash and that slug; the parent, when
    there is one, is the title of such a heading line too. *)
Theorem sections_well_formed (md : jstring) (sec : Section) :
  In sec (sectionize md) ->
  sectionShaped (unfencedLines false (linesOf md)) sec.
Proof.
  rewrite sectionize_unfenced. unfold sectionsOfLines.
  set (lines := unfencedLines false (linesOf md)).
  intros Hin.
  destruct (fold_shaped lines lines sectInit (fun l H => H)) as [Hc Hs].
  { split; [repeat split|constructor]. }
  pose proof (flush_shaped lines _ Hc Hs) as F.
  rewrite Forall_forall in F. apply F. apply list_elem_of_In. exact Hin.
Qed.

Lemma sections_well_formed_witness :
  sectionShaped
    (unfencedLines false (linesOf (lit "# Rites" ++ [LF] ++ lit "Sync Days are kept.")))
    {| path := lit "rites"; sec_text := lit "Sync Days are kept.";
       sec_title := Some (lit "Rites"); parent := None |}.
Proof.
  apply (sections_well_formed (lit "# Rites" ++ [LF] ++ lit "Sync Days are kept.")).
  vm_compute. left. reflexivity.
Defined.

Lemma flush_length (st : SectState) :
  (length (sections (flush st)) <= S (length (sections st)))%nat.
Proof.
  destruct (flush_sections st) as [->|(text & _ & _ & ->)]; [lia|].
  rewrite length_app. cbn. lia.
Qed.

Lemma fold_count (ls : list jstring) : forall st,
  (length (sections (fold_left lineStep ls st))
   <= length (sections st) + countHeadings ls)%nat.
Proof.
  induction ls as [|l t IH]; intros st; [cbn; lia|].
  cbn [fold_left countHeadings]. specialize (IH (lineStep st l)).
  assert (H : (length (sections (lineStep st l))
               <= length (sections st)
                  + match isHeading l with Some _ => 1 | None => 0 end)%nat).
  { unfold lineStep. destruct (isFence l); [cbn; lia|].
    destruct (inFence st); [lia|].
    destruct (isHeading l) as [[n ttl]|]; cbn [sections]; [|lia].
    pose proof (flush_length st). lia. }
  destruct (isHeading l); lia.
Qed.

(** X5. A document has at most one section more than it has heading
    lines outside its fenced blocks. *)
Theorem sections_bounded_by_headings (md : jstring) :
  (length (sectionize md) <= S (countHeadings (unfencedLines false (linesOf md))))%nat.
Proof.
  rewrite sectionize_unfenced. unfold sectionsOfLines.
  pose proof (fold_count (unfencedLines false (linesOf md)) sectInit) as H.
  pose proof (flush_length (fold_left lineStep (unfencedLines false (linesOf md)) sectInit)).
  cbn [sectInit sections length] in H. lia.
Qed.

(** ** The size splitter *)

Lemma sumTokens_app (a b : list jstring) :
  sumTokens (a ++ b) = (sumTokens a + sumTokens b)%Z.
Proof.
  induction a as [|x t IH]; [reflexivity|].
  cbn [app]. unfold sumTokens in *. cbn [fold_right]. rewrite IH. lia.
Qed.

Lemma sumTokens_nonneg (b : list jstring) : (0 <= sumTokens b)%Z.
Proof.
  induction b as [|x t IH]; [cbn; lia|].
  unfold sumTokens in *. cbn [fold_right].
  pose proof (estimateTokens_pos x). lia.
Qed.

Lemma group_tokens_pos (g : Group) :
  g_paras g <> [] -> (0 < sumTokens (groupBuf g))%Z /\ groupBuf g <> [].
Proof.
  intros H. unfold groupBuf. destruct (g_seed g) as [f|].
  - split; [|discriminate]. change (f :: g_paras g) with ([f] ++ g_paras g).
    rewrite sumTokens_app. pose proof (sumTokens_nonneg (g_paras g)).
    unfold sumTokens at 1. cbn [fold_right]. pose proof (estimateTokens_pos f). lia.
  - split; [|exact H]. destruct (g_paras g) as [|x t]; [contradiction|].
    change (x :: t) with ([x] ++ t). rewrite sumTokens_app.
    pose proof (sumTokens_nonneg t).
    unfold sumTokens at 1. cbn [fold_right]. pose proof (estimateTokens_pos x). lia.
Qed.

Lemma commit_buf (st : SplitState) :
  buf st <> [] ->
  commit st = {| out := out st ++ [normalizeBlock (join paraSep (buf st))];
                 buf := []; tokens := 0; seeded := seeded st |}.
Proof. unfold commit. destruct (buf st); [contradiction|reflexivity]. Qed.

Lemma lastGroup_snoc (gs : list Group) : forall prev g,
  lastGroup prev (gs ++ [g]) = Some g.
Proof.
  unfold lastGroup. induction gs as [|x t IH]; intros prev g; [reflexivity|].
  cbn [app fold_left]. apply IH.
Qed.

Lemma chained_snoc (opts : SplitOptions) (gs : list Group) : forall prev g,
  chained opts prev (gs ++ [g]) <-> chained opts prev gs /\ link opts (lastGroup prev gs) g.
Proof.
  induction gs as [|x t IH]; intros prev g.
  - cbn. tauto.
  - cbn [app chained]. rewrite IH. unfold lastGroup. cbn [fold_left]. tauto.
Qed.

Lemma groupBuf_snoc (g : Group) (p : jstring) :
  groupBuf {| g_seed := g_seed g; g_paras := g_paras g ++ [p] |} = groupBuf g ++ [p].
Proof. unfold groupBuf. cbn. destruct (g_seed g); reflexivity. Qed.

(** One paragraph more: the open group takes it, or the open group is
    closed and the paragraph opens the next one. *)
Lemma splitStep_groups (opts : SplitOptions) (st : SplitState) (p : jstring)
    (gs : list Group) (g : Group) :
  out st = List.map render gs -> buf st = groupBuf g ->
  tokens st = sumTokens (groupBuf g) -> g_paras g <> [] ->
  exists gs' g',
    out (splitStep opts st p) = List.map render gs'
    /\ buf (splitStep opts st p) = groupBuf g'
    /\ tokens (splitStep opts st p) = sumTokens (groupBuf g')
    /\ ((gs' = gs /\ g_seed g' = g_seed g /\ g_paras g' = g_paras g ++ [p]
         /\ (sumTokens (groupBuf g') <= maxTokens opts)%Z)
        \/ (gs' = gs ++ [g] /\ follows opts g g' /\ g_paras g' = [p])).
Proof.
  intros Ho Hb Ht Hp.
  destruct (group_tokens_pos g Hp) as [Hpos Hne].
  unfold splitStep.
  destruct ((0 <? tokens st)%Z && (maxTokens opts <? tokens st + estimateTokens p)%Z) eqn:C.
  - apply andb_true_iff in C as [_ C]. apply Z.ltb_lt in C.
    rewrite commit_buf by (rewrite Hb; exact Hne).
    rewrite Hb. fold (render g).
    exists (gs ++ [g]),
      {| g_seed := overlapFragment (overlapRatio opts) (render g); g_paras := [p] |}.
    destruct (overlapFragment (overlapRatio opts) (render g)) as [f|] eqn:O;
      cbn [out buf tokens app groupBuf g_seed g_paras].
    + split; [rewrite Ho, map_app; reflexivity|]. split; [reflexivity|].
      split; [unfold sumTokens; cbn [fold_right]; lia|].
      right. split; [reflexivity|]. split; [|reflexivity].
      split; [cbn; symmetry; exact O|]. exists p, []. split; [reflexivity|].
      rewrite <- Ht. exact C.
    + split; [rewrite Ho, map_app; reflexivity|]. split; [reflexivity|].
      split; [unfold sumTokens; cbn [fold_right]; lia|].
      right. split; [reflexivity|]. split; [|reflexivity].
      split; [cbn; symmetry; exact O|]. exists p, []. split; [reflexivity|].
      rewrite <- Ht. exact C.
  - exists gs, {| g_seed := g_seed g; g_paras := g_paras g ++ [p] |}.
    cbn [out buf tokens]. rewrite groupBuf_snoc, sumTokens_app.
    split; [exact Ho|]. split; [rewrite Hb; reflexivity|].
    split; [rewrite Ht; unfold sumTokens at 3; cbn [fold_right]; lia|].
    left. split; [reflexivity|]. split; [reflexivity|]. split; [reflexivity|].
    apply andb_false_iff in C as [C|C].
    + apply Z.ltb_ge in C. lia.
    + apply Z.ltb_ge in C. rewrite Ht in C.
      unfold sumTokens at 2. cbn [fold_right]. lia.
Qed.

Lemma link_same_head (opts : SplitOptions) (o : option Group) (g g' : Group) (p : jstring) :
  g_paras g <> [] -> g_seed g' = g_seed g -> g_paras g' = g_paras g ++ [p] ->
  link opts o g -> link opts o g'.
Proof.
  intros Hne Hs Hp. destruct o as [g0|]; cbn; [|congruence].
  intros [A (q & rest & B & C)]. split; [congruence|].
  exists q, (rest ++ [p]). split; [rewrite Hp, B; reflexivity|exact C].
Qed.

Lemma fold_groups (opts : SplitOptions) (ps : list jstring) : forall st gs g done,
  out st = List.map render gs -> buf st = groupBuf g ->
  tokens st = sumTokens (groupBuf g) ->
  Forall (withinBudget opts) (gs ++ [g]) -> chained opts None (gs ++ [g]) ->
  concat (List.map g_paras (gs ++ [g])) = done ->
  exists gs' g',
    out (fold_left (splitStep opts) ps st) = List.map render gs'
    /\ buf (fold_left (splitStep opts) ps st) = groupBuf g'
    /\ Forall (withinBudget opts) (gs' ++ [g'])
    /\ chained opts None (gs' ++ [g'])
    /\ concat (List.map g_paras (gs' ++ [g'])) = done ++ ps.
Proof.
  induction ps as [|p t IH]; intros st gs g done Ho Hb Ht Hw Hc Hd.
  - exists gs, g. rewrite app_nil_r. auto.
  - cbn [fold_left].
    assert (Hp : g_paras g <> []).
    { apply Forall_app in Hw as [_ Hw]. inversion Hw as [|? ? [H _] _]; subst. exact H. }
    destruct (splitStep_groups opts st p gs g Ho Hb Ht Hp)
      as (gs' & g' & Ho' & Hb' & Ht' & Hcase).
    destruct (IH (splitStep opts st p) gs' g' (done ++ [p]) Ho' Hb' Ht')
      as (gs2 & g2 & A & B & C & D & E).
    + destruct Hcase as [(-> & Hs & Hq & Hm)|(-> & Hf & Hq)].
      * apply Forall_app in Hw as [Hw1 _]. apply Forall_app. split; [exact Hw1|].
        constructor; [|constructor]. split; [|left; exact Hm].
        rewrite Hq. destruct (g_paras g); discriminate.
      * apply Forall_app. split; [exact Hw|]. constructor; [|constructor].
        split; [rewrite Hq; discriminate|right; rewrite Hq; reflexivity].
    + destruct Hcase as [(-> & Hs & Hq & Hm)|(-> & Hf & Hq)].
      * apply chained_snoc in Hc as [Hc1 Hc2]. apply chained_snoc. split; [exact Hc1|].
        exact (link_same_head opts _ g g' p Hp Hs Hq Hc2).
      * apply chained_snoc. split; [exact Hc|]. rewrite lastGroup_snoc. exact Hf.
    + destruct Hcase as [(-> & Hs & Hq & Hm)|(-> & Hf & Hq)].
      * rewrite <- Hd, !map_app, !concat_app. cbn [List.map concat].
        rewrite Hq, !app_nil_r, app_assoc. reflexivity.
      * rewrite <- Hd, !map_app, !concat_app. cbn [List.map concat].
        rewrite Hq, !app_nil_r. reflexivity.
    + exists gs2, g2. rewrite <- app_assoc in E. auto.
Qed.

Lemma splitParagraphsFrom_nonempty (s : jstring) : forall cur nl,
  splitParagraphsFrom cur nl s <> [].
Proof.
  induction s as [|c t IH]; intros cur nl; cbn [splitParagraphsFrom].
  - destruct nl as [|[|n]]; discriminate.
  - destruct (isLF c); [apply IH|]. destruct nl as [|[|n]]; [apply IH|apply IH|discriminate].
Qed.

(** The blocks of a text are explained by groups of its paragraphs. *)
Lemma splitter_explained (text : jstring) (opts : SplitOptions) :
  exists groups,
    explains opts (splitParagraphs text) groups (splitSectionBySize text opts).
Proof.
  unfold splitSectionBySize, splitRun, splitParagraphs.
  destruct (splitParagraphsFrom [] 0 text) as [|p ps] eqn:E;
    [exfalso; exact (splitParagraphsFrom_nonempty _ _ _ E)|].
  cbn [fold_left].
  set (g := {| g_seed := None; g_paras := [p] |}).
  destruct (fold_groups opts ps (splitStep opts splitInit p) [] g [p])
    as (gs & g' & A & B & C & D & F); try reflexivity.
  - unfold splitStep, splitInit. cbn. unfold sumTokens. cbn. lia.
  - constructor; [|constructor]. split; [discriminate|right; reflexivity].
  - cbn. auto.
  - exists (gs ++ [g']). unfold explains.
    assert (Hne : buf (fold_left (splitStep opts) ps (splitStep opts splitInit p)) <> []).
    { rewrite B. apply group_tokens_pos.
      apply Forall_app in C as [_ C]. inversion C as [|? ? [H _] _]; subst. exact H. }
    rewrite (commit_buf _ Hne). cbn [out]. rewrite A, B.
    split; [exact F|]. split; [rewrite map_app; reflexivity|]. split; assumption.
Qed.

(** X6. The size splitter is greedy over the paragraphs.  The blocks it
    returns are, in order, the normalized joins of consecutive groups of
    the paragraphs of the text, which together are all the paragraphs;
    each group but the first is seeded with the overlap fragment of the
    block before it; a group holds more than one paragraph only while the
    token estimates of its seed and paragraphs stay within the budget; and
    a group is closed only when the next paragraph would have exceeded the
    budget. *)
Theorem blocks_are_greedy_groups (text : jstring) (opts : SplitOptions) :
  exists groups,
    explains opts (splitParagraphs text) groups (splitSectionBySize text opts).
Proof.
  unfold splitSectionBySize, splitRun, splitParagraphs.
  destruct (splitParagraphsFrom [] 0 text) as [|p ps] eqn:E;
    [exfalso; exact (splitParagraphsFrom_nonempty _ _ _ E)|].
  cbn [fold_left].
  destruct (fold_groups opts ps (splitStep opts splitInit p) []
              {| g_seed := None; g_paras := [p] |} [p])
    as (gs & g' & A & B & C & D & F); try reflexivity.
  - unfold splitStep, splitInit. cbn. unfold sumTokens. cbn. lia.
  - constructor; [|constructor]. split; [discriminate|right; reflexivity].
  - cbn. auto.
  - exists (gs ++ [g']).
    assert (Hp : g_paras g' <> []).
    { apply Forall_app in C as [_ C]. inversion C as [|? ? [H _] _]; subst. exact H. }
    rewrite commit_buf by (rewrite B; apply group_tokens_pos, Hp).
    cbn [out]. rewrite A, B.
    split; [exact F|]. split; [rewrite map_app; reflexivity|]. split; assumption.
Qed.

Lemma groups_length (opts : SplitOptions) (gs : list Group) :
  Forall (withinBudget opts) gs ->
  (length gs <= length (concat (List.map g_paras gs)))%nat.
Proof.
  induction 1 as [|g t [Hg _] Ft IH]; [cbn; lia|].
  cbn [List.map concat length]. rewrite length_app.
  destruct (g_paras g); [contradiction|]. cbn [length]. lia.
Qed.

Lemma one_paragraph (s : jstring) : forall cur nl,
  (nl <= 1)%nat -> includes (repeat LF nl ++ s) paraSep = false ->
  splitParagraphsFrom cur nl s = [rev cur ++ repeat LF nl ++ s].
Proof.
  unfold paraSep.
  induction s as [|c t IH]; intros cur nl Hn H.
  - cbn [splitParagraphsFrom]. unfold reverse. rewrite !rev_append_rev, !app_nil_r.
    destruct nl as [|[|n]]; [cbn; rewrite app_nil_r; reflexivity|reflexivity|lia].
  - cbn [splitParagraphsFrom]. destruct (isLF c) eqn:Ec.
    + assert (E : c = LF).
      { rewrite <- isLF_eqb in Ec. apply Ascii.eqb_eq in Ec. congruence. }
      subst c. destruct nl as [|[|n]]; [|cbn in H; discriminate|lia].
      rewrite (IH cur 1%nat); [reflexivity|lia|exact H].
    + destruct nl as [|[|n]]; [| |lia].
      * rewrite (IH (c :: cur) 0%nat); [|lia|exact (includes_cons _ _ _ H)].
        cbn [rev repeat app]. rewrite <- app_assoc. reflexivity.
      * rewrite (IH (c :: LF :: cur) 0%nat);
          [|lia|exact (includes_cons _ _ _ (includes_cons _ _ _ H))].
        cbn [rev repeat app]. rewrite <- !app_assoc. reflexivity.
Qed.

(** X7. A text is cut into at least one block and into no more blocks
    than it has paragraphs; a text without a blank line, which is one
    paragraph, comes back as one block, however long it is. *)
Theorem block_count_bounds (text : jstring) (opts : SplitOptions) :
  (1 <= length (splitSectionBySize text opts))%nat
  /\ (length (splitSectionBySize text opts) <= length (splitParagraphs text))%nat
  /\ (includes text paraSep = false ->
      splitSectionBySize text opts = [normalizeBlock text]).
Proof.
  destruct (splitter_explained text opts) as (gs & Hc & Hr & Hw & _).
  pose proof (groups_length opts gs Hw) as L.
  rewrite Hc in L. rewrite <- Hr, length_map.
  split; [|split; [exact L|]].
  - destruct gs as [|g t]; [|cbn; lia].
    cbn in Hc. unfold splitParagraphs in Hc. symmetry in Hc.
    exfalso. exact (splitParagraphsFrom_nonempty _ _ _ Hc).
  - intros H. rewrite Hr. unfold splitSectionBySize, splitRun, splitParagraphs.
    rewrite (one_paragraph text [] 0%nat); [|lia|exact H].
    reflexivity.
Qed.

(** ** From sections to chunks *)

Lemma sectionChunks_nonempty (ee ec : jstring -> list jstring) (src : jstring)
    (base : BaseMeta) (opts : SplitOptions) (sec : Section) :
  exists c rest, sectionChunks ee ec src base opts sec = c :: rest.
Proof.
  unfold sectionChunks.
  destruct (estimateTokens (sec_text sec) <=? maxTokens opts)%Z; [eauto|].
  destruct (length (splitSectionBySize (contextualTextOf sec) opts) <=? 1)%nat eqn:E;
    [eauto|].
  apply Nat.leb_gt in E.
  destruct (splitSectionBySize (contextualTextOf sec) opts) as [|p ps]; [cbn in E; lia|].
  cbn [List.map]. eauto.
Qed.

Lemma sectionChunks_meta (ee ec : jstring -> list jstring) (src : jstring)
    (base : BaseMeta) (opts : SplitOptions) (sec : Section) (c : MeaningChunk) :
  In c (sectionChunks ee ec src base opts sec) ->
  exists txt ents cons a pid,
    c = mkChunk src base sec txt ents cons a pid
    /\ a = analyzeContent (match pid with Some _ => txt | None => sec_text sec end)
    /\ (pid = None \/ pid = Some (src ++ lit ":" ++ path sec))
    /\ (txt = contextualTextOf sec
        \/ In txt (splitSectionBySize (contextualTextOf sec) opts)).
Proof.
  unfold sectionChunks.
  destruct (estimateTokens (sec_text sec) <=? maxTokens opts)%Z.
  - intros [<-|[]]. do 5 eexists. split; [reflexivity|]. cbn. auto.
  - destruct (length (splitSectionBySize (contextualTextOf sec) opts) <=? 1)%nat.
    + intros [<-|[]]. do 5 eexists. split; [reflexivity|]. cbn. auto.
    + intros H. apply in_map_iff in H as (p & <- & Hp).
      do 5 eexists. split; [reflexivity|]. cbn. auto.
Qed.

(** X8. Every chunk carries its section and its file.  A chunk of a
    document has the empty id and no aliases, the source file and the base
    metadata that [chunkMarkdownByMeaning] was given, an importance
    between 0.1 and 1, and the path, title and parent of a section of the
    document; its text is the text of that section, with the title put in
    front when the text does not mention it, or one of the blocks that
    text was cut into; and its parent chunk id is null or the source file,
    a colon and the path of the section. *)
Theorem chunks_carry_their_section (ee ec : jstring -> list jstring)
    (md src : jstring) (base : BaseMeta) (opts : SplitOptions) (c : MeaningChunk) :
  In c (chunkMarkdownByMeaning ee ec md src base opts) ->
  id c = [] /\ aliases (meta c) = [] /\ source_file (meta c) = src
  /\ universe (meta c) = base_universe base
  /\ species (meta c) = base_species base
  /\ subspecies (meta c) = base_subspecies base
  /\ (0.1 <= importance_score (meta c) <= 1.0)%Q
  /\ exists sec,
       In sec (sectionize md)
       /\ section_path (meta c) = path sec
       /\ section_title (meta c) = sec_title sec
       /\ parent_section (meta c) = parent sec
       /\ (text c = contextualTextOf sec
           \/ In (text c) (splitSectionBySize (contextualTextOf sec) opts))
       /\ (parent_chunk_id (meta c) = None
           \/ parent_chunk_id (meta c) = Some (src ++ lit ":" ++ path sec)).
Proof.
  unfold chunkMarkdownByMeaning. intros H.
  apply in_flat_map in H as (sec & Hsec & Hc).
  destruct (sectionChunks_meta _ _ _ _ _ _ _ Hc) as (txt & ents & cons & a & pid & -> & Ha & Hp & Ht).
  cbn. repeat (split; [reflexivity|]).
  split.
  - rewrite Ha. unfold analyzeContent. cbn [importance].
    apply (ScoreProofs.clamp_bounds 0.1 1.0). discriminate.
  - exists sec. auto 10.
Qed.

Lemma chunks_carry_their_section_witness :
  let c := mkChunk (lit "rites.md") noBaseMeta
             {| path := lit "rites"; sec_text := lit "Sync Days are kept.";
                sec_title := Some (lit "Rites"); parent := None |}
             (lit "Rites" ++ [LF; LF] ++ lit "Sync Days are kept.") [] []
             (analyzeContent (lit "Sync Days are kept.")) None in
  id c = [] /\ aliases (meta c) = [] /\ source_file (meta c) = lit "rites.md"
  /\ universe (meta c) = base_universe noBaseMeta
  /\ species (meta c) = base_species noBaseMeta
  /\ subspecies (meta c) = base_subspecies noBaseMeta
  /\ (0.1 <= importance_score (meta c) <= 1.0)%Q
  /\ exists sec,
       In sec (sectionize (lit "# Rites" ++ [LF] ++ lit "Sync Days are kept."))
       /\ section_path (meta c) = path sec
       /\ section_title (meta c) = sec_title sec
       /\ parent_section (meta c) = parent sec
       /\ (text c = contextualTextOf sec
           \/ In (text c) (splitSectionBySize (contextualTextOf sec) DEFAULTS))
       /\ (parent_chunk_id (meta c) = None
           \/ parent_chunk_id (meta c) = Some (lit "rites.md" ++ lit ":" ++ path sec)).
Proof.
  apply (chunks_carry_their_section noTerms noTerms
           (lit "# Rites" ++ [LF] ++ lit "Sync Days are kept.") (lit "rites.md")
           noBaseMeta DEFAULTS).
  vm_compute. left. reflexivity.
Defined.

Lemma flat_map_length_le {A B} (f : A -> list B) (l : list A) :
  (forall a, (1 <= length (f a))%nat) -> (length l <= length (flat_map f l))%nat.
Proof.
  intros Hf. induction l as [|a t IH]; [cbn; lia|].
  cbn [flat_map length]. rewrite length_app. specialize (Hf a). lia.
Qed.

Lemma blank_line_plain (l : jstring) :
  blank l = true -> isFence l = false /\ isHeading l = None.
Proof.
  intros B. split.
  - unfold isFence. apply dropWhile_nil in B. rewrite B. reflexivity.
  - unfold isHeading. destruct l as [|c t]; [reflexivity|].
    cbn in B. apply andb_true_iff in B as [B _].
    cbn [takeWhile]. destruct (isC "#" c) eqn:E; [|reflexivity].
    apply Ascii.eqb_eq in E. subst c. discriminate.
Qed.

(** X9. No section is lost on the way to the chunks, and nothing comes
    from nothing.  Every section of a document has a chunk that carries its
    path and title, so a document has at least as many chunks as sections;
    and a document whose lines outside the fenced blocks are all blank has
    no chunk at all. *)
Theorem every_section_has_a_chunk (ee ec : jstring -> list jstring)
    (md src : jstring) (base : BaseMeta) (opts : SplitOptions) :
  (forall sec, In sec (sectionize md) ->
     exists c, In c (chunkMarkdownByMeaning ee ec md src base opts)
               /\ section_path (meta c) = path sec
               /\ section_title (meta c) = sec_title sec)
  /\ (length (sectionize md)
      <= length (chunkMarkdownByMeaning ee ec md src base opts))%nat
  /\ (forallb blank (unfencedLines false (linesOf md)) = true ->
      chunkMarkdownByMeaning ee ec md src base opts = []).
Proof.
  unfold chunkMarkdownByMeaning. split; [|split].
  - intros sec Hsec.
    destruct (sectionChunks_nonempty ee ec src base opts sec) as (c & rest & E).
    assert (Hc : In c (sectionChunks ee ec src base opts sec)) by (rewrite E; left; reflexivity).
    exists c. split; [apply in_flat_map; eauto|].
    destruct (sectionChunks_meta _ _ _ _ _ _ _ Hc) as (txt & ents & cons & a & pid & -> & _).
    split; reflexivity.
  - apply flat_map_length_le. intros sec.
    destruct (sectionChunks_nonempty ee ec src base opts sec) as (c & rest & ->).
    cbn. lia.
  - intros B. rewrite sectionize_unfenced. unfold sectionsOfLines.
    rewrite fold_plain; [|reflexivity|].
    + unfold flush. cbn [sectInit sectionBuf app].
      assert (E : trim (normalizeBlock (join [LF] (unfencedLines false (linesOf md)))) = []).
      { apply trim_nil. rewrite blank_normalizeBlock, blank_join. exact B. }
      rewrite E. reflexivity.
    + apply Forall_forall. intros l Hl. apply blank_line_plain.
      rewrite forallb_forall in B. apply B. apply list_elem_of_In. exact Hl.
Qed.

End ChunkerLaws.

(** * The store under any use *)
Module StoreLaws.
Import StoreProofs.

Lemma rid_below_next (t : gmap jstring ChunkRecord) :
  forall i c, t !! i = Some c -> (rid c < nextRid t)%Z.
Proof.
  unfold nextRid.
  induction t as [|k x m Hk Hfold IH] using map_first_key_ind.
  - intros i c H. rewrite lookup_empty in H. discriminate.
  - intros i c H. rewrite map_fold_insert_first_key by assumption.
    destruct (decide (i = k)) as [->|Hne].
    + rewrite lookup_insert_eq in H. inversion H; subst. lia.
    + rewrite lookup_insert_ne in H by congruence.
      specialize (IH i c H). lia.
Qed.

Lemma upsertChunk_lookup_ne (k : RowKey) (t : gmap jstring ChunkRecord) (i : jstring) :
  keyId k <> i -> upsertChunk k t !! i = t !! i.
Proof.
  destruct k as [[[[i0 p] c] sh] m]. cbn. intros H.
  apply lookup_insert_ne. exact H.
Qed.

Lemma upsertChunk_lookup_eq (r : Row) (t : gmap jstring ChunkRecord) :
  upsertChunk (rowKey r) t !! row_id r
  = Some (recordOf (match t !! row_id r with
                    | Some old => rid old
                    | None => nextRid t
                    end) r).
Proof. unfold rowKey, upsertChunk, recordOf. apply lookup_insert_eq. Qed.

Lemma upsertChunk_unique (r : Row) (t : gmap jstring ChunkRecord) :
  ridsUnique t -> ridsUnique (upsertChunk (rowKey r) t).
Proof.
  intros U i j a b Hi Hj Hab.
  destruct (decide (row_id r = i)) as [Ei|Ni];
    destruct (decide (row_id r = j)) as [Ej|Nj]; [congruence | | |].
  - subst i. rewrite upsertChunk_lookup_eq in Hi. inversion Hi; subst a; clear Hi.
    rewrite upsertChunk_lookup_ne in Hj by exact Nj. cbn in Hab.
    destruct (t !! row_id r) as [old|] eqn:Eo.
    + exact (U _ _ _ _ Eo Hj Hab).
    + pose proof (rid_below_next t j b Hj). lia.
  - subst j. rewrite upsertChunk_lookup_eq in Hj. inversion Hj; subst b; clear Hj.
    rewrite upsertChunk_lookup_ne in Hi by exact Ni. cbn in Hab.
    destruct (t !! row_id r) as [old|] eqn:Eo.
    + symmetry. symmetry in Hab. exact (U _ _ _ _ Eo Hi Hab).
    + pose proof (rid_below_next t i a Hi). lia.
  - rewrite upsertChunk_lookup_ne in Hi by exact Ni.
    rewrite upsertChunk_lookup_ne in Hj by exact Nj.
    exact (U _ _ _ _ Hi Hj Hab).
Qed.

Lemma upsertOne_unique (r : Row) (s : VectorStore) :
  ridsUnique (chunks s) -> ridsUnique (chunks (upsertOne r s)).
Proof. intros U. rewrite upsertOne_chunks. apply upsertChunk_unique, U. Qed.

Lemma upsertAll_unique (rows : list Row) : forall s,
  ridsUnique (chunks s) -> ridsUnique (chunks (upsertAll rows s)).
Proof.
  induction rows as [|r t IH]; intros s U; [exact U|].
  rewrite upsertAll_cons. apply IH, upsertOne_unique, U.
Qed.

(** What one upsert leaves under the id of its row. *)
Lemma upsertOne_written (r : Row) (s : VectorStore) :
  exists k,
    chunks (upsertOne r s) !! row_id r = Some (recordOf k r)
    /\ vec_chunks (upsertOne r s) !! k = Some (row_embedding r)
    /\ (forall c, chunks s !! row_id r = Some c -> k = rid c).
Proof.
  unfold upsertOne. cbn [chunks vec_chunks].
  rewrite upsertChunk_lookup_eq. cbn [rid recordOf].
  eexists. split; [reflexivity|]. split.
  - apply lookup_insert_eq.
  - intros c Hc. rewrite Hc. reflexivity.
Qed.

(** What one upsert leaves under the other ids. *)
Lemma upsertOne_frame (r : Row) (s : VectorStore) (i : jstring) :
  row_id r <> i ->
  chunks (upsertOne r s) !! i = chunks s !! i
  /\ (ridsUnique (chunks s) -> forall c, chunks s !! i = Some c ->
        vec_chunks (upsertOne r s) !! rid c = vec_chunks s !! rid c).
Proof.
  intros Hne. split.
  - rewrite upsertOne_chunks. apply upsertChunk_lookup_ne. exact Hne.
  - intros U c Hc. unfold upsertOne. cbn [chunks vec_chunks].
    rewrite upsertChunk_lookup_eq. cbn [rid recordOf].
    apply lookup_insert_ne.
    destruct (chunks s !! row_id r) as [old|] eqn:Eo.
    + intros E. apply Hne. exact (U _ _ _ _ Eo Hc E).
    + pose proof (rid_below_next (chunks s) i c Hc). lia.
Qed.

Lemma upsertAll_frame (rows : list Row) (i : jstring) : forall s,
  Forall (fun r => row_id r <> i) rows ->
  chunks (upsertAll rows s) !! i = chunks s !! i
  /\ (ridsUnique (chunks s) -> forall c, chunks s !! i = Some c ->
        vec_chunks (upsertAll rows s) !! rid c = vec_chunks s !! rid c).
Proof.
  induction rows as [|r t IH]; intros s F; [split; auto|].
  inversion F as [|? ? Hr Ft]; subst.
  rewrite upsertAll_cons.
  destruct (IH (upsertOne r s) Ft) as [A B].
  destruct (upsertOne_frame r s i Hr) as [A0 B0].
  split; [congruence|].
  intros U c Hc.
  rewrite B; [apply B0; assumption | apply upsertOne_unique, U | congruence].
Qed.

Lemma upsertAll_app (a b : list Row) (s : VectorStore) :
  upsertAll (a ++ b) s = upsertAll b (upsertAll a s).
Proof. unfold upsertAll. apply fold_left_app. Qed.

Lemma upsertAll_read_back (rows : list Row) (r : Row) (s : VectorStore) :
  ridsUnique (chunks s) -> lastOfId rows r ->
  exists k,
    chunks (upsertAll rows s) !! row_id r = Some (recordOf k r)
    /\ vec_chunks (upsertAll rows s) !! k = Some (row_embedding r)
    /\ (forall c, chunks s !! row_id r = Some c -> k = rid c).
Proof.
  intros U (pre & post & -> & F).
  rewrite upsertAll_app, upsertAll_cons.
  set (s1 := upsertAll pre s).
  assert (U1 : ridsUnique (chunks s1)) by (apply upsertAll_unique, U).
  destruct (upsertOne_written r s1) as (k & Hc & Hv & Hk).
  assert (F' : Forall (fun r' => row_id r' <> row_id r) post) by exact F.
  destruct (upsertAll_frame post (row_id r) (upsertOne r s1) F') as [A B].
  exists k. split; [congruence|]. split.
  - specialize (B (upsertOne_unique r s1 U1) _ Hc). cbn [rid recordOf] in B.
    congruence.
  - intros c Hc0.
    destruct (upsertAll_rid_stable pre s _ _ Hc0) as (c1 & H1 & E1).
    fold s1 in H1. rewrite <- E1. apply Hk, H1.
Qed.

Lemma in_dom_insert (t : gmap jstring ChunkRecord) (i : jstring) (x : ChunkRecord) :
  i ∈ dom t -> dom (<[i := x]> t) = dom t.
Proof.
  intros H. rewrite dom_insert_L. apply subseteq_union_1_L.
  intros j Hj. apply elem_of_singleton in Hj. subst j. exact H.
Qed.

Lemma upsertOne_in_place (r : Row) (s : VectorStore) :
  paired s -> row_id r ∈ dom (chunks s) ->
  dom (chunks (upsertOne r s)) = dom (chunks s)
  /\ dom (vec_chunks (upsertOne r s)) = dom (vec_chunks s).
Proof.
  intros [P _] H.
  apply elem_of_dom in H as [old Hold].
  unfold upsertOne. cbn [chunks vec_chunks].
  rewrite upsertChunk_lookup_eq. cbn [rid recordOf]. rewrite Hold.
  split.
  - unfold rowKey, upsertChunk. apply in_dom_insert, elem_of_dom. eauto.
  - rewrite dom_insert_L. apply subseteq_union_1_L.
    intros j Hj. apply elem_of_singleton in Hj. subst j.
    apply elem_of_dom. exact (P _ _ Hold).
Qed.

Lemma upsertAll_in_place (rows : list Row) : forall s,
  paired s -> Forall (fun r => row_id r ∈ dom (chunks s)) rows ->
  dom (chunks (upsertAll rows s)) = dom (chunks s)
  /\ dom (vec_chunks (upsertAll rows s)) = dom (vec_chunks s).
Proof.
  induction rows as [|r t IH]; intros s P F; [split; reflexivity|].
  inversion F as [|? ? Hr Ft]; subst.
  rewrite upsertAll_cons.
  destruct (upsertOne_in_place r s P Hr) as [A B].
  destruct (IH (upsertOne r s)) as [A' B'].
  - apply upsertOne_paired, P.
  - rewrite A. exact Ft.
  - split; congruence.
Qed.

Lemma setDim_tables (d : Z) (s s' : VectorStore) (r : Error + unit) :
  setDim d s = (s', r) -> chunks s' = chunks s /\ vec_chunks s' = vec_chunks s.
Proof.
  unfold setDim. destruct (meta_dim s) as [v|].
  - destruct (negb (v =? d)%Z); intros H; inversion H; subst; split; reflexivity.
  - intros H; inversion H; subst; split; reflexivity.
Qed.

(** What a call leaves of the two tables: they are untouched, or they are
    those of a batch written in full. *)
Lemma perform_tables (c : Call) (s : VectorStore) :
  (chunks (perform c s) = chunks s /\ vec_chunks (perform c s) = vec_chunks s)
  \/ exists rows s0, chunks s0 = chunks s /\ vec_chunks s0 = vec_chunks s
       /\ perform c s = upsertAll rows s0.
Proof.
  destruct c as [d| |rows|]; cbn [perform].
  - left. destruct (setDim d s) as [s' r] eqn:E. exact (setDim_tables _ _ _ _ E).
  - left. destruct (getDim s) as [s' r] eqn:E.
    destruct (getDim_tables _ _ _ E) as (_ & A & B). split; assumption.
  - destruct (upsertMany rows s) as [s' [e|[]]] eqn:E; cbn [fst].
    + left. destruct (upsertMany_failure _ _ _ _ E) as (_ & A & B). split; assumption.
    + right. destruct (upsertMany_success _ _ _ E) as (s0 & d & G & _ & ->).
      destruct (getDim_tables _ _ _ G) as (_ & A & B).
      exists rows, s0. split; [exact A|]. split; [exact B|reflexivity].
  - left. split; reflexivity.
Qed.

Lemma unique_tables (s s0 : VectorStore) :
  chunks s0 = chunks s -> ridsUnique (chunks s) -> ridsUnique (chunks s0).
Proof. intros ->. auto. Qed.

Lemma perform_sound (c : Call) (s : VectorStore) :
  sound s ->
  sound (perform c s)
  /\ (forall i x, chunks s !! i = Some x ->
        exists x', chunks (perform c s) !! i = Some x' /\ rid x' = rid x).
Proof.
  intros [P U].
  destruct (perform_tables c s) as [[A B]|(rows & s0 & A & B & E)].
  - split; [split|].
    + exact (paired_tables _ _ A B P).
    + exact (unique_tables _ _ A U).
    + intros i x Hx. exists x. rewrite A. auto.
  - rewrite E. split; [split|].
    + apply upsertAll_paired. exact (paired_tables _ _ A B P).
    + apply upsertAll_unique. exact (unique_tables _ _ A U).
    + intros i x Hx. apply upsertAll_rid_stable. rewrite A. exact Hx.
Qed.

(** The recorded dimension is [d], and the cached one does not differ. *)
Lemma getDim_known (d : Z) (s : VectorStore) :
  meta_dim s = Some d -> (dim s = None \/ dim s = Some d) ->
  exists s', getDim s = (s', inr d)
    /\ meta_dim s' = Some d /\ (dim s' = None \/ dim s' = Some d).
Proof.
  destruct s as [dm md ch vc]. cbn. intros -> Hd. unfold getDim. cbn.
  destruct Hd as [->| ->].
  - eexists. split; [reflexivity|]. cbn. auto.
  - destruct (negb (d =? 0)%Z); eexists; (split; [reflexivity|]); cbn; auto.
Qed.

Lemma setDim_known (d d' : Z) (s : VectorStore) :
  meta_dim s = Some d -> (dim s = None \/ dim s = Some d) ->
  (d' <> d -> setDim d' s = (s, inl (DimMismatch d d')))
  /\ meta_dim (fst (setDim d' s)) = Some d
  /\ (dim (fst (setDim d' s)) = None \/ dim (fst (setDim d' s)) = Some d).
Proof.
  destruct s as [dm md ch vc]. cbn. intros -> Hd. unfold setDim. cbn.
  destruct (Z.eqb_spec d d') as [->|Hne]; cbn.
  - split; [congruence|]. auto.
  - split; [reflexivity|]. auto.
Qed.

Lemma setDim_again (d : Z) (s : VectorStore) :
  meta_dim s = Some d -> exists s', setDim d s = (s', inr tt).
Proof.
  intros Hm. unfold setDim. rewrite Hm, Z.eqb_refl. cbn. eexists. reflexivity.
Qed.

Lemma upsertAll_dims (rows : list Row) : forall s,
  dim (upsertAll rows s) = dim s /\ meta_dim (upsertAll rows s) = meta_dim s.
Proof.
  induction rows as [|r t IH]; intros s; [split; reflexivity|].
  rewrite upsertAll_cons. destruct (IH (upsertOne r s)) as [A B].
  rewrite A, B. split; reflexivity.
Qed.

Lemma forEach_upsert_dims (d : Z) (rows : list Row) : forall s s' r,
  forEach (upsertRow d) rows s = (s', r) -> dim s' = dim s.
Proof.
  induction rows as [|x t IH]; intros s s' r H.
  - inversion H; reflexivity.
  - cbn [forEach] in H. unfold bind at 1 in H.
    destruct (Z.eq_dec (Z.of_nat (length (row_embedding x))) d) as [Hok|Hbad].
    + rewrite (upsertRow_ok d x s Hok) in H. apply IH in H. exact H.
    + rewrite (upsertRow_bad d x s Hbad) in H. inversion H; reflexivity.
Qed.

Lemma upsertMany_known (d : Z) (rows : list Row) (s : VectorStore) :
  meta_dim s = Some d -> (dim s = None \/ dim s = Some d) ->
  meta_dim (fst (upsertMany rows s)) = Some d
  /\ (dim (fst (upsertMany rows s)) = None \/ dim (fst (upsertMany rows s)) = Some d).
Proof.
  intros Hm Hd.
  destruct (getDim_known d s Hm Hd) as (s0 & G & Hm0 & Hd0).
  unfold upsertMany, bind. rewrite G. unfold transaction.
  destruct (forEach (upsertRow d) rows s0) as [s1 [e|[]]] eqn:E; cbn [fst meta_dim dim].
  - rewrite (forEach_upsert_dims _ _ _ _ _ E). split; assumption.
  - rewrite (forEach_upsert_dims _ _ _ _ _ E).
    destruct (forEach_upsert_inv _ _ _ _ E) as [_ ->].
    destruct (upsertAll_dims rows s0) as [_ B]. rewrite B. split; assumption.
Qed.

Lemma perform_known (d : Z) (c : Call) (s : VectorStore) :
  meta_dim s = Some d -> (dim s = None \/ dim s = Some d) ->
  meta_dim (perform c s) = Some d
  /\ (dim (perform c s) = None \/ dim (perform c s) = Some d).
Proof.
  intros Hm Hd. destruct c as [d'| |rows|]; cbn [perform].
  - exact (proj2 (setDim_known d d' s Hm Hd)).
  - destruct (getDim_known d s Hm Hd) as (s0 & G & Hm0 & Hd0). rewrite G. auto.
  - exact (upsertMany_known d rows s Hm Hd).
  - cbn. auto.
Qed.

Lemma performAll_known (d : Z) (cs : list Call) : forall s,
  meta_dim s = Some d -> (dim s = None \/ dim s = Some d) ->
  meta_dim (performAll cs s) = Some d
  /\ (dim (performAll cs s) = None \/ dim (performAll cs s) = Some d).
Proof.
  induction cs as [|c t IH]; intros s Hm Hd; [auto|].
  cbn. destruct (perform_known d c s Hm Hd) as [A B]. exact (IH _ A B).
Qed.

Lemma ridsUnique_empty : ridsUnique (∅ : gmap jstring ChunkRecord).
Proof. intros i j a b H. rewrite lookup_empty in H. discriminate. Qed.

Lemma sound_readyStore : sound readyStore.
Proof.
  split; [split|exact ridsUnique_empty].
  - intros i c H. cbn in H. rewrite lookup_empty in H. discriminate.
  - intros k [v H]. cbn in H. rewrite lookup_empty in H. discriminate.
Qed.

(** X10. A batch that [upsertMany] accepts can be read back, the last
    writer winning: for the last row of the batch that carries a given id,
    the table of chunks holds under that id exactly the path, text, hash
    and metadata of that row, and the vector table holds the embedding of
    that row under the row id of the record.  A record that was there
    before keeps its row id.  Row ids are assumed unique in the store the
    batch is written to. *)
Theorem upsertMany_last_writer_wins (s s' : VectorStore) (rows : list Row) (r : Row) :
  ridsUnique (chunks s) ->
  upsertMany rows s = (s', inr tt) ->
  lastOfId rows r ->
  exists k,
    chunks s' !! row_id r = Some (recordOf k r)
    /\ vec_chunks s' !! k = Some (row_embedding r)
    /\ (forall c, chunks s !! row_id r = Some c -> k = rid c).
Proof.
  intros U H L.
  destruct (upsertMany_success _ _ _ H) as (s0 & d & G & _ & ->).
  destruct (getDim_tables _ _ _ G) as (_ & A & _).
  rewrite <- A. apply upsertAll_read_back; [rewrite A; exact U | exact L].
Qed.

Lemma upsertMany_last_writer_wins_witness :
  exists k,
    chunks (fst (upsertMany overwriteRows twoRowStore)) !! row_id finalRow
      = Some (recordOf k finalRow)
    /\ vec_chunks (fst (upsertMany overwriteRows twoRowStore)) !! k
       = Some (row_embedding finalRow)
    /\ (forall c, chunks twoRowStore !! row_id finalRow = Some c -> k = rid c).
Proof.
  apply (upsertMany_last_writer_wins twoRowStore _ overwriteRows finalRow).
  - apply (upsertAll_unique sampleRows readyStore), ridsUnique_empty.
  - vm_compute. reflexivity.
  - exists (firstn 2 overwriteRows), []. split; [reflexivity|constructor].
Defined.

(** X11. [upsertMany] touches nothing but the ids of its batch: whether it
    returns or throws, the record under any id that no row of the batch
    carries is the one that was there, and, row ids being unique, so is the
    vector of that record. *)
Theorem upsertMany_leaves_other_ids (s s' : VectorStore) (rows : list Row)
    (res : Error + unit) (i : jstring) :
  upsertMany rows s = (s', res) ->
  Forall (fun r => row_id r <> i) rows ->
  chunks s' !! i = chunks s !! i
  /\ (ridsUnique (chunks s) -> forall c, chunks s !! i = Some c ->
        vec_chunks s' !! rid c = vec_chunks s !! rid c).
Proof.
  intros H F. destruct res as [e|[]].
  - destruct (upsertMany_failure _ _ _ _ H) as (_ & A & B).
    rewrite A, B. split; auto.
  - destruct (upsertMany_success _ _ _ H) as (s0 & d & G & _ & ->).
    destruct (getDim_tables _ _ _ G) as (_ & A & B).
    destruct (upsertAll_frame rows i s0 F) as [C D].
    rewrite <- A, <- B. split; [exact C|].
    intros U c Hc. apply D; [exact U | exact Hc].
Qed.

Lemma upsertMany_leaves_other_ids_witness :
  chunks (fst (upsertMany [finalRow] twoRowStore)) !! lit "id-b"
    = chunks twoRowStore !! lit "id-b"
  /\ (ridsUnique (chunks twoRowStore) ->
      forall c, chunks twoRowStore !! lit "id-b" = Some c ->
        vec_chunks (fst (upsertMany [finalRow] twoRowStore)) !! rid c
        = vec_chunks twoRowStore !! rid c).
Proof.
  apply (upsertMany_leaves_other_ids twoRowStore _ [finalRow]
           (snd (upsertMany [finalRow] twoRowStore)) (lit "id-b")).
  - vm_compute. reflexivity.
  - constructor; [|constructor]. vm_compute. discriminate.
Defined.

(** X12. Writing ids that are all in the store already updates in place:
    in a store whose tables are paired, a batch that [upsertMany] accepts
    and whose ids all exist adds no chunk record and no vector, and every
    record keeps its row id. *)
Theorem upsertMany_updates_in_place (s s' : VectorStore) (rows : list Row) :
  paired s ->
  upsertMany rows s = (s', inr tt) ->
  Forall (fun r => row_id r ∈ dom (chunks s)) rows ->
  dom (chunks s') = dom (chunks s)
  /\ dom (vec_chunks s') = dom (vec_chunks s)
  /\ (forall i c, chunks s !! i = Some c ->
        exists c', chunks s' !! i = Some c' /\ rid c' = rid c).
Proof.
  intros P H F.
  destruct (upsertMany_success _ _ _ H) as (s0 & d & G & _ & ->).
  destruct (getDim_tables _ _ _ G) as (_ & A & B).
  assert (P0 : paired s0) by exact (paired_tables _ _ A B P).
  rewrite <- A in F.
  destruct (upsertAll_in_place rows s0 P0 F) as [C D].
  rewrite <- A, <- B. split; [exact C|]. split; [exact D|].
  intros i c Hc. apply upsertAll_rid_stable. exact Hc.
Qed.

Lemma upsertMany_updates_in_place_witness :
  dom (chunks (fst (upsertMany overwriteRows twoRowStore))) = dom (chunks twoRowStore)
  /\ dom (vec_chunks (fst (upsertMany overwriteRows twoRowStore)))
     = dom (vec_chunks twoRowStore)
  /\ (forall i c, chunks twoRowStore !! i = Some c ->
        exists c', chunks (fst (upsertMany overwriteRows twoRowStore)) !! i = Some c'
                   /\ rid c' = rid c).
Proof.
  apply (upsertMany_updates_in_place twoRowStore _ overwriteRows).
  - apply (upsertAll_paired sampleRows readyStore), sound_readyStore.
  - vm_compute. reflexivity.
  - repeat constructor; apply elem_of_dom; vm_compute; eauto.
Defined.

Lemma performAll_sound (cs : list Call) : forall s,
  sound s ->
  sound (performAll cs s)
  /\ (forall i c, chunks s !! i = Some c ->
        exists c', chunks (performAll cs s) !! i = Some c' /\ rid c' = rid c).
Proof.
  induction cs as [|c t IH]; intros s S.
  - split; [exact S|]. intros i x Hx. exists x. auto.
  - cbn. destruct (perform_sound c s S) as [S1 K1].
    destruct (IH _ S1) as [S2 K2]. split; [exact S2|].
    intros i x Hx. destruct (K1 i x Hx) as (x1 & H1 & E1).
    destruct (K2 i x1 H1) as (x2 & H2 & E2). exists x2. split; [exact H2|congruence].
Qed.

(** X13. On a store that has its dimension, whatever a client calls, and
    whether the calls return or throw, the store stays sound: after any
    sequence of [setDim], [getDim], [upsertMany] and reopening, the store
    still has that dimension, the two tables are still paired and the row
    ids still unique, and every record that was there is still there under
    its id with the row id it had.  (On such a store no [setDim] creates
    the vector table any more: it compares with the recorded dimension.) *)
Theorem store_stays_sound (cs : list Call) (s : VectorStore) (d : Z) :
  (0 < d)%Z -> established d s -> sound s ->
  established d (performAll cs s)
  /\ sound (performAll cs s)
  /\ (forall i c, chunks s !! i = Some c ->
        exists c', chunks (performAll cs s) !! i = Some c' /\ rid c' = rid c).
Proof.
  intros _. revert s. induction cs as [|c t IH]; intros s E S.
  - split; [exact E|]. split; [exact S|]. intros i x Hx. exists x. auto.
  - cbn [performAll fold_left]. fold (performAll t (perform c s)).
    destruct (perform_sound c s S) as [S1 K1].
    destruct E as [Em Ed].
    assert (E1 : established d (perform c s)) by exact (perform_known d c s Em Ed).
    destruct (IH _ E1 S1) as (E2 & S2 & K2).
    split; [exact E2|]. split; [exact S2|].
    intros i x Hx. destruct (K1 i x Hx) as (x1 & H1 & Q1).
    destruct (K2 i x1 H1) as (x2 & H2 & Q2). exists x2. split; [exact H2|congruence].
Qed.

Lemma established_readyStore : established 2 readyStore.
Proof. split; [reflexivity|right; reflexivity]. Qed.

Lemma store_stays_sound_witness :
  established 2 (performAll sampleCalls readyStore)
  /\ sound (performAll sampleCalls readyStore)
  /\ (forall i c, chunks readyStore !! i = Some c ->
        exists c', chunks (performAll sampleCalls readyStore) !! i = Some c'
                   /\ rid c' = rid c).
Proof.
  apply (store_stays_sound sampleCalls readyStore 2);
    [reflexivity | exact established_readyStore | exact sound_readyStore].
Defined.

(** X14. The dimension of a store is fixed.  A store opened on a file
    whose dimension was never recorded refuses [getDim] and [upsertMany]
    with the error that asks to bake first, and writes nothing.  On a
    store that has the dimension [d], after any further calls, returning
    or throwing, [getDim] still returns [d], [setDim d] returns, and
    [setDim] with any other dimension throws and changes nothing. *)
Theorem dimension_set_once (s : VectorStore) (d : Z) (cs : list Call) (rows : list Row) :
  (meta_dim s = None ->
     getDim (openStore s) = (openStore s, inl DimNotSet)
     /\ upsertMany rows (openStore s) = (openStore s, inl DimNotSet))
  /\ ((0 < d)%Z -> established d s ->
        (exists s3, getDim (performAll cs s) = (s3, inr d))
        /\ (exists s4, setDim d (performAll cs s) = (s4, inr tt))
        /\ (forall d', d' <> d ->
              setDim d' (performAll cs s)
              = (performAll cs s, inl (DimMismatch d d')))).
Proof.
  split.
  - intros Hm. destruct s as [dm md ch vc]. cbn in Hm. subst md.
    split; reflexivity.
  - intros _ [Hm Hd].
    destruct (performAll_known d cs s Hm Hd) as [A B].
    split; [|split].
    + destruct (getDim_known d _ A B) as (s3 & G & _). exists s3. exact G.
    + exact (setDim_again d _ A).
    + intros d' Hne. exact (proj1 (setDim_known d d' _ A B) Hne).
Qed.

Lemma dimension_set_once_witness :
  (getDim (openStore emptyStore) = (openStore emptyStore, inl DimNotSet)
   /\ upsertMany sampleRows (openStore emptyStore)
      = (openStore emptyStore, inl DimNotSet))
  /\ (exists s3, getDim (performAll sampleCalls readyStore) = (s3, inr 2%Z))
  /\ (exists s4, setDim 2 (performAll sampleCalls readyStore) = (s4, inr tt))
  /\ (forall d', d' <> 2%Z ->
        setDim d' (performAll sampleCalls readyStore)
        = (performAll sampleCalls readyStore, inl (DimMismatch 2 d'))).
Proof.
  destruct (dimension_set_once emptyStore 2 sampleCalls sampleRows) as [A _].
  destruct (dimension_set_once readyStore 2 sampleCalls sampleRows) as [_ B].
  split; [exact (A eq_refl) | exact (B eq_refl established_readyStore)].
Defined.

End StoreLaws.

(** * Batches, embeddings and runs of bake *)
Module BakeLaws.
Import StoreProofs BakeProofs StoreLaws.

(** ** The batches *)

Lemma slicesFrom_spec {A} (fuel : nat) : forall l : list A,
  (length l <= fuel)%nat ->
  concat (slicesFrom fuel l) = l
  /\ Forall (fun s => (1 <= length s <= BATCH)%nat) (slicesFrom fuel l)
  /\ (forall i s, slicesFrom fuel l !! i = Some s ->
        (S i < length (slicesFrom fuel l))%nat -> length s = BATCH)
  /\ (length (slicesFrom fuel l) * BATCH < length l + BATCH)%nat
  /\ (length l <= length (slicesFrom fuel l) * BATCH)%nat.
Proof.
  induction fuel as [|f IH]; intros l Hl.
  - destruct l; [|cbn in Hl; lia]. cbn.
    repeat split; try constructor; try lia; try (intros i s H; discriminate).
  - destruct l as [|a t];
      [cbn; repeat split; try constructor; try lia; try (intros i s H; discriminate)|].
    assert (Hlen : (1 <= length (a :: t))%nat) by (cbn; lia).
    change (slicesFrom (S f) (a :: t))
      with (firstn BATCH (a :: t) :: slicesFrom f (skipn BATCH (a :: t))).
    revert Hl Hlen. generalize (a :: t). intros l Hl Hlen.
    destruct (IH (skipn BATCH l)) as (C & F & G & U & L).
    { rewrite length_skipn. unfold BATCH. lia. }
    rewrite length_skipn in U, L.
    pose proof (length_firstn BATCH l) as Lf.
    split; [cbn [concat]; rewrite C; apply firstn_skipn|].
    split; [constructor; [unfold BATCH in *; lia|exact F]|].
    split; [|cbn [length]; unfold BATCH in *; lia].
    intros i s Hi Hlt. destruct i as [|i].
    + cbn in Hi. injection Hi as <-. cbn [length] in Hlt.
      destruct (slicesFrom f (skipn BATCH l)) as [|x y] eqn:Es; [cbn in Hlt; lia|].
      inversion F as [|? ? Hx _]; subst.
      assert (1 <= length (skipn BATCH l))%nat.
      { pose proof (f_equal (@length A) C) as Hc. cbn [concat] in Hc.
        rewrite length_app in Hc. lia. }
      rewrite length_skipn in *. unfold BATCH in *. lia.
    + cbn in Hi. apply (G i s Hi). cbn [length] in Hlt. lia.
Qed.

Lemma slices_concat {A} (l : list A) : concat (slices l) = l.
Proof. apply (slicesFrom_spec (length l) l). lia. Qed.

(** X15. The batches of a file partition its chunks in order: put end to
    end they are the chunks; no batch is empty or holds more than sixteen
    chunks; every batch but the last holds sixteen; so a file of n chunks
    costs n/16 embedding calls, rounded up. *)
Theorem slices_partition {A} (l : list A) :
  concat (slices l) = l
  /\ Forall (fun s => (1 <= length s <= 16)%nat) (slices l)
  /\ (forall i s, slices l !! i = Some s -> (S i < length (slices l))%nat ->
        length s = 16%nat)
  /\ length (slices l) = ((length l + 15) / 16)%nat.
Proof.
  destruct (slicesFrom_spec (length l) l (le_n _)) as (C & F & G & U & L).
  fold (slices l) in *. unfold BATCH in *.
  split; [exact C|]. split; [exact F|]. split; [exact G|].
  apply (Nat.div_unique _ 16 _ (length l + 15 - length (slices l) * 16)); lia.
Qed.

(** ** [embedBatch] and [embedOne] *)

(** X16. [embedOne] returns a vector that is not empty, or throws.  The
    vector is the first one answered by the preferred route, or by the
    other route when the preferred one threw; when both routes throw the
    error is that of the failed embedding; and when the route that
    answered gave no vector, or an empty first vector, the error is that
    of dimension zero, the other route not being tried. *)
Theorem embedOne_result (pv : Providers) (text : jstring) :
  match embedOne pv text with
  | inr v =>
      v <> [] /\ exists vecs, routeAnswer pv [text] = Some vecs /\ head vecs = Some v
  | inl e =>
      (e = EmbeddingFailed /\ routeAnswer pv [text] = None)
      \/ (e = EmbeddingDimZero
          /\ exists vecs, routeAnswer pv [text] = Some vecs
               /\ (vecs = [] \/ head vecs = Some []))
  end.
Proof.
  unfold embedOne, embedBatch, routeAnswer, firstRoute, secondRoute. cbv zeta.
  destruct (preferNative pv);
    match goal with
    | |- context [match ?f [text] with Some v => Some v | None => ?g [text] end] =>
        destruct (match f [text] with Some v => Some v | None => g [text] end)
          as [[|[|q v] vs]|] eqn:E
    end; cbn; eauto 10.
  all: try (change (Z.of_nat 0 =? 0)%Z with true; cbn; eauto 10).
  all: destruct (Z.eqb_spec (Z.of_nat (S (length v))) 0) as [H|H]; [lia|];
    cbn; split; [discriminate|eauto].
Qed.

(** ** The runs *)

Section Runs.

Variable sha1 : jstring -> jstring.
Variable JSON_stringify : ChunkMeta -> jstring.
Variable extractEntities : jstring -> list jstring.
Variable extractConcepts : jstring -> list jstring.
Variable service : nat -> Providers.
Variable baseMeta : BaseMeta.

Abbreviation bakeBatch' := (bakeBatch sha1 JSON_stringify service).
Abbreviation bakeFile' :=
  (bakeFile sha1 JSON_stringify extractEntities extractConcepts service baseMeta).
Abbreviation bake' :=
  (bake sha1 JSON_stringify extractEntities extractConcepts service baseMeta).
Abbreviation chunksOf' := (chunksOf extractEntities extractConcepts baseMeta).

(** [bakeBatch] without the monad. *)
Lemma bakeBatch_eq (rel : jstring) (slice : list MeaningChunk) (b : BakeState) :
  bakeBatch' rel slice b =
  match embedBatch (service (calls b)) (List.map text slice) with
  | inl e => (countCall b, inl e)
  | inr (vectors, d) =>
      if dimSet b
      then writeRows (imap (mkRow sha1 JSON_stringify rel vectors) slice) (countCall b)
      else match setDim d (store b) with
           | (s1, inl e) => (withStore s1 (countCall b), inl e)
           | (s1, inr _) =>
               writeRows (imap (mkRow sha1 JSON_stringify rel vectors) slice)
                 (markDimSet (withStore s1 (countCall b)))
           end
  end.
Proof.
  unfold bakeBatch, bind, gets, modify, ret, throw, liftStore, writeRows.
  destruct (embedBatch (service (calls b)) (List.map text slice)) as [e|[vectors d]];
    [reflexivity|].
  unfold countCall, markDimSet, withStore, countRows. simpl.
  destruct (dimSet b); simpl.
  - destruct (upsertMany _ (store b)) as [s' [e|[]]]; reflexivity.
  - destruct (setDim d (store b)) as [s1 [e|[]]]; [reflexivity|]. simpl.
    destruct (upsertMany _ s1) as [s' [e|[]]]; reflexivity.
Qed.

Lemma forEach_rel {S A} (f : A -> M S unit) (R : S -> S -> Prop) :
  (forall s, R s s) -> (forall a b c, R a b -> R b c -> R a c) ->
  (forall a s s' r, f a s = (s', r) -> R s s') ->
  forall l s s' r, forEach f l s = (s', r) -> R s s'.
Proof.
  intros Rr Rt Hf. induction l as [|a t IH]; intros s s' r H.
  - injection H as <- _. apply Rr.
  - cbn [forEach] in H. unfold bind at 1 in H.
    destruct (f a s) as [s1 [e|[]]] eqn:E.
    + injection H as <- _. exact (Hf _ _ _ _ E).
    + exact (Rt _ _ _ (Hf _ _ _ _ E) (IH _ _ _ H)).
Qed.

Lemma forEach_sum {S A} (f : A -> M S unit) (m : S -> nat) (w : A -> nat) :
  (forall a s s', f a s = (s', inr tt) -> m s' = (m s + w a)%nat) ->
  forall l s s', forEach f l s = (s', inr tt) ->
    m s' = (m s + list_sum (List.map w l))%nat.
Proof.
  intros Hf. induction l as [|a t IH]; intros s s' H.
  - injection H as <-. cbn. lia.
  - cbn [forEach] in H. unfold bind at 1 in H.
    destruct (f a s) as [s1 [e|[]]] eqn:E; [discriminate|].
    rewrite (IH _ _ H), (Hf _ _ _ E). simpl. lia.
Qed.

Lemma forEach_held {S A} (f : A -> M S unit) (P : S -> Prop) (Q : A -> Prop) :
  (forall a s s' r, P s -> f a s = (s', r) -> P s' /\ (r = inr tt -> Q a)) ->
  forall l s s' r, P s -> forEach f l s = (s', r) ->
    P s' /\ (r = inr tt -> Forall Q l).
Proof.
  intros Hf. induction l as [|a t IH]; intros s s' r Hp H.
  - injection H as <- _. split; [exact Hp|constructor].
  - cbn [forEach] in H. unfold bind at 1 in H.
    destruct (f a s) as [s1 [e|[]]] eqn:E.
    + injection H as <- <-. split; [exact (proj1 (Hf _ _ _ _ Hp E))|discriminate].
    + destruct (Hf _ _ _ _ Hp E) as [Hp1 Hq].
      destruct (IH _ _ _ Hp1 H) as [Hp' Hr]. split; [exact Hp'|].
      intros ->. constructor; auto.
Qed.

Lemma performAll_app (a b : list Call) (s : VectorStore) :
  performAll (a ++ b) s = performAll b (performAll a s).
Proof. unfold performAll. apply fold_left_app. Qed.

Lemma storeCalled_refl (b : BakeState) : storeCalled b b.
Proof. exists []. reflexivity. Qed.

Lemma storeCalled_trans (a b c : BakeState) :
  storeCalled a b -> storeCalled b c -> storeCalled a c.
Proof.
  intros [c1 H1] [c2 H2]. exists (c1 ++ c2). rewrite performAll_app, <- H1. exact H2.
Qed.

Lemma writeRows_facts (rows : list Row) (b b' : BakeState) (res : Error + unit) :
  writeRows rows b = (b', res) ->
  calls b' = calls b /\ dimSet b' = dimSet b
  /\ store b' = perform (CallUpsertMany rows) (store b)
  /\ match res with
     | inr _ => total b' = (total b + length rows)%nat
                /\ upserted b' = upserted b ++ rows
     | inl _ => total b' = total b /\ upserted b' = upserted b
     end.
Proof.
  unfold writeRows. cbn [perform].
  destruct (upsertMany rows (store b)) as [s' [e|[]]]; intros H; injection H as <- <-;
    cbn; auto.
Qed.

(** What one batch does to the state of a run. *)
Lemma bakeBatch_facts (rel : jstring) (slice : list MeaningChunk)
    (b b' : BakeState) (res : Error + unit) :
  bakeBatch' rel slice b = (b', res) ->
  calls b' = S (calls b)
  /\ storeCalled b b'
  /\ match res with
     | inr _ => total b' = (total b + length slice)%nat
                /\ length (upserted b') = (length (upserted b) + length slice)%nat
     | inl _ => total b' = total b /\ upserted b' = upserted b
     end.
Proof.
  rewrite bakeBatch_eq.
  destruct (embedBatch (service (calls b)) (List.map text slice)) as [e|[vectors d]].
  - intros H; injection H as <- <-. cbn. split; [reflexivity|].
    split; [exists []; reflexivity|auto].
  - set (rows := imap (mkRow sha1 JSON_stringify rel vectors) slice).
    assert (Lr : length rows = length slice) by apply length_imap.
    destruct (dimSet b).
    + intros H. destruct (writeRows_facts _ _ _ _ H) as (A & _ & B & C).
      split; [exact A|]. split; [exists [CallUpsertMany rows]; exact B|].
      destruct res; cbn in C; destruct C as [C1 C2]; split; auto.
      * rewrite C1, Lr. reflexivity.
      * rewrite C2, length_app, Lr. reflexivity.
    + destruct (setDim d (store b)) as [s1 [e|[]]] eqn:SD.
      * intros H; injection H as <- <-. cbn. split; [reflexivity|].
        split; [|auto]. exists [CallSetDim d]. cbn. rewrite SD. reflexivity.
      * intros H. destruct (writeRows_facts _ _ _ _ H) as (A & _ & B & C).
        split; [exact A|].
        split; [exists [CallSetDim d; CallUpsertMany rows]; cbn; rewrite SD; exact B|].
        destruct res; cbn in C; destruct C as [C1 C2]; split; auto.
        -- rewrite C1, Lr. reflexivity.
        -- rewrite C2, length_app, Lr. reflexivity.
Qed.

(** The store was called, and the count of chunks moved with the rows
    written. *)
Lemma bakeBatch_moves (rel : jstring) (slice : list MeaningChunk)
    (b b' : BakeState) (res : Error + unit) :
  bakeBatch' rel slice b = (b', res) ->
  storeCalled b b'
  /\ exists k, total b' = (total b + k)%nat
               /\ length (upserted b') = (length (upserted b) + k)%nat.
Proof.
  intros H. destruct (bakeBatch_facts _ _ _ _ _ H) as (_ & A & B).
  split; [exact A|]. destruct res; destruct B as [B1 B2].
  - exists 0%nat. rewrite B1, B2. lia.
  - exists (length slice). auto.
Qed.

Lemma moves_refl (b : BakeState) :
  storeCalled b b
  /\ exists k, total b = (total b + k)%nat
               /\ length (upserted b) = (length (upserted b) + k)%nat.
Proof. split; [apply storeCalled_refl|]. exists 0%nat. lia. Qed.

Lemma moves_trans (a b c : BakeState) :
  (storeCalled a b
   /\ exists k, total b = (total a + k)%nat
                /\ length (upserted b) = (length (upserted a) + k)%nat) ->
  (storeCalled b c
   /\ exists k, total c = (total b + k)%nat
                /\ length (upserted c) = (length (upserted b) + k)%nat) ->
  storeCalled a c
  /\ exists k, total c = (total a + k)%nat
               /\ length (upserted c) = (length (upserted a) + k)%nat.
Proof.
  intros [S1 (k1 & A1 & B1)] [S2 (k2 & A2 & B2)].
  split; [exact (storeCalled_trans _ _ _ S1 S2)|]. exists (k1 + k2)%nat. lia.
Qed.

Lemma bakeFile_moves (doc : jstring * jstring) (b b' : BakeState) (res : Error + unit) :
  bakeFile' doc b = (b', res) ->
  storeCalled b b'
  /\ exists k, total b' = (total b + k)%nat
               /\ length (upserted b') = (length (upserted b) + k)%nat.
Proof.
  unfold bakeFile. destruct (chunksOf' (fst doc) (snd doc)) as [|c cs].
  - intros H; injection H as <- _. apply moves_refl.
  - apply (forEach_rel (bakeBatch' (fst doc))
             (fun b b' => storeCalled b b'
                /\ exists k, total b' = (total b + k)%nat
                     /\ length (upserted b') = (length (upserted b) + k)%nat)).
    + apply moves_refl.
    + apply moves_trans.
    + apply bakeBatch_moves.
Qed.

Lemma list_sum_ones {A} (l : list A) : list_sum (List.map (fun _ => 1%nat) l) = length l.
Proof. induction l as [|a t IH]; [reflexivity|]. simpl. rewrite IH. reflexivity. Qed.

Lemma bakeFile_counts (doc : jstring * jstring) (b b' : BakeState) :
  bakeFile' doc b = (b', inr tt) ->
  total b' = (total b + length (chunksOf' (fst doc) (snd doc)))%nat
  /\ calls b' = (calls b + batchCount (chunksOf' (fst doc) (snd doc)))%nat.
Proof.
  unfold bakeFile, batchCount.
  destruct (chunksOf' (fst doc) (snd doc)) as [|c cs] eqn:E.
  - intros H; injection H as <-. cbn. lia.
  - rewrite <- E. clear E. generalize (chunksOf' (fst doc) (snd doc)). intros l H.
    assert (Ht : forall a s s', bakeBatch' (fst doc) a s = (s', inr tt) ->
                   total s' = (total s + length a)%nat).
    { intros a s s' Ha. destruct (bakeBatch_facts _ _ _ _ _ Ha) as (_ & _ & B & _).
      exact B. }
    assert (Hc : forall a s s', bakeBatch' (fst doc) a s = (s', inr tt) ->
                   calls s' = (calls s + 1)%nat).
    { intros a s s' Ha. destruct (bakeBatch_facts _ _ _ _ _ Ha) as (A & _). lia. }
    split.
    + rewrite (forEach_sum _ total (@length MeaningChunk) Ht _ _ _ H).
      rewrite <- length_concat, slices_concat. reflexivity.
    + rewrite (forEach_sum _ calls (fun _ => 1%nat) Hc _ _ _ H).
      rewrite list_sum_ones. reflexivity.
Qed.

Lemma size_list_to_set_le (l : list jstring) :
  (size (list_to_set (C := gset jstring) l) <= length l)%nat.
Proof.
  induction l as [|x t IH]; cbn [list_to_set length].
  - rewrite size_empty. lia.
  - rewrite size_union_alt, size_singleton.
    pose proof (subseteq_size (list_to_set t ∖ {[x]}) (list_to_set (C := gset jstring) t)
                  (subseteq_difference_l _ _ _ (reflexivity _))).
    lia.
Qed.

(** X17. What a run reports and what it stores.  A run that completes
    reports the number of chunks of all files, and has made one embedding
    call for every batch of sixteen chunks of a file.  The store then holds
    the ids of the rows of those chunks besides the ids it held, so it has
    grown by the reported count at most; it has grown by less when chunks
    share an id, as the first and the seventeenth block of a section do
    (the run over [bigCorpus] reports 17 chunks and stores 16 records). *)
Theorem bake_accounting (docs : list (jstring * jstring)) (db : VectorStore)
    (b : BakeState) :
  bake' docs db = (b, inr tt) ->
  total b = length (flat_map (fun doc => chunksOf' (fst doc) (snd doc)) docs)
  /\ calls b
     = list_sum (List.map (fun doc => batchCount (chunksOf' (fst doc) (snd doc))) docs)
  /\ dom (chunks (store b))
     = list_to_set
         (List.map keyId
            (bakeKeys sha1 JSON_stringify extractEntities extractConcepts baseMeta docs))
       ∪ dom (chunks db)
  /\ (size (chunks (store b)) <= size (chunks db) + total b)%nat.
Proof.
  intros H.
  assert (Hd : dom (chunks (store b))
               = list_to_set
                   (List.map keyId
                      (bakeKeys sha1 JSON_stringify extractEntities extractConcepts
                         baseMeta docs))
                 ∪ dom (chunks db)).
  { destruct (bake_runs _ _ _ _ _ _ _ _ _ _ H) as [T K]. cbn in K.
    rewrite T, replayChunks_dom, K. reflexivity. }
  assert (Hl : length (bakeKeys sha1 JSON_stringify extractEntities extractConcepts
                         baseMeta docs) = total b).
  { destruct (bake_runs _ _ _ _ _ _ _ _ _ _ H) as [_ K]. cbn in K.
    rewrite <- K, length_map. unfold bake in H.
    pose proof (forEach_rel bakeFile'
             (fun b b' => storeCalled b b'
                /\ exists k, total b' = (total b + k)%nat
                     /\ length (upserted b') = (length (upserted b) + k)%nat)
             moves_refl moves_trans bakeFile_moves _ _ _ _ H) as [_ (k & A & B)].
    cbn in A, B. lia. }
  unfold bake in H. split; [|split; [|split]].
  - rewrite (forEach_sum bakeFile' total
               (fun doc => length (chunksOf' (fst doc) (snd doc)))
               (fun a s s' Ha => proj1 (bakeFile_counts a s s' Ha)) _ _ _ H).
    rewrite length_flat_map. reflexivity.
  - rewrite (forEach_sum bakeFile' calls
               (fun doc => batchCount (chunksOf' (fst doc) (snd doc)))
               (fun a s s' Ha => proj2 (bakeFile_counts a s s' Ha)) _ _ _ H).
    reflexivity.
  - exact Hd.
  - rewrite <- !size_dom, Hd.
    pose proof (size_union_alt
                  (list_to_set (C := gset jstring)
                     (List.map keyId
                        (bakeKeys sha1 JSON_stringify extractEntities extractConcepts
                           baseMeta docs)))
                  (dom (chunks db))) as U.
    pose proof (subseteq_size
                  (dom (chunks db) ∖
                     list_to_set (C := gset jstring)
                       (List.map keyId
                          (bakeKeys sha1 JSON_stringify extractEntities extractConcepts
                             baseMeta docs)))
                  (dom (chunks db)) (subseteq_difference_l _ _ _ (reflexivity _))) as V.
    pose proof (size_list_to_set_le
                  (List.map keyId
                     (bakeKeys sha1 JSON_stringify extractEntities extractConcepts
                        baseMeta docs))) as W.
    rewrite length_map, Hl in W. lia.
Qed.

(** X18. A run never harms what the store holds.  Whether it completes or
    throws, a run on a sound store leaves a sound store, in which every
    chunk record that was there before is still there under its id, with
    the row id it had: chunks of files that are no longer baked are not
    removed. *)
Theorem bake_keeps_store_sound (docs : list (jstring * jstring)) (db : VectorStore)
    (b : BakeState) (res : Error + unit) :
  bake' docs db = (b, res) ->
  sound db ->
  sound (store b)
  /\ (forall i c, chunks db !! i = Some c ->
        exists c', chunks (store b) !! i = Some c' /\ rid c' = rid c).
Proof.
  unfold bake. intros H S.
  pose proof (forEach_rel bakeFile'
             (fun b b' => storeCalled b b'
                /\ exists k, total b' = (total b + k)%nat
                     /\ length (upserted b') = (length (upserted b) + k)%nat)
             moves_refl moves_trans bakeFile_moves _ _ _ _ H) as [[cs E] _].
  cbn [store] in E. rewrite E.
  apply (performAll_sound cs (openStore db)). exact S.
Qed.

(** A run that cannot settle its dimension: the recorded dimension is [v],
    the dimension was not set in this run, and nothing was written. *)
Lemma bakeBatch_refused (v : Z) (T : gmap jstring ChunkRecord) (V : gmap Z (list Q))
    (rel : jstring) (slice : list MeaningChunk) (b b' : BakeState) (res : Error + unit) :
  (forall n texts vecs d, embedBatch (service n) texts = inr (vecs, d) -> d <> v) ->
  (meta_dim (store b) = Some v /\ dimSet b = false /\ chunks (store b) = T
   /\ vec_chunks (store b) = V /\ total b = 0%nat) ->
  bakeBatch' rel slice b = (b', res) ->
  (meta_dim (store b') = Some v /\ dimSet b' = false /\ chunks (store b') = T
   /\ vec_chunks (store b') = V /\ total b' = 0%nat)
  /\ (res = inr tt -> False).
Proof.
  intros Hs (Hm & Hd & Hc & Hv & Ht). rewrite bakeBatch_eq.
  destruct (embedBatch (service (calls b)) (List.map text slice)) as [e|[vectors d]] eqn:E.
  - intros H; injection H as <- <-. cbn. split; [auto 10|discriminate].
  - rewrite Hd. specialize (Hs _ _ _ _ E).
    unfold setDim. rewrite Hm.
    destruct (Z.eqb_spec v d) as [->|Hne]; [contradiction|]. cbn [negb].
    intros H; injection H as <- <-. cbn. split; [auto 10|discriminate].
Qed.

Lemma slices_nil {A} (l : list A) : slices l = [] -> l = [].
Proof. intros H. rewrite <- (slices_concat l), H. reflexivity. Qed.

Lemma bakeFile_refused (v : Z) (T : gmap jstring ChunkRecord) (V : gmap Z (list Q))
    (doc : jstring * jstring) (b b' : BakeState) (res : Error + unit) :
  (forall n texts vecs d, embedBatch (service n) texts = inr (vecs, d) -> d <> v) ->
  (meta_dim (store b) = Some v /\ dimSet b = false /\ chunks (store b) = T
   /\ vec_chunks (store b) = V /\ total b = 0%nat) ->
  bakeFile' doc b = (b', res) ->
  (meta_dim (store b') = Some v /\ dimSet b' = false /\ chunks (store b') = T
   /\ vec_chunks (store b') = V /\ total b' = 0%nat)
  /\ (res = inr tt -> chunksOf' (fst doc) (snd doc) = []).
Proof.
  intros Hs P. unfold bakeFile.
  destruct (chunksOf' (fst doc) (snd doc)) as [|c cs] eqn:E.
  - intros H; injection H as <- _. auto.
  - rewrite <- E. intros H.
    destruct (forEach_held (bakeBatch' (fst doc)) _ (fun _ => False)
                (fun a s s' r Hp Ha => bakeBatch_refused v T V (fst doc) a s s' r Hs Hp Ha)
                _ _ _ _ P H) as [P' Q].
    split; [exact P'|]. intros R. specialize (Q R).
    apply slices_nil. destruct (slices (chunksOf' (fst doc) (snd doc))); [reflexivity|].
    inversion Q; contradiction.
Qed.

(** X19. A store keeps to its dimension through a run.  When the store
    has a recorded dimension and every answer of the embedding service has
    another one, a run writes nothing: the two tables and the recorded
    dimension are what they were and the count is zero; and the run
    completes only if no file has any chunk to embed. *)
Theorem bake_refuses_other_dimension (docs : list (jstring * jstring))
    (db : VectorStore) (v : Z) (b : BakeState) (res : Error + unit) :
  meta_dim db = Some v ->
  (forall n texts vecs d, embedBatch (service n) texts = inr (vecs, d) -> d <> v) ->
  bake' docs db = (b, res) ->
  chunks (store b) = chunks db /\ vec_chunks (store b) = vec_chunks db
  /\ meta_dim (store b) = Some v /\ total b = 0%nat
  /\ (res = inr tt ->
      Forall (fun doc => chunksOf' (fst doc) (snd doc) = []) docs).
Proof.
  intros Hm Hs H. unfold bake in H.
  set (b0 := {| store := openStore db; total := 0; dimSet := false; calls := 0;
                upserted := [] |}) in H.
  assert (P0 : meta_dim (store b0) = Some v /\ dimSet b0 = false
               /\ chunks (store b0) = chunks db
               /\ vec_chunks (store b0) = vec_chunks db /\ total b0 = 0%nat).
  { cbn. auto. }
  destruct (forEach_held bakeFile' _ (fun doc => chunksOf' (fst doc) (snd doc) = [])
              (fun a s s' r Hp Ha =>
                 bakeFile_refused v (chunks db) (vec_chunks db) a s s' r Hs Hp Ha)
              _ _ _ _ P0 H)
    as [(A & _ & B & C & D) Q].
  auto.
Qed.

End Runs.

Lemma sound_twoRowStore : sound twoRowStore.
Proof.
  split.
  - apply (upsertAll_paired sampleRows readyStore), sound_readyStore.
  - apply (upsertAll_unique sampleRows readyStore), ridsUnique_empty.
Qed.

Lemma bake_accounting_witness :
  let run := bake plainHash plainJSON noTerms noTerms constantService noBaseMeta
               bigCorpus emptyStore in
  total (fst run)
  = length (flat_map (fun doc => chunksOf noTerms noTerms noBaseMeta (fst doc) (snd doc))
              bigCorpus)
  /\ calls (fst run)
     = list_sum (List.map (fun doc =>
                   batchCount (chunksOf noTerms noTerms noBaseMeta (fst doc) (snd doc)))
                 bigCorpus)
  /\ dom (chunks (store (fst run)))
     = list_to_set
         (List.map keyId
            (bakeKeys plainHash plainJSON noTerms noTerms noBaseMeta bigCorpus))
       ∪ dom (chunks emptyStore)
  /\ (size (chunks (store (fst run))) <= size (chunks emptyStore) + total (fst run))%nat.
Proof.
  intros run.
  apply (bake_accounting plainHash plainJSON noTerms noTerms constantService noBaseMeta
           bigCorpus emptyStore (fst run)).
  vm_compute. reflexivity.
Defined.

(** The run over the seventeen blocks: two embedding calls, seventeen
    chunks reported, sixteen records stored. *)
Example seventeen_reported_sixteen_stored :
  let run := bake plainHash plainJSON noTerms noTerms constantService noBaseMeta
               bigCorpus emptyStore in
  snd run = inr tt /\ calls (fst run) = 2%nat /\ total (fst run) = 17%nat
  /\ size (chunks (store (fst run))) = 16%nat.
Proof. vm_compute. repeat split; reflexivity. Qed.

Lemma bake_keeps_store_sound_witness :
  let run := bake plainHash plainJSON noTerms noTerms constantService noBaseMeta
               smallCorpus twoRowStore in
  sound (store (fst run))
  /\ (forall i c, chunks twoRowStore !! i = Some c ->
        exists c', chunks (store (fst run)) !! i = Some c' /\ rid c' = rid c).
Proof.
  cbv zeta.
  apply (bake_keeps_store_sound plainHash plainJSON noTerms noTerms constantService
           noBaseMeta smallCorpus twoRowStore _ (snd (bake plainHash plainJSON noTerms noTerms
             constantService noBaseMeta smallCorpus twoRowStore))).
  - apply surjective_pairing.
  - exact sound_twoRowStore.
Defined.

Lemma wideService_dimension (n : nat) (texts : list jstring) (vecs : list (list Q)) (d : Z) :
  embedBatch (wideService n) texts = inr (vecs, d) -> d <> 2%Z.
Proof.
  unfold embedBatch, wideService. cbn.
  destruct texts as [|t ts]; cbn; [discriminate|].
  intros H; injection H as _ <-. discriminate.
Qed.

Lemma bake_refuses_other_dimension_witness :
  let run := bake plainHash plainJSON noTerms noTerms wideService noBaseMeta
               smallCorpus twoRowStore in
  chunks (store (fst run)) = chunks twoRowStore
  /\ vec_chunks (store (fst run)) = vec_chunks twoRowStore
  /\ meta_dim (store (fst run)) = Some 2%Z /\ total (fst run) = 0%nat
  /\ (snd run = inr tt ->
      Forall (fun doc => chunksOf noTerms noTerms noBaseMeta (fst doc) (snd doc) = [])
        smallCorpus).
Proof.
  cbv zeta.
  apply (bake_refuses_other_dimension plainHash plainJSON noTerms noTerms wideService
           noBaseMeta smallCorpus twoRowStore 2).
  - reflexivity.
  - exact wideService_dimension.
  - apply surjective_pairing.
Defined.


End BakeLaws.

(** * What a search returns *)
Module SearchLaws.
Import SearchProofs.

Lemma insertHit_length x l : length (insertHit x l) = S (length l).
Proof.
  induction l as [|y t IH]; [reflexivity|]. cbn.
  destruct (Qltb (relevance_score x) (relevance_score y)); cbn; [rewrite IH|]; reflexivity.
Qed.

Lemma sortHits_length l : length (sortHits l) = length l.
Proof.
  induction l as [|x t IH]; [reflexivity|]. cbn. rewrite insertHit_length, IH. reflexivity.
Qed.

Lemma descending_app (a b : list RankedHit) :
  descending (a ++ b) ->
  forall x y, In x a -> In y b -> (relevance_score y <= relevance_score x)%Q.
Proof.
  unfold descending. induction a as [|z t IH]; intros H x y Hx Hy; [contradiction|].
  cbn in H. inversion H as [|? ? Ht Hz]; subst.
  destruct Hx as [->|Hx]; [|exact (IH Ht x y Hx Hy)].
  rewrite Forall_forall in Hz. apply Hz. apply list_elem_of_In.
  apply in_or_app. right. exact Hy.
Qed.

Lemma rankHits_candidates (JSON_parse : jstring -> option Metadata)
    (raw : list SearchHit) (q : jstring) (k : nat) (filters : option Filters) :
  rankHits JSON_parse raw q k filters
  = firstn k (sortHits (candidates JSON_parse raw q filters)).
Proof. reflexivity. Qed.

(** X20. A search returns the best candidates.  The candidates being the
    hits of the nearest-neighbour query that pass the filters, the search
    returns as many results as asked for, or all the candidates when there
    are fewer; every result is a candidate with its relevance score; and
    every candidate is among the results or scores no higher than each of
    them. *)
Theorem search_returns_the_best (JSON_parse : jstring -> option Metadata)
    (searchKnn : list Q -> nat -> list SearchHit)
    (q : jstring) (qvec : list Q) (k : nat) (filters : option Filters) :
  length (search JSON_parse searchKnn q qvec k filters)
  = Nat.min k (length (candidates JSON_parse (searchKnn qvec (Nat.max (k * 2) 20)) q filters))
  /\ (forall r, In r (search JSON_parse searchKnn q qvec k filters) ->
        In r (candidates JSON_parse (searchKnn qvec (Nat.max (k * 2) 20)) q filters))
  /\ (forall c, In c (candidates JSON_parse (searchKnn qvec (Nat.max (k * 2) 20)) q filters) ->
        In c (search JSON_parse searchKnn q qvec k filters)
        \/ forall r, In r (search JSON_parse searchKnn q qvec k filters) ->
             (relevance_score c <= relevance_score r)%Q).
Proof.
  unfold search. rewrite rankHits_candidates.
  set (cands := candidates _ _ _ _).
  split; [rewrite length_firstn, sortHits_length; reflexivity|]. split.
  - intros r Hr. apply sortHits_In. exact (firstn_subset r k _ Hr).
  - intros c Hc. apply sortHits_In in Hc.
    rewrite <- (firstn_skipn k (sortHits cands)) in Hc.
    apply in_app_or in Hc as [Hc|Hc]; [left; exact Hc|]. right.
    intros r Hr. apply (descending_app (firstn k (sortHits cands)) (skipn k (sortHits cands)));
      [|exact Hr|exact Hc].
    rewrite firstn_skipn. apply sortHits_descending.
Qed.

Lemma filter_insertHit (v : Q) (x : RankedHit) (l : list RankedHit) :
  List.filter (tied v) (insertHit x l)
  = if tied v x then x :: List.filter (tied v) l else List.filter (tied v) l.
Proof.
  induction l as [|y t IH]; [reflexivity|]. cbn [insertHit].
  destruct (Qltb (relevance_score x) (relevance_score y)) eqn:C; [|reflexivity].
  cbn [List.filter]. rewrite IH.
  destruct (tied v x) eqn:Tx; [|reflexivity].
  destruct (tied v y) eqn:Ty; [|reflexivity].
  unfold tied in *. apply Qeq_bool_iff in Tx, Ty. apply Qltb_true in C.
  rewrite Tx, Ty in C. exfalso. exact (Qlt_irrefl _ C).
Qed.

Lemma filter_sortHits (v : Q) (l : list RankedHit) :
  List.filter (tied v) (sortHits l) = List.filter (tied v) l.
Proof.
  induction l as [|x t IH]; [reflexivity|].
  cbn [sortHits List.filter]. rewrite filter_insertHit, IH. reflexivity.
Qed.

(** X21. Ties keep the order of the nearest-neighbour query.  For every
    score, the results of a search that have that score are, in order, the
    first of the candidates that have it. *)
Theorem ties_keep_query_order (JSON_parse : jstring -> option Metadata)
    (searchKnn : list Q -> nat -> list SearchHit)
    (q : jstring) (qvec : list Q) (k : nat) (filters : option Filters) (v : Q) :
  exists rest,
    List.filter (tied v)
      (candidates JSON_parse (searchKnn qvec (Nat.max (k * 2) 20)) q filters)
    = List.filter (tied v) (search JSON_parse searchKnn q qvec k filters) ++ rest.
Proof.
  unfold search. rewrite rankHits_candidates.
  set (cands := candidates _ _ _ _).
  exists (List.filter (tied v) (skipn k (sortHits cands))).
  rewrite <- List.filter_app, firstn_skipn. symmetry. apply filter_sortHits.
Qed.

End SearchLaws.

(** * The command line *)
Module CliLaws.

Lemma jeqb_true (a b : jstring) : jeqb a b = true <-> a = b.
Proof. unfold jeqb. apply bool_decide_eq_true. Qed.

Lemma jeqb_false (a b : jstring) : jeqb a b = false <-> a <> b.
Proof. unfold jeqb. apply bool_decide_eq_false. Qed.

Lemma startsWith_app (p s : jstring) : startsWith p (p ++ s) = true.
Proof.
  induction p as [|c t IH]; [reflexivity|]. cbn. rewrite Ascii.eqb_refl. exact IH.
Qed.

Lemma startsWith_firstn (n : nat) (r : jstring) : startsWith (firstn n r) r = true.
Proof.
  rewrite <- (firstn_skipn n r) at 2. apply startsWith_app.
Qed.

Lemma startsWith_split (p s : jstring) :
  startsWith p s = true -> exists r, s = p ++ r.
Proof.
  revert s. induction p as [|c t IH]; intros s H; [exists s; reflexivity|].
  destruct s as [|d s']; [discriminate|]. cbn in H.
  apply andb_true_iff in H as [E H]. apply Ascii.eqb_eq in E. subst d.
  destruct (IH _ H) as [r ->]. exists r. reflexivity.
Qed.

Lemma dashes_not_short (a : jstring) : startsWith (lit "--") a = true -> isShort a = false.
Proof.
  intros H. destruct (startsWith_split _ _ H) as [r ->].
  unfold isShort. apply orb_false_iff. split; apply jeqb_false; discriminate.
Qed.

Lemma value_not_short (a : jstring) : isValue (Some a) = true -> isShort a = false.
Proof.
  unfold isValue, isShort. destruct a as [|c t]; [discriminate|]. intros H.
  apply negb_true_iff in H.
  apply orb_false_iff. split; apply jeqb_false; intros E; rewrite E in H; discriminate.
Qed.

(** The parser throws at the first short option without a value, and
    nowhere else. *)
Lemma parseRest_outcome (n : nat) : forall rest kv dbg,
  (length rest <= n)%nat ->
  match firstBare rest with
  | Some a => parseRest rest kv dbg = inl (MissingValue a)
  | None => exists kv' dbg', parseRest rest kv dbg = inr (kv', dbg')
  end.
Proof.
  induction n as [|n IH]; intros rest kv dbg Hn.
  - destruct rest; [|cbn in Hn; lia]. cbn. eauto.
  - destruct rest as [|a t]; [cbn; eauto|]. cbn [length] in Hn.
    assert (Ht : (length t <= n)%nat) by lia.
    cbn [parseRest firstBare].
    destruct (jeqb a (lit "--debug")) eqn:Ed.
    + apply jeqb_true in Ed. subst a. cbn [isShort]. apply IH. exact Ht.
    + destruct (startsWith (lit "--") a) eqn:Es.
      * rewrite (dashes_not_short a Es). cbn [andb].
        destruct (indexOfEq a) as [eq|]; [apply IH; exact Ht|].
        destruct t as [|next t']; [apply IH; exact Ht|].
        destruct (isValue (Some next)) eqn:Ev; [|apply IH; exact Ht].
        cbn [firstBare]. rewrite (value_not_short next Ev). cbn [andb].
        apply IH. cbn [length] in Ht. lia.
      * destruct (isShort a) eqn:Ea.
        -- unfold isShort in Ea. rewrite Ea. cbn [andb].
           destruct t as [|next t']; [reflexivity|]. cbn [head].
           destruct (isValue (Some next)) eqn:Ev; [|reflexivity]. cbn [negb].
           cbn [firstBare]. rewrite (value_not_short next Ev). cbn [andb].
           apply IH. cbn [length] in Ht. lia.
        -- unfold isShort in Ea. rewrite Ea. cbn [andb]. apply IH. exact Ht.
Qed.

(** X23. [parseArgs] throws exactly when the option [-q] or [-k] lacks its
    value: the error names the first [-q] or [-k] that is the last
    argument or is followed by an empty argument or by one that begins
    with a hyphen; when there is none the arguments parse, whatever they
    are, a long option without a value being stored as [true]. *)
Theorem parseArgs_throws_on_bare_short_option (argv : list jstring) :
  match firstBare (skipn 3 argv) with
  | Some a => parseArgs argv = inl (MissingValue a)
  | None => exists p, parseArgs argv = inr p /\ cmd p = nth_error argv 2
  end.
Proof.
  unfold parseArgs.
  pose proof (parseRest_outcome (length (skipn 3 argv)) (skipn 3 argv) ∅ false (le_n _)) as H.
  destruct (firstBare (skipn 3 argv)) as [a|].
  - rewrite H. reflexivity.
  - destruct H as (m & d & ->). eexists. split; reflexivity.
Qed.

(** ** Options that are read back as written *)

Lemma indexOfEq_key (k v : jstring) :
  noEq k = true -> indexOfEq (k ++ "="%char :: v) = Some (length k).
Proof.
  induction k as [|c t IH]; intros H; [reflexivity|].
  cbn in H. apply andb_true_iff in H as [Hc Ht]. apply negb_true_iff in Hc.
  cbn. rewrite Hc, (IH Ht). reflexivity.
Qed.

Lemma indexOfEq_none (k : jstring) : noEq k = true -> indexOfEq k = None.
Proof.
  induction k as [|c t IH]; intros H; [reflexivity|].
  cbn in H. apply andb_true_iff in H as [Hc Ht]. apply negb_true_iff in Hc.
  cbn. rewrite Hc, (IH Ht). reflexivity.
Qed.

Lemma noEq_not_in (k : jstring) : noEq k = true -> ~ In "="%char k.
Proof.
  induction k as [|c t IH]; intros H; [intros []|].
  cbn in H. apply andb_true_iff in H as [Hc Ht]. apply negb_true_iff in Hc.
  intros [E|E]; [subst c; discriminate|exact (IH Ht E)].
Qed.

Lemma encode_head (os : list Opt) (next : jstring) (t : list jstring) :
  encode os = next :: t -> isValue (Some next) = false.
Proof.
  destruct os as [|o os']; [discriminate|].
  unfold encode. cbn [flat_map].
  destruct o; cbn; intros H; injection H as <- _; reflexivity.
Qed.

Lemma parse_long_eq (k v : jstring) (t : list jstring) (kv : gmap jstring KVal) (dbg : bool) :
  noEq k = true ->
  parseRest ((lit "--" ++ k ++ lit "=" ++ v) :: t) kv dbg
  = parseRest t (setKey k (VStr v) kv) dbg.
Proof.
  intros Hk. cbn [parseRest].
  assert (Ed : jeqb (lit "--" ++ k ++ lit "=" ++ v) (lit "--debug") = false).
  { apply jeqb_false. intros E. cbn in E. injection E as E.
    apply (noEq_not_in (k ++ "="%char :: v)); [|apply in_or_app; right; left; reflexivity].
    rewrite E. reflexivity. }
  rewrite Ed. change (lit "--" ++ k ++ lit "=" ++ v) with ("-" :: "-" :: k ++ "=" :: v)%char.
  cbn [startsWith lit list_ascii_of_string Ascii.eqb Bool.eqb andb indexOfEq isC].
  change (Ascii.eqb "-" "=")%char with false. cbn iota.
  rewrite (indexOfEq_key k v Hk). cbn [option_map].
  unfold slice, sliceFrom. cbn [skipn Nat.sub Nat.add].
  change (drop 0 (k ++ "="%char :: v)) with (k ++ "="%char :: v).
  rewrite (take_app_length' k) by lia.
  replace (k ++ "="%char :: v) with ((k ++ ["="%char]) ++ v)
    by (rewrite <- app_assoc; reflexivity).
  rewrite (drop_app_length' (k ++ ["="%char])) by (rewrite length_app; cbn; lia).
  reflexivity.
Qed.

Lemma long_key_plain (k : jstring) :
  noEq k = true -> jeqb k (lit "debug") = false ->
  jeqb (lit "--" ++ k) (lit "--debug") = false
  /\ startsWith (lit "--") (lit "--" ++ k) = true
  /\ indexOfEq (lit "--" ++ k) = None
  /\ sliceFrom 2 (lit "--" ++ k) = k.
Proof.
  intros Hk Hd. split; [|split; [|split]].
  - apply jeqb_false. intros E. cbn in E. injection E as E.
    apply jeqb_false in Hd. contradiction.
  - reflexivity.
  - change (lit "--" ++ k) with ("-" :: "-" :: k)%char. cbn [indexOfEq isC].
    change (Ascii.eqb "-" "=")%char with false. cbn iota.
    rewrite (indexOfEq_none k Hk). reflexivity.
  - reflexivity.
Qed.

Lemma parse_long_value (k v : jstring) (t : list jstring) (kv : gmap jstring KVal)
    (dbg : bool) :
  noEq k = true -> jeqb k (lit "debug") = false -> isValue (Some v) = true ->
  parseRest ((lit "--" ++ k) :: v :: t) kv dbg = parseRest t (setKey k (VStr v) kv) dbg.
Proof.
  intros Hk Hd Hv. destruct (long_key_plain k Hk Hd) as (A & B & C & D).
  cbn [parseRest]. rewrite A, B, C, D, Hv. reflexivity.
Qed.

Lemma parse_long_flag (k : jstring) (t : list jstring) (kv : gmap jstring KVal)
    (dbg : bool) :
  noEq k = true -> jeqb k (lit "debug") = false ->
  isValue (head t) = false ->
  parseRest ((lit "--" ++ k) :: t) kv dbg = parseRest t (setKey k VTrue kv) dbg.
Proof.
  intros Hk Hd Hv. destruct (long_key_plain k Hk Hd) as (A & B & C & D).
  cbn [parseRest]. rewrite A, B, C, D.
  destruct t as [|next t']; [reflexivity|]. cbn [head] in Hv. rewrite Hv. reflexivity.
Qed.

(** X24. Long options are read back as written.  A command line made of
    options [--key=value], [--key value], [--key] and [--debug], in any
    number and order, parses without error to the record that the options
    spell out, a later option overriding an earlier one of the same key,
    provided that no key holds an equals sign, that a key written without
    an attached value is not [debug], and that a detached value is not
    empty and does not begin with a hyphen.  An attached value may be any
    text. *)
Theorem long_options_read_back (opts : list Opt) (kv : gmap jstring KVal) (dbg : bool) :
  forallb readable opts = true ->
  parseRest (encode opts) kv dbg = inr (fold_left applyOpt opts (kv, dbg)).
Proof.
  revert kv dbg.
  induction opts as [|o os IH]; intros kv dbg H; [reflexivity|].
  cbn [forallb] in H. apply andb_true_iff in H as [Ho Hos].
  unfold encode in *. cbn [flat_map fold_left].
  destruct o as [k v|k v|k|]; cbn [encodeOpt app readable applyOpt fst snd] in *.
  - rewrite (parse_long_eq k v _ kv dbg Ho). apply IH, Hos.
  - apply andb_true_iff in Ho as [Ho Hv]. apply andb_true_iff in Ho as [Hk Hd].
    apply negb_true_iff in Hd.
    rewrite (parse_long_value k v _ kv dbg Hk Hd Hv). apply IH, Hos.
  - apply andb_true_iff in Ho as [Hk Hd]. apply negb_true_iff in Hd.
    rewrite (parse_long_flag k _ kv dbg Hk Hd); [apply IH, Hos|].
    destruct (flat_map encodeOpt os) as [|next t'] eqn:E; [reflexivity|].
    cbn [head]. exact (encode_head os next t' E).
  - cbn [parseRest]. change (jeqb (lit "--debug") (lit "--debug")) with true.
    cbn iota. apply IH, Hos.
Qed.

Lemma long_options_read_back_witness :
  parseRest (encode [OptSp (lit "q") (lit "burial rites"); OptEq (lit "min_importance") (lit "-0.5");
                     OptFlag (lit "no_rerank"); OptDebug; OptEq (lit "q") (lit "rites")])
    ∅ false
  = inr (fold_left applyOpt
           [OptSp (lit "q") (lit "burial rites"); OptEq (lit "min_importance") (lit "-0.5");
            OptFlag (lit "no_rerank"); OptDebug; OptEq (lit "q") (lit "rites")]
           (∅, false)).
Proof. apply long_options_read_back. reflexivity. Defined.

(** ** The keys that a command line can set *)

Lemma setKey_other (k key : jstring) (v : KVal) (m : gmap jstring KVal) :
  k <> key -> setKey k v m !! key = m !! key.
Proof.
  intros H. unfold setKey. destruct (jeqb k (lit "__proto__")); [reflexivity|].
  apply lookup_insert_ne. exact H.
Qed.

Lemma long_key_prefix (a : jstring) (n : nat) :
  startsWith (lit "--") a = true ->
  startsWith (lit "--" ++ slice 2 n a) a = true
  /\ startsWith (lit "--" ++ sliceFrom 2 a) a = true.
Proof.
  intros H. destruct (startsWith_split _ _ H) as [r ->].
  unfold slice, sliceFrom. cbn [lit list_ascii_of_string app skipn].
  split.
  - change (startsWith ("-" :: "-" :: firstn (n - 2) r)%char ("-" :: "-" :: r)%char = true).
    cbn [startsWith]. rewrite !Ascii.eqb_refl. apply startsWith_firstn.
  - change (startsWith ("-" :: "-" :: r)%char ("-" :: "-" :: r)%char = true).
    cbn [startsWith]. rewrite !Ascii.eqb_refl.
    rewrite <- (app_nil_r r) at 2. apply startsWith_app.
Qed.

(** A key other than [q] and [k] is set only by an argument that begins
    with two hyphens and the key. *)
Lemma parseRest_key_origin (key : jstring) (n : nat) : forall rest kv dbg kv' dbg',
  (length rest <= n)%nat ->
  key <> lit "q" -> key <> lit "k" ->
  Forall (fun a => startsWith (lit "--" ++ key) a = false) rest ->
  parseRest rest kv dbg = inr (kv', dbg') ->
  kv' !! key = kv !! key.
Proof.
  induction n as [|n IH]; intros rest kv dbg kv' dbg' Hn Hq Hk F H.
  - destruct rest; [|cbn in Hn; lia]. injection H as <- _. reflexivity.
  - destruct rest as [|a t]; [injection H as <- _; reflexivity|].
    cbn [length] in Hn. assert (Ht : (length t <= n)%nat) by lia.
    inversion F as [|? ? Fa Ft]; subst.
    cbn [parseRest] in H.
    destruct (jeqb a (lit "--debug")); [exact (IH _ _ _ _ _ Ht Hq Hk Ft H)|].
    destruct (startsWith (lit "--") a) eqn:Es.
    + assert (Hs : forall m, lit "--" ++ slice 2 m a <> lit "--" ++ key).
      { intros m E. destruct (long_key_prefix a m Es) as [P _].
        rewrite E in P. congruence. }
      assert (Hf : lit "--" ++ sliceFrom 2 a <> lit "--" ++ key).
      { intros E. destruct (long_key_prefix a 0 Es) as [_ P].
        rewrite E in P. congruence. }
      destruct (indexOfEq a) as [eq|].
      * rewrite (IH _ _ _ _ _ Ht Hq Hk Ft H). apply setKey_other.
        intros E. apply (Hs eq). rewrite E. reflexivity.
      * assert (Ne : sliceFrom 2 a <> key) by (intros E; apply Hf; rewrite E; reflexivity).
        destruct t as [|next t'].
        -- rewrite (IH _ _ _ _ _ Ht Hq Hk Ft H). apply setKey_other, Ne.
        -- destruct (isValue (Some next)).
           ++ inversion Ft as [|? ? _ Ft']; subst. cbn [length] in Ht.
              rewrite (IH t' _ _ _ _ ltac:(lia) Hq Hk Ft' H). apply setKey_other, Ne.
           ++ rewrite (IH _ _ _ _ _ Ht Hq Hk Ft H). apply setKey_other, Ne.
    + destruct (jeqb a (lit "-q") || jeqb a (lit "-k")).
      * destruct t as [|next t']; [discriminate|].
        destruct (isValue (Some next)); [|discriminate].
        inversion Ft as [|? ? _ Ft']; subst. cbn [length] in Ht.
        rewrite (IH t' _ _ _ _ ltac:(lia) Hq Hk Ft' H). apply setKey_other.
        destruct (jeqb a (lit "-q")); congruence.
      * exact (IH _ _ _ _ _ Ht Hq Hk Ft H).
Qed.

Lemma pick_none (o : option KVal) : o = None -> pick o = None.
Proof. intros ->. reflexivity. Qed.

(** X25. Only the spelling with an underscore reaches the search.  When
    no argument begins with [--content_type], [--min_importance],
    [--no_rerank] or [--no_context], the parsed record has none of these
    keys, so the search command passes no filter on the content type or on
    the importance, and re-ranking and context stay switched on; the
    spellings with a hyphen, [--content-type], [--min-importance],
    [--no-rerank] and [--no-context], are parsed into keys that the
    command does not read. *)
Theorem only_underscore_options_reach_search (rest : list jstring)
    (m : gmap jstring KVal) (dbg : bool) :
  parseRest rest ∅ false = inr (m, dbg) ->
  Forall noUnderscoreSpelling rest ->
  m !! lit "content_type" = None /\ m !! lit "min_importance" = None
  /\ m !! lit "no_rerank" = None /\ m !! lit "no_context" = None
  /\ (forall o, searchCommand m = Some o ->
        so_rerank o = true /\ so_include_context o = true
        /\ (forall f, so_filters o = Some f ->
              cf_content_type f = None /\ cf_min_importance f = None)).
Proof.
  intros H F.
  assert (K : forall key, key <> lit "q" -> key <> lit "k" ->
            Forall (fun a => startsWith (lit "--" ++ key) a = false) rest ->
            m !! key = None).
  { intros key Hq Hk Fk.
    rewrite (parseRest_key_origin key (length rest) rest ∅ false m dbg (le_n _) Hq Hk Fk H).
    apply lookup_empty. }
  assert (A : m !! lit "content_type" = None).
  { apply K; try discriminate. eapply Forall_impl; [exact F|]. intros a Ha. apply Ha. }
  assert (B : m !! lit "min_importance" = None).
  { apply K; try discriminate. eapply Forall_impl; [exact F|]. intros a Ha. apply Ha. }
  assert (C : m !! lit "no_rerank" = None).
  { apply K; try discriminate. eapply Forall_impl; [exact F|]. intros a Ha. apply Ha. }
  assert (D : m !! lit "no_context" = None).
  { apply K; try discriminate. eapply Forall_impl; [exact F|]. intros a Ha. apply Ha. }
  repeat (split; [assumption|]).
  intros o Ho. unfold searchCommand in Ho.
  destruct (truthy (m !! lit "q")); [|discriminate]. injection Ho as <-.
  unfold buildFilters. unfold lit in *. cbn [list_ascii_of_string] in *.
  rewrite A, B, C, D.
  split; [reflexivity|]. split; [reflexivity|].
  intros f Hf. unfold filtersOrUndefined in Hf.
  cbn [so_filters cf_universe cf_species cf_subspecies cf_content_type cf_min_importance]
    in Hf.
  change (pick None) with (@None KVal) in Hf.
  repeat match type of Hf with
         | context [match pick ?o with _ => _ end] => destruct (pick o)
         end; try discriminate; injection Hf as <-; split; reflexivity.
Qed.

Lemma only_underscore_options_reach_search_witness :
  usageKv !! lit "content_type" = None /\ usageKv !! lit "min_importance" = None
  /\ usageKv !! lit "no_rerank" = None /\ usageKv !! lit "no_context" = None
  /\ (forall o, searchCommand usageKv = Some o ->
        so_rerank o = true /\ so_include_context o = true
        /\ (forall f, so_filters o = Some f ->
              cf_content_type f = None /\ cf_min_importance f = None)).
Proof.
  apply (only_underscore_options_reach_search usageExample usageKv false).
  - vm_compute. reflexivity.
  - repeat constructor.
Defined.

Example usage_example_is_unfiltered :
  exists o, searchCommand usageKv = Some o
            /\ so_q o = VStr (lit "rituals") /\ so_filters o = None /\ so_rerank o = true
            /\ usageKv !! lit "content-type" = Some (VStr (lit "quote"))
            /\ usageKv !! lit "no-rerank" = Some VTrue.
Proof. eexists. repeat split; vm_compute; reflexivity. Qed.

End CliLaws.

(** * The sources of the historian agent *)
Module AgentLaws.

Section Laws.

Variable parseFloat : jstring -> option Q.

Lemma confidence_rank (sources : list Source) :
  rank (assessConfidenceFromSources parseFloat sources)
  = (Nat.b2n (existsb (highlyRelevant parseFloat) sources)
     + Nat.b2n (2 <? length sources))%nat.
Proof.
  unfold assessConfidenceFromSources. destruct sources as [|s t]; [reflexivity|].
  cbv zeta.
  destruct (existsb (highlyRelevant parseFloat) (s :: t)),
    (2 <? length (s :: t))%nat; reflexivity.
Qed.

(** X26. The confidence of the agent never falls as its research goes on.
    Sources being only ever added, the confidence assessed from the sources
    gathered so far and any further ones is no lower than the confidence
    assessed from the sources gathered so far.  It is high only with three
    sources or more, one of which scores above 1.5, and low without
    sources. *)
Theorem confidence_grows_with_sources (sources more : list Source) :
  (rank (assessConfidenceFromSources parseFloat sources)
   <= rank (assessConfidenceFromSources parseFloat (sources ++ more)))%nat
  /\ (assessConfidenceFromSources parseFloat sources = high ->
      (3 <= length sources)%nat
      /\ Exists (fun s => highlyRelevant parseFloat s = true) sources)
  /\ assessConfidenceFromSources parseFloat [] = low.
Proof.
  split; [|split; [|reflexivity]].
  - rewrite !confidence_rank, existsb_app, length_app.
    destruct (existsb (highlyRelevant parseFloat) sources); cbn [orb Nat.b2n].
    + destruct (2 <? length sources)%nat eqn:A.
      * apply Nat.ltb_lt in A.
        assert (B : (2 <? length sources + length more)%nat = true)
          by (apply Nat.ltb_lt; lia).
        rewrite B. lia.
      * cbn. lia.
    + destruct (2 <? length sources)%nat eqn:A.
      * apply Nat.ltb_lt in A.
        assert (B : (2 <? length sources + length more)%nat = true)
          by (apply Nat.ltb_lt; lia).
        rewrite B. cbn. lia.
      * cbn. lia.
  - intros H. pose proof (confidence_rank sources) as R. rewrite H in R. cbn [rank] in R.
    destruct (existsb (highlyRelevant parseFloat) sources) eqn:E;
      destruct (2 <? length sources)%nat eqn:A; cbn in R; try lia.
    apply Nat.ltb_lt in A. split; [lia|].
    apply existsb_exists in E as (s & Hs & Hh).
    apply Exists_exists. exists s. split; [apply list_elem_of_In; exact Hs|exact Hh].
Qed.

(** X27. The list of sources that the agent reports only grows at its
    end.  It holds ten sources at most, each with a title and a section;
    and when further sources are gathered, the sources listed before are
    still listed, at the same places. *)
Theorem listed_sources_are_stable (sources more : list Source) :
  (length (formatSources parseFloat sources) <= 10)%nat
  /\ Forall (fun l => ls_title l <> [] /\ ls_section l <> [])
       (formatSources parseFloat sources)
  /\ exists rest,
       formatSources parseFloat (sources ++ more)
       = formatSources parseFloat sources ++ rest.
Proof.
  unfold formatSources. split; [|split].
  - rewrite length_firstn. lia.
  - apply Forall_forall. intros l Hl. apply list_elem_of_In in Hl.
    assert (Hin : In l (List.map (listed parseFloat)
              (List.filter (fun s => present (s_title s) && present (s_section s)) sources))).
    { revert Hl. generalize 10%nat. generalize (List.map (listed parseFloat)
        (List.filter (fun s => present (s_title s) && present (s_section s)) sources)).
      intros L n. revert n. induction L as [|x t IH]; intros [|n] H; cbn in H;
        try contradiction.
      destruct H as [->|H]; [left; reflexivity|right; exact (IH n H)]. }
    apply in_map_iff in Hin as (s & <- & Hs).
    apply List.filter_In in Hs as [_ Hp]. apply andb_true_iff in Hp as [Ht Hc].
    unfold listed. cbn [ls_title ls_section].
    destruct (s_title s) as [[|a t]|]; try discriminate.
    destruct (s_section s) as [[|b u]|]; try discriminate.
    split; discriminate.
  - rewrite List.filter_app, List.map_app.
    set (X := List.map _ (List.filter _ sources)).
    set (Y := List.map _ (List.filter _ more)).
    exists (firstn (10 - length X) Y). apply firstn_app.
Qed.

End Laws.

End AgentLaws.
